(** * VoteKit: the STV engine and its round records

    A shallow embedding of [votekit/election_state.py] and
    [votekit/election_types.py].

    - Candidates are Python [str]: [string].
    - A tie group is a Python [set] of candidates: [gset string].
    - Weights and tallies are [fractions.Fraction]: canonical rationals [Qc].
    - Python [int] is [Z].
    - Objects that the code mutates in place live in a store and are
      referred to by location: the [list[str]] held in
      [ElectionState.remaining] (mutated by [list.remove]) and the
      [list[Ballot]] of a profile (its ballots are mutated by attribute
      assignment).  [ElectionState] itself forbids attribute assignment
      ([allow_mutation = False]); it is a value holding references.
    - Exceptions are an error result. *)

From stdpp Require Import gmap strings list numbers sorting.
From Stdlib Require Import QArith Qcanon Qround Lqa.

Open Scope string_scope.
Open Scope list_scope.
Open Scope Z_scope.

(** ** Exceptions and the state-and-error monad *)

Inductive exn : Set :=
  | IndexError
  | ValueError
  | KeyError
  | ZeroDivisionError
  | DanglingRef. (* a location outside the store; no Python counterpart *)

Inductive result (A : Type) : Type :=
  | Ok (a : A)
  | Raise (e : exn).
Arguments Ok {A} a.
Arguments Raise {A} e.

Definition M (S A : Type) : Type := S → result (A * S).

Definition ret {S A} (a : A) : M S A := λ s, Ok (a, s).
Definition raise {S A} (e : exn) : M S A := λ _, Raise e.
Definition bind {S A B} (m : M S A) (k : A → M S B) : M S B :=
  λ s, match m s with
       | Ok (a, s') => k a s'
       | Raise e => Raise e
       end.

Declare Scope py_scope.
Delimit Scope py_scope with py.
Notation "x <~ m ;; k" := (bind m (λ x, k))
  (at level 100, m at next level, right associativity,
   format "'[v' x  <~  m  ;; '/' k ']'") : py_scope.
Notation "m ;;; k" := (bind m (λ _, k))
  (at level 100, right associativity) : py_scope.
Open Scope py_scope.

(** ** Ballots *)

(** Modelled from the spec: class [Ballot] of [votekit/ballot.py], which is
    not among the sources: "ranking: ordered sequence of sets of candidate
    identifiers; weight: exact rational number". *)
Record Ballot : Type := mkBallot {
  ranking : list (gset string);
  weight : Qc
}.

#[global] Instance Ballot_eq_dec : EqDecision Ballot.
Proof. solve_decision. Defined.

(** ** The store *)

(** Locations are indices into a store. *)
Abbreviation loc := nat (only parsing).

(** [list[Ballot]] objects.  The ballots of one list are distinct objects
    owned by that list, so a cell holds the ballots themselves. *)
Abbreviation BallotStore := (list (list Ballot)) (only parsing).

Record Heap : Type := mkHeap {
  str_lists : list (list string);
  ballot_lists : BallotStore
}.

Definition store_new {A} (v : A) : M (list A) loc :=
  λ st, Ok (length st, st ++ [v]).
Definition store_get {A} (r : loc) : M (list A) A :=
  λ st, match st !! r with
        | Some v => Ok (v, st)
        | None => Raise DanglingRef
        end.
Definition store_set {A} (r : loc) (v : A) : M (list A) () :=
  λ st, match st !! r with
        | Some _ => Ok ((), <[r := v]> st)
        | None => Raise DanglingRef
        end.

(** Running a computation on one component of the heap. *)
Definition on_ballots {A} (m : M BallotStore A) : M Heap A :=
  λ h, match m (ballot_lists h) with
       | Ok (a, bl) => Ok (a, mkHeap (str_lists h) bl)
       | Raise e => Raise e
       end.
Definition on_strs {A} (m : M (list (list string)) A) : M Heap A :=
  λ h, match m (str_lists h) with
       | Ok (a, sl) => Ok (a, mkHeap sl (ballot_lists h))
       | Raise e => Raise e
       end.

(** ** Python list and dict helpers *)

(** [l.remove(x)]: drops the first occurrence, [ValueError] when absent. *)
Fixpoint list_remove (x : string) (l : list string) : option (list string) :=
  match l with
  | [] => None
  | y :: l' => if decide (x = y) then Some l'
               else (y ::.) <$> list_remove x l'
  end.

Definition py_remove (r : loc) (x : string) : M (list (list string)) () :=
  l <~ store_get r ;;
  match list_remove x l with
  | Some l' => store_set r l'
  | None => raise ValueError
  end.

(** [d[k] = v] on an insertion-ordered dict: an existing key keeps its
    position. *)
Fixpoint dict_set (k : string) (v : Qc) (d : list (string * Qc))
  : list (string * Qc) :=
  match d with
  | [] => [(k, v)]
  | (k', v') :: d' => if decide (k = k') then (k, v) :: d'
                      else (k', v') :: dict_set k v d'
  end.

(** [sorted(items, key=lambda x: x[1], reverse=True)]: a stable sort in
    descending order of the value. *)
Fixpoint insert_desc (x : string * Qc) (l : list (string * Qc))
  : list (string * Qc) :=
  match l with
  | [] => [x]
  | y :: l' => if decide (x.2 < y.2)%Qc then y :: insert_desc x l'
               else x :: l
  end.
Definition sorted_desc (l : list (string * Qc)) : list (string * Qc) :=
  foldr insert_desc [] l.

(** ** Election helper functions ([election_types.py]) *)

Record CandidateVotes : Type := mkCandidateVotes {
  cand : string;
  votes : Qc
}.

(** [ballot.ranking and ballot.ranking[0] == {candidate}] *)
Definition first_is (candidate : string) (ballot : Ballot) : bool :=
  match ranking ballot with
  | [] => false
  | g :: _ => bool_decide (g = {[ candidate ]})
  end.

(** The inner loop of [compute_votes]. *)
Definition first_place_weight (candidate : string) (ballots : list Ballot)
  : Qc :=
  foldl (λ w ballot, if first_is candidate ballot
                     then (w + weight ballot)%Qc else w)
        (Q2Qc 0) ballots.

Definition votes_dict (candidates : list string) (ballots : list Ballot)
  : list (string * Qc) :=
  foldl (λ d candidate,
           dict_set candidate (first_place_weight candidate ballots) d)
        [] candidates.

Definition compute_votes (candidates : list string) (ballots : list Ballot)
  : list CandidateVotes :=
  (λ kv, mkCandidateVotes kv.1 kv.2)
    <$> sorted_desc (votes_dict candidates ballots).

(** The ranking assigned to each copied ballot by [remove_cand]. *)
Definition without_cand (removed_cand : string) (ballot : Ballot) : Ballot :=
  mkBallot (filter (λ g, g ≠ {[ removed_cand ]}) (ranking ballot))
           (weight ballot).

(** [remove_cand]: works on a deep copy, which is a new list object. *)
Definition remove_cand (removed_cand : string) (ballots : loc)
  : M BallotStore loc :=
  bs <~ store_get ballots ;;
  store_new (without_cand removed_cand <$> bs).

(** The body of the loop of [fractional_transfer], on one ballot. *)
Definition scale_first (winner : string) (transfer_value : Qc)
    (ballot : Ballot) : Ballot :=
  if first_is winner ballot
  then mkBallot (ranking ballot) (weight ballot * transfer_value)%Qc
  else ballot.

(** [{cand: votes for cand, votes in fp_votes}] *)
Definition votes_map (fp_votes : list CandidateVotes) : gmap string Qc :=
  foldl (λ m cv, <[cand cv := votes cv]> m) ∅ fp_votes.

(** [fractional_transfer]: the weights are assigned on the ballots of the
    list it is given, before [remove_cand] copies them. *)
Definition fractional_transfer (winner : string) (ballots : loc)
    (votes : gmap string Qc) (threshold : Z) : M BallotStore loc :=
  v <~ match votes !! winner with
       | Some v => ret v
       | None => raise KeyError
       end ;;
  transfer_value <~ (if decide (v = Q2Qc 0) then raise ZeroDivisionError
                     else ret ((v - Qc_of_Z threshold) / v)%Qc) ;;
  bs <~ store_get ballots ;;
  store_set ballots (scale_first winner transfer_value <$> bs) ;;;
  remove_cand winner ballots.

(** ** Preference profiles *)

(** Modelled from the spec: class [PreferenceProfile] of
    [votekit/profile.py], which is not among the sources.  A profile is
    identified with the reference to its [ballots] list, which
    [get_ballots] hands out ("weight may be mutated in place by a transfer
    strategy"); [get_candidates] is the "set union of all ranked candidates
    across ballots", listed in the order of [elements]; [num_ballots] is the
    "sum of ballot weights"; constructing [PreferenceProfile(ballots=...)]
    builds a new container owned by the record that holds it. *)
Definition get_ballots (profile : loc) : loc := profile.

Definition get_candidates (ballots : list Ballot) : list string :=
  elements (⋃ (ballots ≫= ranking)).

Definition num_ballots (ballots : list Ballot) : Qc :=
  foldl (λ n ballot, (n + weight ballot)%Qc) (Q2Qc 0) ballots.

Definition PreferenceProfile (ballots : loc) : M BallotStore loc :=
  bs <~ store_get ballots ;;
  store_new bs.

(** ** Round records ([election_state.py]) *)

(** [winner_votes] is never set or read by the engine and is left out.  The
    [elected] and [eliminated] lists are copied into the record when it is
    built and nothing keeps a reference to them: they are values. *)
#[local] Unset Elimination Schemes.
Inductive ElectionState : Type := mkElectionState {
  curr_round : Z;
  elected : list string;
  eliminated : list string;
  remaining : loc;
  profile : loc;
  previous : option ElectionState
}.
#[local] Set Elimination Schemes.

Fixpoint get_all_winners (self : ElectionState) : list string :=
  match self with
  | mkElectionState _ el _ _ _ (Some prev) => get_all_winners prev ++ el
  | mkElectionState _ el _ _ _ None => el
  end.

Fixpoint get_all_eliminated (self : ElectionState) : list string :=
  match self with
  | mkElectionState _ _ elim _ _ (Some prev) =>
      reverse elim ++ get_all_eliminated prev
  | mkElectionState _ _ elim _ _ None => reverse elim
  end.

Definition get_rankings (self : ElectionState)
  : M (list (list string)) (list string) :=
  rem <~ store_get (remaining self) ;;
  ret (get_all_winners self ++ rem ++ get_all_eliminated self).

Record RoundOutcome : Type := mkRoundOutcome {
  outcome_elected : list string;
  outcome_eliminated : list string
}.

Fixpoint get_round_outcome (self : ElectionState) (roundNum : Z)
  : result RoundOutcome :=
  match self with
  | mkElectionState r el elim _ _ prev =>
      if decide (r = roundNum) then Ok (mkRoundOutcome el elim)
      else match prev with
           | Some p => get_round_outcome p roundNum
           | None => Raise ValueError
           end
  end.

(** ** The STV engine ([election_types.py]) *)

Record STV : Type := mkSTV {
  init_profile : loc;
  transfer : string → loc → gmap string Qc → Z → M BallotStore loc;
  seats : Z;
  election_state : ElectionState;
  threshold : Z
}.

(** [int(x)] on a [Fraction] truncates towards zero. *)
Definition py_int (x : Qc) : Z := Z.quot (Qnum x) (Z.pos (Qden x)).

Definition get_threshold (self : STV) : M Heap Z :=
  bs <~ on_ballots (store_get (profile (election_state self))) ;;
  if decide (seats self + 1 = 0) then raise ZeroDivisionError
  else ret (py_int (num_ballots bs / Qc_of_Z (seats self + 1) + 1)%Qc).

Definition STV_init (profile : loc)
    (transfer : string → loc → gmap string Qc → Z → M BallotStore loc)
    (seats : Z) : M Heap STV :=
  bs <~ on_ballots (store_get (get_ballots profile)) ;;
  remaining <~
    on_strs (store_new (cand <$> compute_votes (get_candidates bs) bs)) ;;
  let self :=
    mkSTV profile transfer seats
          (mkElectionState 0 [] [] remaining profile None)
          0 (* [threshold] is assigned last *) in
  t <~ get_threshold self ;;
  ret (mkSTV profile transfer seats (election_state self) t).

Definition next_round (self : STV) : bool :=
  bool_decide
    (Z.of_nat (length (get_all_winners (election_state self))) ≠ seats self).

(** The loop of the branch that elects everyone at or above the threshold. *)
Fixpoint elect_loop (self : STV) (remaining : loc)
    (fp_votes : list CandidateVotes) (todo : list CandidateVotes)
    (elected : list string) (ballots : loc) : M Heap (list string * loc) :=
  match todo with
  | [] => ret (elected, ballots)
  | cv :: todo' =>
      if decide (Qc_of_Z (threshold self) ≤ votes cv)%Qc then
        on_strs (py_remove remaining (cand cv)) ;;;
        ballots' <~ on_ballots (transfer self (cand cv) ballots
                                  (votes_map fp_votes) (threshold self)) ;;
        elect_loop self remaining fp_votes todo'
                   (elected ++ [cand cv]) ballots'
      else elect_loop self remaining fp_votes todo' elected ballots
  end.

(** [min] of a non-empty list. *)
Definition py_min (x : Qc) (l : list Qc) : Qc :=
  foldl (λ m y, if decide (y < m)%Qc then y else m) x l.

(** [random.choice(seq)] with the draw [pick]. *)
Definition random_choice (pick : nat) (seq : list string) : result string :=
  match seq !! (pick `mod` length seq)%nat with
  | Some x => Ok x
  | None => Raise IndexError
  end.

Definition lift {S A} (r : result A) : M S A :=
  λ s, match r with Ok a => Ok (a, s) | Raise e => Raise e end.

(** The three branches of [run_step], and the case where none applies.
    [rem] is what [remaining] holds when the round starts and [fp_votes]
    the tally of the start of the round.  The result is the round's
    [elected] and [eliminated] and the references left in the local
    variables [remaining] and [ballots]. *)
Definition round_branches (self : STV) (pick : nat) (remaining ballots : loc)
    (rem : list string) (fp_votes : list CandidateVotes)
  : M Heap (list string * list string * loc * loc) :=
  if decide (Z.of_nat (length rem) =
             seats self
             - Z.of_nat (length (get_all_winners (election_state self))))
  then
    remaining' <~ on_strs (store_new []) ;;
    ballots' <~ on_ballots (store_new []) ;;
    ret (cand <$> fp_votes, [], remaining', ballots')
  else
    match fp_votes with
    | [] => raise IndexError
    | top :: _ =>
        if decide (Qc_of_Z (threshold self) ≤ votes top)%Qc then
          r <~ elect_loop self remaining fp_votes fp_votes [] ballots ;;
          ret (r.1, [], remaining, r.2)
        else if next_round self then
          let lp_votes := py_min (votes top) (votes <$> fp_votes) in
          let lp_candidates :=
            cand <$> filter (λ cv, votes cv = lp_votes) fp_votes in
          lp_cand <~ lift (random_choice pick lp_candidates) ;;
          ballots' <~ on_ballots (remove_cand lp_cand ballots) ;;
          on_strs (py_remove remaining lp_cand) ;;;
          ret ([], [lp_cand], remaining, ballots')
        else ret ([], [], remaining, ballots)
    end.

(** The start of [run_step]: the local variables and the tally. *)
Definition round_action (self : STV) (pick : nat)
  : M Heap (list string * list string * loc * loc) :=
  let remaining := remaining (election_state self) in
  let ballots := get_ballots (profile (election_state self)) in
  rem <~ on_strs (store_get remaining) ;;
  bs <~ on_ballots (store_get ballots) ;;
  round_branches self pick remaining ballots rem (compute_votes rem bs).

(** The end of [run_step]: the new record is built from copies of the
    lists it is given and becomes the engine's current record. *)
Definition next_record (self : STV) (elected eliminated : list string)
    (remaining ballots : loc) : M Heap STV :=
  rem <~ on_strs (store_get remaining) ;;
  remaining' <~ on_strs (store_new rem) ;;
  profile' <~ on_ballots (PreferenceProfile ballots) ;;
  ret (mkSTV (init_profile self) (transfer self) (seats self)
             (mkElectionState (curr_round (election_state self) + 1)
                              elected eliminated remaining' profile'
                              (Some (election_state self)))
             (threshold self)).

Definition run_step (self : STV) (pick : nat) : M Heap STV :=
  a <~ round_action self pick ;;
  let '(elected, eliminated, remaining, ballots) := a in
  next_record self elected eliminated remaining ballots.

(** [run_election]; [picks k] is the draw of the [k]-th round of the loop.
    [None] is returned only when the fuel runs out. *)
Fixpoint election_loop (fuel : nat) (picks : nat → nat) (k : nat)
    (self : STV) : M Heap (option STV) :=
  if next_round self then
    match fuel with
    | O => ret None
    | S fuel' =>
        self' <~ run_step self (picks k) ;;
        election_loop fuel' picks (S k) self'
    end
  else ret (Some self).

Definition run_election (fuel : nat) (picks : nat → nat) (self : STV)
  : M Heap (option ElectionState) :=
  if next_round self then
    r <~ election_loop fuel picks 0%nat self ;;
    ret (election_state <$> r)
  else raise ValueError.

(** ** Vocabulary of the statements *)

(** The ballot's ranking is non-empty and its first tie group is exactly
    the singleton of [c]. *)
Definition names_first (c : string) (b : Ballot) : Prop :=
  ∃ rest, ranking b = {[ c ]} :: rest.

#[global] Instance names_first_dec c b : Decision (names_first c b).
Proof.
  unfold names_first. destruct (ranking b) as [|g rest].
  - right. intros [? ?]. discriminate.
  - destruct (decide (g = {[ c ]})) as [->|Hne].
    + left. by exists rest.
    + right. intros [? [= ? ?]]. done.
Defined.

(** What one ballot adds to the tally of [c]. *)
Definition credit (c : string) (b : Ballot) : Qc :=
  if decide (names_first c b) then weight b else Q2Qc 0.

Definition Qc_sum (l : list Qc) : Qc := foldr Qcplus (Q2Qc 0) l.

(** The records reached through [previous], the record itself first. *)
Fixpoint chain (s : ElectionState) : list ElectionState :=
  match s with
  | mkElectionState _ _ _ _ _ (Some prev) => s :: chain prev
  | mkElectionState _ _ _ _ _ None => [s]
  end.

(** The engine states reached by successive calls of [run_step] that
    return, whatever the draws. *)
Inductive rounds : STV * Heap → STV * Heap → Prop :=
  | rounds_refl x : rounds x x
  | rounds_step e h pick e1 h1 x :
      run_step e pick h = Ok (e1, h1) → rounds (e1, h1) x → rounds (e, h) x.

(** ** Example data *)

(** The profile of the tests: [A>B>C x 250, B>A>C x 200, C>B>A x 100]. *)
Definition test_ballots : list Ballot :=
  [ mkBallot [{[ "A" ]}; {[ "B" ]}; {[ "C" ]}] (Qc_of_Z 250);
    mkBallot [{[ "B" ]}; {[ "A" ]}; {[ "C" ]}] (Qc_of_Z 200);
    mkBallot [{[ "C" ]}; {[ "B" ]}; {[ "A" ]}] (Qc_of_Z 100) ].

(** A store holding only that profile, at location 0. *)
Definition test_heap : Heap := mkHeap [] [test_ballots].

(** The entries of a tally at or above the threshold, in the tally's
    order. *)
Definition at_quota (threshold : Z) (fp_votes : list CandidateVotes)
  : list CandidateVotes :=
  filter (λ cv, (Qc_of_Z threshold ≤ votes cv)%Qc) fp_votes.

(** Electing the winners of a round one after the other, in the words of
    the spec: each winner is removed from [remaining] and the transfer
    strategy is applied to the ballots left by the winner before, every
    time with the tally [fp_votes] of the start of the round. *)
Fixpoint elect_each (self : STV) (remaining : loc)
    (fp_votes : list CandidateVotes) (winners : list string) (ballots : loc)
  : M Heap loc :=
  match winners with
  | [] => ret ballots
  | w :: winners' =>
      on_strs (py_remove remaining w) ;;;
      ballots' <~ on_ballots (transfer self w ballots (votes_map fp_votes)
                                (threshold self)) ;;
      elect_each self remaining fp_votes winners' ballots'
  end.

(** The ballots returned by [fractional_transfer] for a winner whose entry
    in [votes] is [v]. *)
Definition transferred (threshold : Z) (bs : list Ballot)
    (cv : CandidateVotes) : list Ballot :=
  without_cand (cand cv)
    <$> (scale_first (cand cv)
           ((votes cv - Qc_of_Z threshold) / votes cv)%Qc <$> bs).

(** The sum of the weights of a list of ballots. *)
Definition total_weight (bs : list Ballot) : Qc := Qc_sum (weight <$> bs).

(** The engine built on [test_heap] with fractional transfer, and the store
    it is built in: round 0 holds [remaining = [A; B; C]]. *)
Definition test_engine (seats threshold : Z) : STV :=
  mkSTV 0%nat fractional_transfer seats
        (mkElectionState 0 [] [] 0%nat 0%nat None) threshold.

Definition test_heap_0 : Heap := mkHeap [["A"; "B"; "C"]] [test_ballots].

(** The candidates of a record are the candidates [cands]: its winners, its
    [remaining] list and its eliminated candidates together list each of
    them once. *)
Definition complete_record (cands : list string) (x : STV * Heap) : Prop :=
  ∃ rem, str_lists x.2 !! remaining (election_state x.1) = Some rem ∧
         get_all_winners (election_state x.1) ++ rem
           ++ get_all_eliminated (election_state x.1) ≡ₚ cands.

(** The state after one more round with the draw [pick] (the state itself
    when the round raises). *)
Definition after_round (pick : nat) (x : STV * Heap) : STV * Heap :=
  match run_step x.1 pick x.2 with
  | Ok y => y
  | Raise _ => x
  end.

(** The state of an election whose seats are not all filled, for ballots
    of total weight [T] at the start and [n] candidates: the ballots kept
    non-negative weights, each winner took at least one threshold out of
    them, enough candidates are left for the seats, and every round so far
    removed a candidate. *)
Definition contest_open (T : Qc) (n : nat) (x : STV * Heap) : Prop :=
  ∃ rem bs,
    str_lists x.2 !! remaining (election_state x.1) = Some rem ∧
    ballot_lists x.2 !! profile (election_state x.1) = Some bs ∧
    NoDup rem ∧
    Forall (λ b, (Q2Qc 0 ≤ weight b)%Qc) bs ∧
    (total_weight bs
     + Qc_of_Z (Z.of_nat (length (get_all_winners (election_state x.1))))
       * Qc_of_Z (threshold x.1) ≤ T)%Qc ∧
    seats x.1 ≤ Z.of_nat (length (get_all_winners (election_state x.1)))
                + Z.of_nat (length rem) ∧
    curr_round (election_state x.1) + Z.of_nat (length rem) ≤ Z.of_nat n.

(** The invariant of an election run with fractional transfer. *)
Definition election_inv (T : Qc) (n : nat) (x : STV * Heap) : Prop :=
  transfer x.1 = fractional_transfer ∧
  0 < threshold x.1 ∧
  (T < Qc_of_Z (seats x.1 + 1) * Qc_of_Z (threshold x.1))%Qc ∧
  curr_round (election_state x.1) ≤ Z.of_nat n ∧
  Z.of_nat (length (get_all_winners (election_state x.1))) ≤ seats x.1 ∧
  (Z.of_nat (length (get_all_winners (election_state x.1))) < seats x.1 →
   contest_open T n x).

(** ** [ElectionState.changed_rankings] *)

(** [d[k] = v] and [d[k]] on an insertion-ordered dict with values of any
    type. *)
Fixpoint odict_set {V} (k : string) (v : V) (d : list (string * V))
  : list (string * V) :=
  match d with
  | [] => [(k, v)]
  | (k', v') :: d' => if decide (k = k') then (k, v) :: d'
                      else (k', v') :: odict_set k v d'
  end.

Fixpoint odict_get {V} (k : string) (d : list (string * V)) : option V :=
  match d with
  | [] => None
  | (k', v') :: d' => if decide (k = k') then Some v' else odict_get k d'
  end.

(** [enumerate(l)], counting from [start]. *)
Fixpoint enumerate (start : nat) (l : list string) : list (nat * string) :=
  match l with
  | [] => []
  | x :: l' => (start, x) :: enumerate (S start) l'
  end.

(** [{cand: index for index, cand in enumerate(ranking)}] *)
Definition ranking_dict (ranking : list string) : list (string * nat) :=
  foldl (λ d ic, odict_set ic.2 ic.1 d) [] (enumerate 0 ranking).

(** [d1 == d2] on dicts: the same keys with the same values, in any
    order. *)
Definition dict_eqb (d1 d2 : list (string * nat)) : bool :=
  bool_decide (list_to_map d1 =@{gmap string nat} list_to_map d2).

(** The loop of [changed_rankings] over [curr_ranking.items()]. *)
Fixpoint changes_loop (prev_ranking items : list (string * nat))
    (changes : list (string * (nat * nat)))
  : result (list (string * (nat * nat))) :=
  match items with
  | [] => Ok changes
  | (candidate, index) :: items' =>
      match odict_get candidate prev_ranking with
      | None => Raise KeyError
      | Some i =>
          if decide (i ≠ index)
          then changes_loop prev_ranking items'
                 (odict_set candidate (i, index) changes)
          else changes_loop prev_ranking items' changes
      end
  end.

Definition changed_rankings (self : ElectionState)
  : M (list (list string)) (list (string * (nat * nat))) :=
  match previous self with
  | None => raise ValueError
  | Some prev =>
      pr <~ get_rankings prev ;;
      let prev_ranking := ranking_dict pr in
      cr <~ get_rankings self ;;
      let curr_ranking := ranking_dict cr in
      if dict_eqb curr_ranking prev_ranking then ret []
      else lift (changes_loop prev_ranking curr_ranking [])
  end.

(** [STV.get_init_profile] *)
Definition get_init_profile (self : STV) : loc := init_profile self.

(** The round numbers of a chain count down to 0 at its first record. *)
Fixpoint well_numbered (s : ElectionState) : Prop :=
  match s with
  | mkElectionState r _ _ _ _ (Some prev) =>
      r = curr_round prev + 1 ∧ well_numbered prev
  | mkElectionState r _ _ _ _ None => r = 0
  end.

(** The engine states reached while [run_election] is looping: a round is
    run only when [next_round()] holds. *)
Inductive contest_rounds : STV * Heap → STV * Heap → Prop :=
  | contest_rounds_refl x : contest_rounds x x
  | contest_rounds_step e h pick e1 h1 x :
      next_round e = true → run_step e pick h = Ok (e1, h1) →
      contest_rounds (e1, h1) x → contest_rounds (e, h) x.

(** The records of the tests of [election_state.py], with the lists of
    [remaining] in a store: [round_0] holds [A; B; C] and [round_1], which
    eliminated [C], holds [B; A]. *)
Definition record_0 : ElectionState :=
  mkElectionState 0 [] [] 0%nat 0%nat None.
Definition record_1 : ElectionState :=
  mkElectionState 1 [] ["C"] 1%nat 1%nat (Some record_0).
Definition record_strs : list (list string) := [["A"; "B"; "C"]; ["B"; "A"]].

(** The state of an election with more seats than candidates, run with
    fractional transfer: the winners and the remaining candidates together
    are fewer than the seats. *)
Definition oversubscribed (x : STV * Heap) (rem : list string) : Prop :=
  transfer x.1 = fractional_transfer ∧
  0 < threshold x.1 ∧
  str_lists x.2 !! remaining (election_state x.1) = Some rem ∧
  NoDup rem ∧
  (∃ bs, ballot_lists x.2 !! profile (election_state x.1) = Some bs ∧
         Forall (λ b, (Q2Qc 0 ≤ weight b)%Qc) bs) ∧
  Z.of_nat (length (get_all_winners (election_state x.1)))
  + Z.of_nat (length rem) < seats x.1.

(** * Proofs *)

(** ** The monad *)

Lemma bind_Ok {S A B} (m : M S A) (k : A → M S B) s b s' :
  bind m k s = Ok (b, s') ↔ ∃ a s1, m s = Ok (a, s1) ∧ k a s1 = Ok (b, s').
Proof.
  unfold bind. split.
  - destruct (m s) as [[a s1]|e]; [|done]. intros. by exists a, s1.
  - intros (a & s1 & -> & ?). done.
Qed.

Lemma bind_step {S A B} (m : M S A) (k : A → M S B) s a s1 :
  m s = Ok (a, s1) → bind m k s = k a s1.
Proof. unfold bind. by intros ->. Qed.

Lemma bind_assoc {S A B C} (m : M S A) (k1 : A → M S B) (k2 : B → M S C) s :
  bind (bind m k1) k2 s = bind m (λ a, bind (k1 a) k2) s.
Proof. unfold bind. by destruct (m s) as [[a s1]|e]. Qed.

Lemma bind_ext {S A B} (m : M S A) (k1 k2 : A → M S B) s :
  (∀ a s1, m s = Ok (a, s1) → k1 a s1 = k2 a s1) →
  bind m k1 s = bind m k2 s.
Proof. unfold bind. destruct (m s) as [[a s1]|e]; [|done]. by intros ->. Qed.

Lemma on_ballots_Ok {A} (m : M BallotStore A) h a h' :
  on_ballots m h = Ok (a, h') ↔
  ∃ bl, m (ballot_lists h) = Ok (a, bl) ∧ h' = mkHeap (str_lists h) bl.
Proof.
  unfold on_ballots. split.
  - destruct (m _) as [[a' bl]|e]; [|done]. intros [= -> <-]. by exists bl.
  - intros (bl & -> & ->). done.
Qed.

Lemma on_strs_Ok {A} (m : M (list (list string)) A) h a h' :
  on_strs m h = Ok (a, h') ↔
  ∃ sl, m (str_lists h) = Ok (a, sl) ∧ h' = mkHeap sl (ballot_lists h).
Proof.
  unfold on_strs. split.
  - destruct (m _) as [[a' sl]|e]; [|done]. intros [= -> <-]. by exists sl.
  - intros (sl & -> & ->). done.
Qed.

Lemma store_get_Ok {A} r (st : list A) v st' :
  store_get r st = Ok (v, st') ↔ st !! r = Some v ∧ st' = st.
Proof.
  unfold store_get. destruct (st !! r); split; try done.
  - by intros [= -> <-].
  - by intros [[= ->] ->].
  - by intros [? _].
Qed.

Lemma store_get_step {A} r (st : list A) v :
  st !! r = Some v → store_get r st = Ok (v, st).
Proof. intros. by apply store_get_Ok. Qed.

Lemma store_set_step {A} r (st : list A) v w :
  st !! r = Some w → store_set r v st = Ok ((), <[r := v]> st).
Proof. unfold store_set. by intros ->. Qed.

(** ** Round records *)

Lemma ElectionState_chain_ind (P : ElectionState → Prop) :
  (∀ r el elim rem prof, P (mkElectionState r el elim rem prof None)) →
  (∀ r el elim rem prof p,
     P p → P (mkElectionState r el elim rem prof (Some p))) →
  ∀ s, P s.
Proof.
  intros Hroot Hlink. fix IH 1. intros [r el elim rem prof [p|]].
  - apply Hlink, IH.
  - apply Hroot.
Qed.

(** C8. [get_round_outcome n] walks the [previous] links: it returns the
    [elected] and [eliminated] lists of the first record of the chain whose
    round number is [n], and raises [ValueError] ("Round number out of
    range") exactly when no record of the chain has that number. *)
Theorem get_round_outcome_walks_chain (s : ElectionState) (n : Z) :
  match list_find (λ r, curr_round r = n) (chain s) with
  | Some (_, r) =>
      get_round_outcome s n = Ok (mkRoundOutcome (elected r) (eliminated r))
  | None => get_round_outcome s n = Raise ValueError
  end.
Proof.
  induction s as [r el elim rem prof | r el elim rem prof p IH]
    using ElectionState_chain_ind; cbn [chain get_round_outcome list_find];
    cbn [curr_round]; destruct (decide (r = n)) as [->|Hne]; try done.
  cbn [fmap option_fmap option_map].
  destruct (list_find _ (chain p)) as [[i r']|]; cbn; done.
Qed.

Lemma get_round_outcome_raises (s : ElectionState) (n : Z) :
  get_round_outcome s n = Raise ValueError ↔
  ∀ r, r ∈ chain s → curr_round r ≠ n.
Proof.
  induction s as [r el elim rem prof | r el elim rem prof p IH]
    using ElectionState_chain_ind; cbn [chain get_round_outcome];
    destruct (decide (r = n)) as [->|Hne].
  - split; [done|]. intros H. destruct (H _ (list_elem_of_here _ _)). done.
  - split; [|done]. intros _ r' ->%list_elem_of_singleton. done.
  - split; [done|]. intros H. destruct (H _ (list_elem_of_here _ _)). done.
  - rewrite IH. split.
    + intros H r' [->|Hin]%elem_of_cons; [done|by apply H].
    + intros H r' Hin. apply H. by apply list_elem_of_further.
Qed.

(** ** Tallies *)

Lemma first_is_names_first c b : first_is c b = bool_decide (names_first c b).
Proof.
  unfold first_is. destruct (decide (names_first c b)) as [[rest Hr]|Hn].
  - rewrite bool_decide_eq_true_2 by by exists rest.
    rewrite Hr. by apply bool_decide_eq_true_2.
  - rewrite (bool_decide_eq_false_2 _ Hn).
    destruct (ranking b) as [|g rest] eqn:Hr; [done|].
    apply bool_decide_eq_false_2. intros ->. apply Hn. by exists rest.
Qed.

Lemma first_place_weight_acc c bs (acc : Qc) :
  foldl (λ w ballot, if first_is c ballot then (w + weight ballot)%Qc else w)
        acc bs = (acc + Qc_sum (credit c <$> bs))%Qc.
Proof.
  revert acc. induction bs as [|b bs IH]; intros acc; cbn.
  - ring.
  - rewrite IH, first_is_names_first. unfold credit.
    destruct (decide (names_first c b)).
    + rewrite bool_decide_eq_true_2 by done. unfold Qc_sum. ring.
    + rewrite bool_decide_eq_false_2 by done. unfold Qc_sum. ring.
Qed.

Lemma first_place_weight_sum c bs :
  first_place_weight c bs = Qc_sum (credit c <$> bs).
Proof. unfold first_place_weight. rewrite first_place_weight_acc. ring. Qed.

Lemma dict_set_keys k v d :
  (dict_set k v d).*1 = if decide (k ∈ d.*1) then d.*1 else d.*1 ++ [k].
Proof.
  induction d as [|[k' v'] d IH]; cbn; [done|].
  destruct (decide (k = k')) as [->|Hne]; cbn.
  - rewrite decide_True by apply list_elem_of_here. done.
  - rewrite IH. destruct (decide (k ∈ d.*1)) as [Hin|Hin].
    + rewrite decide_True by by apply list_elem_of_further. done.
    + rewrite decide_False; [done|].
      intros [?|?]%elem_of_cons; done.
Qed.

Lemma dict_set_Forall (P : string * Qc → Prop) k v d :
  P (k, v) → Forall P d → Forall P (dict_set k v d).
Proof.
  intros Hk. induction 1 as [|[k' v'] d Hx Hd IH]; cbn.
  - by constructor.
  - destruct (decide (k = k')); constructor; done.
Qed.

Section votes_dict.
Context (bs : list Ballot).

Let step := λ (d : list (string * Qc)) candidate,
  dict_set candidate (first_place_weight candidate bs) d.

Lemma votes_dict_values cands d :
  Forall (λ kv, kv.2 = first_place_weight kv.1 bs) d →
  Forall (λ kv, kv.2 = first_place_weight kv.1 bs) (foldl step d cands).
Proof.
  revert d. induction cands as [|c cands IH]; intros d Hd; cbn; [done|].
  apply IH. by apply dict_set_Forall.
Qed.

Lemma votes_dict_NoDup cands d :
  NoDup d.*1 → NoDup (foldl step d cands).*1.
Proof.
  revert d. induction cands as [|c cands IH]; intros d Hd; cbn; [done|].
  apply IH. unfold step. rewrite dict_set_keys.
  destruct (decide (c ∈ d.*1)); [done|].
  apply NoDup_app. split_and!; [done| |apply NoDup_singleton].
  intros x Hx ->%list_elem_of_singleton. done.
Qed.

Lemma votes_dict_elem cands d c :
  c ∈ (foldl step d cands).*1 ↔ c ∈ d.*1 ∨ c ∈ cands.
Proof.
  revert d. induction cands as [|c' cands IH]; intros d; cbn.
  - rewrite elem_of_nil. tauto.
  - rewrite IH. unfold step. rewrite dict_set_keys, elem_of_cons.
    destruct (decide (c' ∈ d.*1)).
    + split; [tauto|]. intros [?|[->|?]]; tauto.
    + rewrite elem_of_app, list_elem_of_singleton. tauto.
Qed.

Lemma votes_dict_keys_NoDup cands d :
  NoDup (d.*1 ++ cands) → (foldl step d cands).*1 = d.*1 ++ cands.
Proof.
  revert d. induction cands as [|c cands IH]; intros d Hnd; cbn.
  - by rewrite app_nil_r.
  - assert (c ∉ d.*1) as Hc.
    { apply NoDup_app in Hnd as (_ & Hdis & _). intros Hin.
      apply (Hdis c Hin). apply list_elem_of_here. }
    assert ((step d c).*1 = d.*1 ++ [c]) as Hk.
    { unfold step. rewrite dict_set_keys. by rewrite decide_False. }
    rewrite IH; rewrite Hk, <- app_assoc; done.
Qed.
End votes_dict.

Lemma insert_desc_Permutation x l : insert_desc x l ≡ₚ x :: l.
Proof.
  induction l as [|y l IH]; cbn; [done|].
  destruct (decide _); [|done]. rewrite IH. apply Permutation_swap.
Qed.

Lemma sorted_desc_Permutation l : sorted_desc l ≡ₚ l.
Proof.
  induction l as [|x l IH]; cbn; [done|].
  rewrite insert_desc_Permutation. by rewrite IH.
Qed.

Lemma insert_desc_Sorted x l :
  StronglySorted (λ a b, (b.2 ≤ a.2)%Qc) l →
  StronglySorted (λ a b, (b.2 ≤ a.2)%Qc) (insert_desc x l).
Proof.
  induction 1 as [|y l Hl IH Hy]; cbn.
  - repeat constructor.
  - destruct (decide (x.2 < y.2)%Qc) as [Hlt|Hge].
    + constructor; [done|].
      rewrite insert_desc_Permutation. constructor; [|done].
      by apply Qclt_le_weak.
    + apply Qcnot_lt_le in Hge.
      constructor; [by constructor|]. constructor; [done|].
      eapply Forall_impl; [exact Hy|]. intros z Hz. cbn in Hz.
      by eapply Qcle_trans.
Qed.

Lemma sorted_desc_Sorted l :
  StronglySorted (λ a b, (b.2 ≤ a.2)%Qc) (sorted_desc l).
Proof.
  induction l as [|x l IH]; cbn; [constructor|]. by apply insert_desc_Sorted.
Qed.

Lemma compute_votes_cands candidates ballots :
  cand <$> compute_votes candidates ballots
  ≡ₚ (votes_dict candidates ballots).*1.
Proof.
  unfold compute_votes. rewrite <- list_fmap_compose.
  rewrite <- (sorted_desc_Permutation (votes_dict candidates ballots)) at 2.
  done.
Qed.

Lemma compute_votes_NoDup candidates ballots :
  NoDup (cand <$> compute_votes candidates ballots).
Proof.
  rewrite compute_votes_cands. apply votes_dict_NoDup. constructor.
Qed.

Lemma compute_votes_elem candidates ballots c :
  c ∈ cand <$> compute_votes candidates ballots ↔ c ∈ candidates.
Proof.
  rewrite compute_votes_cands. unfold votes_dict.
  rewrite votes_dict_elem. cbn. rewrite elem_of_nil. tauto.
Qed.

Lemma compute_votes_Permutation candidates ballots :
  NoDup candidates → cand <$> compute_votes candidates ballots ≡ₚ candidates.
Proof.
  intros Hnd. rewrite compute_votes_cands. unfold votes_dict.
  by rewrite votes_dict_keys_NoDup.
Qed.

Lemma compute_votes_values candidates ballots :
  Forall (λ cv, votes cv = first_place_weight (cand cv) ballots)
         (compute_votes candidates ballots).
Proof.
  unfold compute_votes. apply Forall_fmap.
  rewrite sorted_desc_Permutation. cbn.
  apply (votes_dict_values ballots candidates []). constructor.
Qed.

Lemma compute_votes_Sorted candidates ballots :
  StronglySorted (λ a b, (votes b ≤ votes a)%Qc)
                 (compute_votes candidates ballots).
Proof.
  unfold compute_votes.
  pose proof (sorted_desc_Sorted (votes_dict candidates ballots)) as H.
  induction H as [|x l Hl IH Hx]; cbn; constructor; [done|].
  apply Forall_fmap. done.
Qed.

Lemma credit_tie c b g rest :
  ranking b = g :: rest → (2 ≤ size g)%nat → credit c b = Q2Qc 0.
Proof.
  intros Hr Hg. unfold credit. rewrite decide_False; [done|].
  intros [rest' Hr']. rewrite Hr in Hr'. injection Hr' as -> _.
  rewrite size_singleton in Hg. lia.
Qed.

(** C10. [compute_votes] returns one entry for each candidate it is given,
    and the entry of [c] is the sum over the ballots of the weight of those
    whose ranking is non-empty with first tie group exactly [{c}], and of
    zero for the others.  A ballot whose first tie group has two or more
    members is credited to nobody: the result is the same without it. *)
Theorem compute_votes_credits_singleton_first
    (candidates : list string) (ballots : list Ballot) :
  (∀ c, c ∈ cand <$> compute_votes candidates ballots ↔ c ∈ candidates) ∧
  NoDup (cand <$> compute_votes candidates ballots) ∧
  (∀ cv, cv ∈ compute_votes candidates ballots →
     votes cv
     = Qc_sum ((λ b, if decide (names_first (cand cv) b)
                     then weight b else Q2Qc 0) <$> ballots)) ∧
  (∀ b g rest bs1 bs2,
     ballots = bs1 ++ b :: bs2 → ranking b = g :: rest → (2 ≤ size g)%nat →
     (∀ c, ¬ names_first c b) ∧
     compute_votes candidates ballots = compute_votes candidates (bs1 ++ bs2)).
Proof.
  split_and!.
  - intros c. apply compute_votes_elem.
  - apply compute_votes_NoDup.
  - intros cv Hcv.
    pose proof (compute_votes_values candidates ballots) as Hv.
    rewrite Forall_forall in Hv. rewrite (Hv cv Hcv).
    apply first_place_weight_sum.
  - intros b g rest bs1 bs2 -> Hr Hg.
    assert (∀ c, ¬ names_first c b) as Hno.
    { intros c [rest' Hr']. rewrite Hr in Hr'. injection Hr' as -> _.
      rewrite size_singleton in Hg. lia. }
    split; [done|].
    unfold compute_votes, votes_dict. do 2 f_equal.
    assert (∀ c, first_place_weight c (bs1 ++ b :: bs2)
                 = first_place_weight c (bs1 ++ bs2)) as Heq.
    { intros c. rewrite !first_place_weight_sum, !fmap_app, fmap_cons.
      unfold credit at 2. rewrite decide_False by apply Hno.
      unfold Qc_sum. rewrite !foldr_app. cbn. f_equal. ring. }
    generalize (@nil (string * Qc)).
    induction candidates as [|c cs IH]; intros d; cbn; [done|].
    rewrite Heq. apply IH.
Qed.

(** ** [remove_cand] *)

Lemma remove_cand_step removed_cand ballots (st : BallotStore) bs :
  st !! ballots = Some bs →
  remove_cand removed_cand ballots st
  = Ok (length st, st ++ [without_cand removed_cand <$> bs]).
Proof.
  intros Hbs. unfold remove_cand.
  rewrite (bind_step _ _ _ _ _ (store_get_step _ _ _ Hbs)). done.
Qed.

Lemma without_cand_no_singleton c b : {[ c ]} ∉ ranking (without_cand c b).
Proof. cbn. rewrite list_elem_of_filter. intros [? _]. done. Qed.

Lemma without_cand_other c b g :
  g ≠ {[ c ]} → g ∈ ranking (without_cand c b) ↔ g ∈ ranking b.
Proof. intros Hg. cbn. rewrite list_elem_of_filter. tauto. Qed.

(** C6 fails on the code.  On the single ballot [{A, B} > C] of weight 1,
    [remove_cand "A"] returns a ballot with the ranking it was given: the
    comprehension keeps every tie group that differs from [{A}], so [A] is
    still in the first tie group of the returned ballot and the first
    preference does not advance to the next tie group.  On [A > C], where
    [A] is ranked alone, the returned ballot is [C]. *)
Theorem remove_cand_leaves_tied_candidate :
  remove_cand "A" 0%nat [[mkBallot [{[ "A"; "B" ]}; {[ "C" ]}] (Qc_of_Z 1)]]
  = Ok (1%nat, [[mkBallot [{[ "A"; "B" ]}; {[ "C" ]}] (Qc_of_Z 1)];
                [mkBallot [{[ "A"; "B" ]}; {[ "C" ]}] (Qc_of_Z 1)]]) ∧
  "A" ∈ ({[ "A"; "B" ]} : gset string) ∧
  remove_cand "A" 0%nat [[mkBallot [{[ "A" ]}; {[ "C" ]}] (Qc_of_Z 1)]]
  = Ok (1%nat, [[mkBallot [{[ "A" ]}; {[ "C" ]}] (Qc_of_Z 1)];
                [mkBallot [{[ "C" ]}] (Qc_of_Z 1)]]).
Proof. split_and!; [reflexivity|set_solver|reflexivity]. Qed.

(** What [remove_cand c] does: it returns a new list with one ballot for
    each ballot it was given, in the same order and with the same weight,
    whose ranking is the given ranking without the tie groups equal to
    [{c}]: no tie group of the result is [{c}], the other tie groups are
    kept with their members and their order, and [c] is in no tie group of
    a ballot whose tie groups naming [c] were all singletons.  The list it
    was given is unchanged. *)
Theorem remove_cand_drops_singleton_groups
    (c : string) (p : loc) (st : BallotStore) (bs : list Ballot) :
  st !! p = Some bs →
  ∃ bs', remove_cand c p st = Ok (length st, st ++ [bs']) ∧
    (st ++ [bs']) !! p = Some bs ∧
    length bs' = length bs ∧
    ∀ i b, bs !! i = Some b →
      ∃ b', bs' !! i = Some b' ∧
        weight b' = weight b ∧
        ranking b' = filter (λ g, g ≠ {[ c ]}) (ranking b) ∧
        ({[ c ]} ∉ ranking b') ∧
        (∀ g, g ≠ {[ c ]} → g ∈ ranking b' ↔ g ∈ ranking b) ∧
        ((∀ g, g ∈ ranking b → c ∈ g → g = {[ c ]}) →
         ∀ g, g ∈ ranking b' → c ∉ g).
Proof.
  intros Hbs. exists (without_cand c <$> bs). split_and!.
  - by apply remove_cand_step.
  - rewrite lookup_app_l; [done|]. by eapply lookup_lt_Some.
  - by rewrite length_fmap.
  - intros i b Hb. exists (without_cand c b). split_and!.
    + by rewrite list_lookup_fmap, Hb.
    + done.
    + done.
    + apply without_cand_no_singleton.
    + intros g Hg. by apply without_cand_other.
    + intros Hsingle g Hg Hc.
      destruct (decide (g = {[ c ]})) as [->|Hne].
      * by apply without_cand_no_singleton in Hg.
      * apply without_cand_other in Hg; [|done]. by apply Hne, Hsingle.
Qed.

Lemma remove_cand_drops_singleton_groups_witness :
  ∃ bs', remove_cand "C" 0%nat
           [[mkBallot [{[ "C" ]}; {[ "A"; "B" ]}] (Qc_of_Z 2)]]
         = Ok (1%nat, [[mkBallot [{[ "C" ]}; {[ "A"; "B" ]}] (Qc_of_Z 2)];
                       bs']) ∧
        length bs' = 1%nat.
Proof.
  destruct (remove_cand_drops_singleton_groups "C" 0%nat
              [[mkBallot [{[ "C" ]}; {[ "A"; "B" ]}] (Qc_of_Z 2)]]
              [mkBallot [{[ "C" ]}; {[ "A"; "B" ]}] (Qc_of_Z 2)] eq_refl)
    as (bs' & Hrun & _ & Hlen & _).
  exists bs'. split; [exact Hrun | exact Hlen].
Defined.

(** ** [fractional_transfer] *)

Lemma fractional_transfer_step winner ballots votes threshold
    (st : BallotStore) bs v :
  votes !! winner = Some v → v ≠ Q2Qc 0 → st !! ballots = Some bs →
  let scaled :=
    scale_first winner ((v - Qc_of_Z threshold) / v)%Qc <$> bs in
  fractional_transfer winner ballots votes threshold st
  = Ok (length st, <[ballots := scaled]> st ++ [without_cand winner <$> scaled]).
Proof.
  intros Hv Hv0 Hbs scaled. unfold fractional_transfer.
  rewrite Hv. unfold bind at 1. unfold ret at 1.
  rewrite decide_False by done. unfold bind at 1. unfold ret at 1.
  rewrite (bind_step _ _ _ _ _ (store_get_step _ _ _ Hbs)).
  rewrite (bind_step _ _ _ _ _ (store_set_step _ _ _ _ Hbs)).
  rewrite (remove_cand_step _ _ _ scaled).
  - by rewrite length_insert.
  - apply list_lookup_insert_eq. by eapply lookup_lt_Some.
Qed.

Lemma names_first_scale_first c w tv b :
  names_first c (scale_first w tv b) ↔ names_first c b.
Proof. unfold scale_first, names_first. by destruct (first_is w b). Qed.

Lemma weight_scale_first w tv b :
  weight (scale_first w tv b)
  = if decide (names_first w b) then (weight b * tv)%Qc else weight b.
Proof.
  unfold scale_first. rewrite first_is_names_first.
  destruct (decide (names_first w b)).
  - by rewrite bool_decide_eq_true_2.
  - by rewrite bool_decide_eq_false_2.
Qed.

Lemma credit_scale_first_same w tv b :
  credit w (scale_first w tv b) = (credit w b * tv)%Qc.
Proof.
  unfold credit. rewrite weight_scale_first.
  destruct (decide (names_first w b)) as [Hn|Hn].
  - rewrite decide_True by by apply names_first_scale_first. done.
  - rewrite decide_False by by rewrite names_first_scale_first. ring.
Qed.

Lemma Qc_sum_scale (f : Ballot → Qc) (tv : Qc) bs :
  Qc_sum ((λ b, f b * tv)%Qc <$> bs) = (Qc_sum (f <$> bs) * tv)%Qc.
Proof.
  unfold Qc_sum. induction bs as [|b bs IH]; cbn; [ring|].
  rewrite IH. ring.
Qed.

Lemma first_place_weight_scaled w tv bs :
  first_place_weight w (scale_first w tv <$> bs)
  = (first_place_weight w bs * tv)%Qc.
Proof.
  rewrite !first_place_weight_sum, <- list_fmap_compose.
  rewrite <- Qc_sum_scale. f_equal. apply list_fmap_ext.
  intros i b _. cbn. apply credit_scale_first_same.
Qed.

Lemma surplus_ratio_mult (v t : Qc) : v ≠ Q2Qc 0 → (v * ((v - t) / v) = v - t)%Qc.
Proof. intros. by field. Qed.

(** C4. When [votes[winner]] is the winner's tally in the ballots given to
    [fractional_transfer] and is not zero, the transfer multiplies by
    [(votes[winner] - threshold) / votes[winner]] the weight of exactly the
    ballots whose first tie group is [{winner}], both on the ballots it was
    given and on the ballots it returns, and leaves the other weights as
    they were; the weights of the scaled ballots then add up to
    [votes[winner] - threshold] exactly. *)
Theorem fractional_transfer_conserves_surplus
    (winner : string) (p : loc) (votes : gmap string Qc) (threshold : Z)
    (st : BallotStore) (bs : list Ballot) (v : Qc) :
  st !! p = Some bs →
  votes !! winner = Some v →
  v = first_place_weight winner bs →
  v ≠ Q2Qc 0 →
  ∃ st' bs_in bs_out,
    fractional_transfer winner p votes threshold st = Ok (length st, st') ∧
    st' !! p = Some bs_in ∧ st' !! length st = Some bs_out ∧
    (∀ i b, bs !! i = Some b →
       ∃ b_in b_out, bs_in !! i = Some b_in ∧ bs_out !! i = Some b_out ∧
         ranking b_in = ranking b ∧
         weight b_in = weight b_out ∧
         weight b_out
         = if decide (names_first winner b)
           then (weight b * ((v - Qc_of_Z threshold) / v))%Qc
           else weight b) ∧
    first_place_weight winner bs_in = (v - Qc_of_Z threshold)%Qc ∧
    Qc_sum (zip_with (λ b b_out, if decide (names_first winner b)
                                 then weight b_out else Q2Qc 0) bs bs_out)
    = (v - Qc_of_Z threshold)%Qc.
Proof.
  intros Hbs Hv Htally Hv0.
  set (tv := ((v - Qc_of_Z threshold) / v)%Qc).
  set (scaled := scale_first winner tv <$> bs).
  assert (p < length st)%nat as Hp by by eapply lookup_lt_Some.
  exists (<[p := scaled]> st ++ [without_cand winner <$> scaled]),
         scaled, (without_cand winner <$> scaled).
  split_and!.
  - by apply fractional_transfer_step.
  - rewrite lookup_app_l by by rewrite length_insert.
    by apply list_lookup_insert_eq.
  - rewrite lookup_app_r by by rewrite length_insert.
    by rewrite length_insert, Nat.sub_diag.
  - intros i b Hb.
    exists (scale_first winner tv b),
           (without_cand winner (scale_first winner tv b)).
    unfold scaled. rewrite !list_lookup_fmap, Hb. cbn.
    split_and!; try done.
    + unfold scale_first. by destruct (first_is winner b).
    + apply weight_scale_first.
  - unfold scaled. rewrite first_place_weight_scaled, <- Htally.
    by apply surplus_ratio_mult.
  - transitivity (first_place_weight winner scaled).
    + unfold scaled. rewrite first_place_weight_sum.
      rewrite <- !list_fmap_compose. f_equal.
      clear. induction bs as [|b bs IH]; cbn; [done|].
      rewrite IH. f_equal. unfold credit.
      destruct (decide (names_first winner b)) as [Hn|Hn].
      * rewrite decide_True by by apply names_first_scale_first. done.
      * rewrite decide_False by by rewrite names_first_scale_first. done.
    + unfold scaled. rewrite first_place_weight_scaled, <- Htally.
      by apply surplus_ratio_mult.
Qed.

Lemma fractional_transfer_conserves_surplus_witness :
  ∃ st' bs_in,
    fractional_transfer "A" 0%nat {[ "A" := Qc_of_Z 5 ]} 3
      [[mkBallot [{[ "A" ]}; {[ "B" ]}] (Qc_of_Z 3);
        mkBallot [{[ "B" ]}] (Qc_of_Z 1);
        mkBallot [{[ "A" ]}] (Qc_of_Z 2)]]
    = Ok (1%nat, st') ∧
    st' !! 0%nat = Some bs_in ∧
    first_place_weight "A" bs_in = (Qc_of_Z 5 - Qc_of_Z 3)%Qc.
Proof.
  destruct (fractional_transfer_conserves_surplus "A" 0%nat
              {[ "A" := Qc_of_Z 5 ]} 3
              [[mkBallot [{[ "A" ]}; {[ "B" ]}] (Qc_of_Z 3);
                mkBallot [{[ "B" ]}] (Qc_of_Z 1);
                mkBallot [{[ "A" ]}] (Qc_of_Z 2)]]
              [mkBallot [{[ "A" ]}; {[ "B" ]}] (Qc_of_Z 3);
               mkBallot [{[ "B" ]}] (Qc_of_Z 1);
               mkBallot [{[ "A" ]}] (Qc_of_Z 2)]
              (Qc_of_Z 5))
    as (st' & bs_in & bs_out & Hrun & Hin & _ & _ & Hsum & _).
  - reflexivity.
  - apply lookup_singleton_eq.
  - apply Qc_is_canon. reflexivity.
  - intros H. apply (f_equal this) in H. discriminate H.
  - exists st', bs_in. split_and!; [exact Hrun | exact Hin | exact Hsum].
Defined.

(** ** The threshold *)

Lemma Qc_sum_nonneg l : Forall (λ x, (Q2Qc 0 ≤ x)%Qc) l → (Q2Qc 0 ≤ Qc_sum l)%Qc.
Proof.
  induction 1 as [|x l Hx Hl IH]; cbn; [done|].
  replace (Q2Qc 0) with (Q2Qc 0 + Q2Qc 0)%Qc by ring.
  by apply Qcplus_le_compat.
Qed.

Lemma num_ballots_acc bs (acc : Qc) :
  foldl (λ n ballot, (n + weight ballot)%Qc) acc bs
  = (acc + Qc_sum (weight <$> bs))%Qc.
Proof.
  revert acc. induction bs as [|b bs IH]; intros acc; cbn.
  - ring.
  - rewrite IH. unfold Qc_sum. ring.
Qed.

Lemma num_ballots_sum bs : num_ballots bs = Qc_sum (weight <$> bs).
Proof. unfold num_ballots. rewrite num_ballots_acc. ring. Qed.

Lemma num_ballots_nonneg bs :
  Forall (λ b, (Q2Qc 0 ≤ weight b)%Qc) bs → (Q2Qc 0 ≤ num_ballots bs)%Qc.
Proof.
  intros H. rewrite num_ballots_sum. apply Qc_sum_nonneg. by apply Forall_fmap.
Qed.

Lemma py_int_nonneg (x : Qc) : (Q2Qc 0 ≤ x)%Qc → py_int x = Qfloor x.
Proof.
  intros Hx. unfold py_int. destruct x as [[n d] Hc]. cbn.
  apply Z.quot_div_nonneg; [|done].
  unfold Qcle, Qle in Hx. change (0 * Z.pos d <= n * 1) in Hx. lia.
Qed.

Lemma Qfloor_succ (x : Q) : Qfloor (x + 1)%Q = Qfloor x + 1.
Proof.
  destruct x as [n d]. unfold Qplus. cbn.
  rewrite Z.mul_1_r, Pos.mul_1_r. apply Z.div_add. done.
Qed.

Lemma py_int_succ_floor (x : Qc) :
  (Q2Qc 0 ≤ x)%Qc → py_int (x + 1)%Qc = Qfloor x + 1.
Proof.
  intros Hx. rewrite py_int_nonneg.
  - rewrite <- Qfloor_succ. apply Qfloor_comp. cbn. apply Qred_correct.
  - replace (Q2Qc 0) with (Q2Qc 0 + Q2Qc 0)%Qc by ring.
    by apply Qcplus_le_compat.
Qed.

Lemma Qcdiv_nonneg (x y : Qc) :
  (Q2Qc 0 ≤ x)%Qc → (Q2Qc 0 < y)%Qc → (Q2Qc 0 ≤ x / y)%Qc.
Proof.
  intros Hx Hy. unfold Qcdiv. apply Qcmult_nonneg_nonneg; [done|].
  by apply Qclt_le_weak, Qcinv_pos.
Qed.

Lemma run_step_Ok self pick h self' h' :
  run_step self pick h = Ok (self', h') →
  ∃ el elim r b h1 rem bs,
    round_action self pick h = Ok ((el, elim, r, b), h1) ∧
    str_lists h1 !! r = Some rem ∧
    ballot_lists h1 !! b = Some bs ∧
    h' = mkHeap (str_lists h1 ++ [rem]) (ballot_lists h1 ++ [bs]) ∧
    self' = mkSTV (init_profile self) (transfer self) (seats self)
              (mkElectionState (curr_round (election_state self) + 1)
                 el elim (length (str_lists h1)) (length (ballot_lists h1))
                 (Some (election_state self)))
              (threshold self).
Proof.
  unfold run_step, next_record. intros H.
  apply bind_Ok in H as ([[[el elim] r] b] & h1 & Hact & H).
  apply bind_Ok in H as (rem & h2 & Hrem & H).
  apply on_strs_Ok in Hrem as (sl & [Hrem ->]%store_get_Ok & ->).
  apply bind_Ok in H as (r' & h3 & Hnew & H).
  apply on_strs_Ok in Hnew as (sl & Hnew & ->). cbn in Hnew.
  injection Hnew as <- <-.
  apply bind_Ok in H as (p' & h4 & Hprof & H).
  apply on_ballots_Ok in Hprof as (bl & Hprof & ->). cbn in Hprof.
  apply bind_Ok in Hprof as (bs & bl' & [Hbs ->]%store_get_Ok & Hprof).
  injection Hprof as <- <-.
  injection H as <- <-.
  exists el, elim, r, b, h1, rem, bs. done.
Qed.

Lemma run_step_fields self pick h self' h' :
  run_step self pick h = Ok (self', h') →
  init_profile self' = init_profile self ∧ transfer self' = transfer self ∧
  seats self' = seats self ∧ threshold self' = threshold self ∧
  previous (election_state self') = Some (election_state self) ∧
  curr_round (election_state self') = curr_round (election_state self) + 1.
Proof.
  intros H. apply run_step_Ok in H as (? & ? & ? & ? & ? & ? & ? & H).
  destruct H as (_ & _ & _ & _ & ->). done.
Qed.

Lemma rounds_fields e h e' h' :
  rounds (e, h) (e', h') →
  init_profile e' = init_profile e ∧ transfer e' = transfer e ∧
  seats e' = seats e ∧ threshold e' = threshold e.
Proof.
  intros H. remember (e, h) as x eqn:Hx. remember (e', h') as y eqn:Hy.
  revert e h Hx. induction H as [x|e0 h0 pick e1 h1 x Hstep Hrest IH];
    intros e h Hx; subst.
  - by injection Hx as -> ->.
  - injection Hx as -> ->.
    apply run_step_fields in Hstep as (H1 & H2 & H3 & H4 & _).
    destruct (IH eq_refl e1 h1 eq_refl) as (-> & -> & -> & ->). done.
Qed.

Lemma on_ballots_get r h (v : list Ballot) :
  ballot_lists h !! r = Some v → on_ballots (store_get r) h = Ok (v, h).
Proof. destruct h. cbn. unfold on_ballots, store_get. cbn. by intros ->. Qed.

Lemma on_strs_get r h (v : list string) :
  str_lists h !! r = Some v → on_strs (store_get r) h = Ok (v, h).
Proof. destruct h. cbn. unfold on_strs, store_get. cbn. by intros ->. Qed.

Lemma on_strs_new (v : list string) h :
  on_strs (store_new v) h
  = Ok (length (str_lists h), mkHeap (str_lists h ++ [v]) (ballot_lists h)).
Proof. done. Qed.

Lemma on_ballots_new (v : list Ballot) h :
  on_ballots (store_new v) h
  = Ok (length (ballot_lists h),
        mkHeap (str_lists h) (ballot_lists h ++ [v])).
Proof. done. Qed.

Lemma STV_init_Ok profile transfer seats h bs :
  ballot_lists h !! profile = Some bs → seats + 1 ≠ 0 →
  STV_init profile transfer seats h
  = Ok (mkSTV profile transfer seats
          (mkElectionState 0 [] [] (length (str_lists h)) profile None)
          (py_int (num_ballots bs / Qc_of_Z (seats + 1) + 1)%Qc),
        mkHeap (str_lists h ++ [cand <$> compute_votes (get_candidates bs) bs])
               (ballot_lists h)).
Proof.
  intros Hbs Hs. unfold STV_init, get_ballots.
  rewrite (bind_step _ _ _ _ _ (on_ballots_get _ _ _ Hbs)).
  rewrite (bind_step _ _ _ _ _ (on_strs_new _ _)).
  unfold get_threshold. cbn.
  rewrite bind_assoc.
  rewrite (bind_step _ _ _ _ _
             (on_ballots_get profile (mkHeap _ (ballot_lists h)) bs Hbs)).
  rewrite decide_False by done. done.
Qed.

(** C3. An engine built from a profile with non-negative weights and a
    non-negative seat count has the threshold
    [floor(total_ballot_weight / (seats + 1)) + 1], the total being that of
    the profile at construction; the threshold is set by the constructor
    and has the same value after any number of rounds. *)
Theorem threshold_is_droop_quota_forever
    (profile : loc)
    (transfer : string → loc → gmap string Qc → Z → M BallotStore loc)
    (seats : Z) (h : Heap) (bs : list Ballot) :
  ballot_lists h !! profile = Some bs →
  Forall (λ b, (Q2Qc 0 ≤ weight b)%Qc) bs →
  0 ≤ seats →
  ∃ e h0,
    STV_init profile transfer seats h = Ok (e, h0) ∧
    threshold e = Qfloor (num_ballots bs / Qc_of_Z (seats + 1))%Qc + 1 ∧
    ∀ e' h', rounds (e, h0) (e', h') → threshold e' = threshold e.
Proof.
  intros Hbs Hw Hs. eexists _, _. split_and!.
  - apply (STV_init_Ok _ _ _ _ bs); [done|lia].
  - cbn. apply py_int_succ_floor. apply Qcdiv_nonneg.
    + by apply num_ballots_nonneg.
    + rewrite <- Z2Qc_inj_0. apply (proj1 (Z2Qc_inj_lt _ _)). lia.
  - intros e' h' Hr. by apply rounds_fields in Hr as (_ & _ & _ & ->).
Qed.

Lemma test_ballots_nonneg :
  Forall (λ b, (Q2Qc 0 ≤ weight b)%Qc) test_ballots.
Proof. repeat constructor; by vm_compute. Qed.

Lemma threshold_is_droop_quota_forever_witness :
  ∃ e h0,
    STV_init 0%nat fractional_transfer 1 test_heap = Ok (e, h0) ∧
    threshold e
    = Qfloor (num_ballots test_ballots / Qc_of_Z (1 + 1))%Qc + 1.
Proof.
  destruct (threshold_is_droop_quota_forever 0%nat fractional_transfer 1
              test_heap test_ballots eq_refl test_ballots_nonneg)
    as (e & h0 & Hinit & Hthr & _).
  - lia.
  - exists e, h0. split; [exact Hinit | exact Hthr].
Defined.

(** ** One round *)

Lemma list_remove_Some x l l' : list_remove x l = Some l' → l ≡ₚ x :: l'.
Proof.
  revert l'. induction l as [|y l IH]; intros l'; cbn; [done|].
  destruct (decide (x = y)) as [->|Hne].
  - by intros [= ->].
  - destruct (list_remove x l) as [l1|]; cbn; [|done].
    intros [= <-]. rewrite (IH l1 eq_refl). apply Permutation_swap.
Qed.

Lemma list_remove_elem x l : x ∈ l → is_Some (list_remove x l).
Proof.
  induction 1 as [x l|x y l Hin IH]; cbn.
  - rewrite decide_True by done. by eexists.
  - destruct (decide (x = y)); [by eexists|].
    destruct IH as [l' ->]. by eexists.
Qed.

Lemma py_remove_step r x (sl : list (list string)) l l' :
  sl !! r = Some l → list_remove x l = Some l' →
  py_remove r x sl = Ok ((), <[r := l']> sl).
Proof.
  intros Hl Hrm. unfold py_remove.
  rewrite (bind_step _ _ _ _ _ (store_get_step _ _ _ Hl)), Hrm.
  by apply store_set_step with l.
Qed.

Lemma py_remove_Ok r x (sl sl' : list (list string)) u :
  py_remove r x sl = Ok (u, sl') →
  ∃ l l', sl !! r = Some l ∧ list_remove x l = Some l' ∧ sl' = <[r := l']> sl.
Proof.
  unfold py_remove. intros H.
  apply bind_Ok in H as (l & sl1 & [Hl ->]%store_get_Ok & H).
  destruct (list_remove x l) as [l'|] eqn:Hrm; [|done].
  unfold store_set in H. rewrite Hl in H. injection H as _ <-.
  by exists l, l'.
Qed.

Lemma round_action_eq self pick h rem bs :
  str_lists h !! remaining (election_state self) = Some rem →
  ballot_lists h !! profile (election_state self) = Some bs →
  round_action self pick h
  = round_branches self pick (remaining (election_state self))
      (profile (election_state self)) rem (compute_votes rem bs) h.
Proof.
  intros Hrem Hbs. unfold round_action, get_ballots.
  rewrite (bind_step _ _ _ _ _ (on_strs_get _ _ _ Hrem)).
  by rewrite (bind_step _ _ _ _ _ (on_ballots_get _ _ _ Hbs)).
Qed.

Lemma round_action_Ok self pick h res h1 :
  round_action self pick h = Ok (res, h1) →
  ∃ rem bs,
    str_lists h !! remaining (election_state self) = Some rem ∧
    ballot_lists h !! profile (election_state self) = Some bs ∧
    round_branches self pick (remaining (election_state self))
      (profile (election_state self)) rem (compute_votes rem bs) h
    = Ok (res, h1).
Proof.
  unfold round_action, get_ballots. intros H.
  apply bind_Ok in H as (rem & h2 & Hrem & H).
  apply on_strs_Ok in Hrem as (sl & [Hrem ->]%store_get_Ok & ->).
  apply bind_Ok in H as (bs & h3 & Hbs & H).
  apply on_ballots_Ok in Hbs as (bl & [Hbs ->]%store_get_Ok & ->).
  cbn in Hbs. exists rem, bs. split_and!; [done..|].
  destruct h. exact H.
Qed.

Lemma next_record_step self el elim r b h rem bs :
  str_lists h !! r = Some rem → ballot_lists h !! b = Some bs →
  next_record self el elim r b h
  = Ok (mkSTV (init_profile self) (transfer self) (seats self)
          (mkElectionState (curr_round (election_state self) + 1)
             el elim (length (str_lists h)) (length (ballot_lists h))
             (Some (election_state self)))
          (threshold self),
        mkHeap (str_lists h ++ [rem]) (ballot_lists h ++ [bs])).
Proof.
  intros Hrem Hbs. unfold next_record.
  rewrite (bind_step _ _ _ _ _ (on_strs_get _ _ _ Hrem)).
  rewrite (bind_step _ _ _ _ _ (on_strs_new _ _)).
  erewrite bind_step; [done|].
  unfold on_ballots, PreferenceProfile. cbn.
  by rewrite (bind_step _ _ _ _ _ (store_get_step _ _ _ Hbs)).
Qed.

Lemma lookup_new {A} (st : list A) (v : A) : (st ++ [v]) !! length st = Some v.
Proof. rewrite lookup_app_r by done. by rewrite Nat.sub_diag. Qed.

Lemma lookup_old {A} (st : list A) (v w : A) r :
  st !! r = Some w → (st ++ [v]) !! r = Some w.
Proof. intros H. rewrite lookup_app_l; [done|]. by eapply lookup_lt_Some. Qed.

Lemma run_step_of_action self pick h el elim r b h1 rem bs :
  round_action self pick h = Ok ((el, elim, r, b), h1) →
  str_lists h1 !! r = Some rem → ballot_lists h1 !! b = Some bs →
  run_step self pick h
  = Ok (mkSTV (init_profile self) (transfer self) (seats self)
          (mkElectionState (curr_round (election_state self) + 1)
             el elim (length (str_lists h1)) (length (ballot_lists h1))
             (Some (election_state self)))
          (threshold self),
        mkHeap (str_lists h1 ++ [rem]) (ballot_lists h1 ++ [bs])).
Proof.
  intros Hact Hrem Hbs. unfold run_step.
  rewrite (bind_step _ _ _ _ _ Hact). by apply next_record_step.
Qed.

(** C5. In a round that starts with as many remaining candidates as there
    are seats left, the engine elects exactly the remaining candidates and
    eliminates nobody, and the new record holds an empty [remaining] list
    and a profile without ballots.  (When [remaining] has no duplicates
    the elected list is a permutation of it and fills the seats.) *)
Theorem mass_elect_round (self : STV) (pick : nat) (h : Heap)
    (rem : list string) (bs : list Ballot) :
  str_lists h !! remaining (election_state self) = Some rem →
  ballot_lists h !! profile (election_state self) = Some bs →
  Z.of_nat (length rem)
  = seats self - Z.of_nat (length (get_all_winners (election_state self))) →
  ∃ self' h',
    run_step self pick h = Ok (self', h') ∧
    previous (election_state self') = Some (election_state self) ∧
    (∀ c, c ∈ elected (election_state self') ↔ c ∈ rem) ∧
    NoDup (elected (election_state self')) ∧
    eliminated (election_state self') = [] ∧
    str_lists h' !! remaining (election_state self') = Some [] ∧
    ballot_lists h' !! profile (election_state self') = Some [] ∧
    (NoDup rem →
     elected (election_state self') ≡ₚ rem ∧ next_round self' = false).
Proof.
  intros Hrem Hbs Hmass.
  assert (round_action self pick h
          = Ok ((cand <$> compute_votes rem bs, [],
                 length (str_lists h), length (ballot_lists h)),
                mkHeap (str_lists h ++ [[]]) (ballot_lists h ++ [[]])))
    as Hact.
  { rewrite (round_action_eq _ _ _ rem bs) by done.
    unfold round_branches. rewrite decide_True by done. done. }
  eexists _, _. split.
  { eapply run_step_of_action; [exact Hact|apply lookup_new..]. }
  cbn. split_and!; try done.
  - intros c. apply compute_votes_elem.
  - apply compute_votes_NoDup.
  - apply lookup_new.
  - apply lookup_new.
  - intros Hnd.
    pose proof (compute_votes_Permutation rem bs Hnd) as Hperm.
    split; [done|]. unfold next_round. cbn.
    apply bool_decide_eq_false. intros Hne. apply Hne.
    rewrite length_app, Hperm. lia.
Qed.

Lemma test_engine_init :
  STV_init 0%nat fractional_transfer 1 test_heap
  = Ok (test_engine 1 276, test_heap_0) ∧
  STV_init 0%nat fractional_transfer 2 test_heap
  = Ok (test_engine 2 184, test_heap_0) ∧
  STV_init 0%nat fractional_transfer 3 test_heap
  = Ok (test_engine 3 138, test_heap_0).
Proof. split_and!; vm_compute; reflexivity. Qed.

Lemma mass_elect_round_witness :
  ∃ self' h',
    run_step (test_engine 3 138) 0%nat test_heap_0 = Ok (self', h') ∧
    (∀ c, c ∈ elected (election_state self') ↔ c ∈ ["A"; "B"; "C"]) ∧
    str_lists h' !! remaining (election_state self') = Some [] ∧
    ballot_lists h' !! profile (election_state self') = Some [].
Proof.
  destruct (mass_elect_round (test_engine 3 138) 0%nat test_heap_0
              ["A"; "B"; "C"] test_ballots eq_refl eq_refl eq_refl)
    as (self' & h' & Hrun & _ & Hel & _ & _ & Hrem & Hbs & _).
  exists self', h'. split_and!; [exact Hrun|exact Hel|exact Hrem|exact Hbs].
Defined.

(** ** The branch that elects everyone at or above the threshold *)

Lemma elect_loop_each self r fp todo el b h :
  elect_loop self r fp todo el b h
  = (b' <~ elect_each self r fp (cand <$> at_quota (threshold self) todo) b ;;
     ret (el ++ (cand <$> at_quota (threshold self) todo), b')) h.
Proof.
  revert el b h. induction todo as [|cv todo IH]; intros el b h.
  - cbn. unfold bind, ret. by rewrite app_nil_r.
  - cbn [elect_loop]. unfold at_quota in *.
    destruct (decide (Qc_of_Z (threshold self) ≤ votes cv)%Qc) as [Hq|Hq].
    + rewrite filter_cons_True by done. cbn [fmap list_fmap elect_each].
      rewrite bind_assoc. apply bind_ext. intros u h1 _. cbn beta.
      rewrite bind_assoc. apply bind_ext. intros b1 h2 _. cbn beta.
      rewrite IH. by rewrite <- app_assoc.
    + rewrite filter_cons_False by done. apply IH.
Qed.

Lemma on_ballots_strs {A} (m : M BallotStore A) h a h' :
  on_ballots m h = Ok (a, h') → str_lists h' = str_lists h.
Proof. intros (bl & _ & ->)%on_ballots_Ok. done. Qed.

Lemma list_remove_sublist x l l' : list_remove x l = Some l' → sublist l' l.
Proof.
  revert l'. induction l as [|y l IH]; intros l'; cbn; [done|].
  destruct (decide (x = y)) as [->|Hne].
  - intros [= ->]. by apply sublist_cons.
  - destruct (list_remove x l) as [l1|]; cbn; [|done].
    intros [= <-]. by apply sublist_skip, IH.
Qed.

Lemma elect_each_strs self r fp ws b h b' h' rem :
  elect_each self r fp ws b h = Ok (b', h') →
  str_lists h !! r = Some rem →
  ∃ rem', str_lists h' !! r = Some rem' ∧ rem ≡ₚ ws ++ rem' ∧
          sublist rem' rem ∧
          length (str_lists h') = length (str_lists h).
Proof.
  revert b h rem. induction ws as [|w ws IH]; intros b h rem H Hrem.
  - injection H as <- <-. by exists rem.
  - cbn [elect_each] in H.
    apply bind_Ok in H as (u & h1 & Hrm & H).
    apply on_strs_Ok in Hrm as (sl & Hrm & ->).
    apply py_remove_Ok in Hrm as (l & l1 & Hl & Hrm & ->).
    rewrite Hrem in Hl. injection Hl as <-.
    apply bind_Ok in H as (b1 & h2 & Htr & H).
    apply on_ballots_strs in Htr as Hsl. cbn in Hsl.
    assert (r < length (str_lists h))%nat as Hr by by eapply lookup_lt_Some.
    destruct (IH b1 h2 l1 H) as (rem' & Hrem' & Hperm & Hsub & Hlen).
    { rewrite Hsl. by apply list_lookup_insert_eq. }
    exists rem'. split_and!; [done| | |].
    + rewrite (list_remove_Some _ _ _ Hrm), Hperm. done.
    + etrans; [exact Hsub|]. by eapply list_remove_sublist.
    + by rewrite Hlen, Hsl, length_insert.
Qed.

Lemma votes_map_acc_notin (l : list CandidateVotes) (m : gmap string Qc) c :
  c ∉ cand <$> l →
  foldl (λ m cv, <[cand cv := votes cv]> m) m l !! c = m !! c.
Proof.
  revert m. induction l as [|x l IH]; intros m Hc; cbn; [done|].
  apply not_elem_of_cons in Hc as [Hne Hc].
  rewrite IH by done. by rewrite lookup_insert_ne.
Qed.

Lemma votes_map_lookup (fp_votes : list CandidateVotes) cv :
  NoDup (cand <$> fp_votes) → cv ∈ fp_votes →
  votes_map fp_votes !! cand cv = Some (votes cv).
Proof.
  unfold votes_map. generalize (∅ : gmap string Qc).
  induction fp_votes as [|x l IH]; intros m Hnd Hin; [by inversion Hin|].
  cbn in *. apply NoDup_cons in Hnd as [Hx Hnd].
  apply elem_of_cons in Hin as [->|Hin].
  - rewrite votes_map_acc_notin by done. by rewrite lookup_insert_eq.
  - by apply IH.
Qed.

Lemma at_quota_Sorted thr fp :
  StronglySorted (λ a b, (votes b ≤ votes a)%Qc) fp →
  StronglySorted (λ a b, (votes b ≤ votes a)%Qc) (at_quota thr fp).
Proof.
  unfold at_quota. induction 1 as [|x l Hl IH Hx]; [constructor|].
  rewrite filter_cons. destruct (decide _); [|done].
  constructor; [done|]. apply Forall_forall. intros y Hy.
  apply list_elem_of_filter in Hy as [_ Hy].
  by eapply Forall_forall in Hx.
Qed.

Lemma at_quota_elem thr rem bs c :
  c ∈ cand <$> at_quota thr (compute_votes rem bs) ↔
  c ∈ rem ∧ (Qc_of_Z thr ≤ first_place_weight c bs)%Qc.
Proof.
  pose proof (compute_votes_values rem bs) as Hv.
  rewrite Forall_forall in Hv. unfold at_quota.
  rewrite list_elem_of_fmap. split.
  - intros (cv & -> & [Hq Hin]%list_elem_of_filter). split.
    + apply (compute_votes_elem rem bs). apply list_elem_of_fmap. eauto.
    + by rewrite <- (Hv cv Hin).
  - intros [Hin Hq].
    apply (compute_votes_elem rem bs) in Hin.
    apply list_elem_of_fmap in Hin as (cv & -> & Hin).
    exists cv. split; [done|]. apply list_elem_of_filter.
    split; [|done]. by rewrite (Hv cv Hin).
Qed.

Lemma round_branches_elect self pick r b rem fp top rest h :
  Z.of_nat (length rem)
  ≠ seats self - Z.of_nat (length (get_all_winners (election_state self))) →
  fp = top :: rest →
  (Qc_of_Z (threshold self) ≤ votes top)%Qc →
  round_branches self pick r b rem fp h
  = (b' <~ elect_each self r fp (cand <$> at_quota (threshold self) fp) b ;;
     ret (cand <$> at_quota (threshold self) fp, [], r, b')) h.
Proof.
  intros Hmass -> Hq. unfold round_branches.
  rewrite decide_False by done. rewrite decide_True by done.
  unfold bind at 1. rewrite elect_loop_each.
  unfold bind. by destruct (elect_each _ _ _ _ _ h) as [[b' h']|e].
Qed.

(** C2. In a round where the mass-elect condition fails and the leading
    tally is at least the threshold, the elected candidates are exactly the
    remaining candidates whose tally at the start of the round is at least
    the threshold, listed in descending order of that tally.  They are
    processed one after the other: each is removed from [remaining] and the
    transfer strategy is applied to the ballots left by the previous one,
    always with the tally of the start of the round.  The new record lists
    them as [elected], eliminates nobody, and its [remaining] is the old
    one without them. *)
Theorem threshold_elect_round (self : STV) (pick : nat) (h : Heap)
    (rem : list string) (bs : list Ballot) (top : CandidateVotes)
    (rest : list CandidateVotes) :
  str_lists h !! remaining (election_state self) = Some rem →
  ballot_lists h !! profile (election_state self) = Some bs →
  Z.of_nat (length rem)
  ≠ seats self - Z.of_nat (length (get_all_winners (election_state self))) →
  compute_votes rem bs = top :: rest →
  (Qc_of_Z (threshold self) ≤ votes top)%Qc →
  let fp_votes := compute_votes rem bs in
  let winners := at_quota (threshold self) fp_votes in
  (∀ c, c ∈ cand <$> winners ↔
        c ∈ rem ∧ (Qc_of_Z (threshold self) ≤ first_place_weight c bs)%Qc) ∧
  StronglySorted (λ a b, (votes b ≤ votes a)%Qc) winners ∧
  (∀ cv, cv ∈ fp_votes →
     votes cv = first_place_weight (cand cv) bs ∧
     votes_map fp_votes !! cand cv = Some (votes cv)) ∧
  run_step self pick h
  = (b' <~ elect_each self (remaining (election_state self)) fp_votes
             (cand <$> winners) (profile (election_state self)) ;;
     next_record self (cand <$> winners) []
       (remaining (election_state self)) b') h ∧
  ∀ self' h',
    run_step self pick h = Ok (self', h') →
    elected (election_state self') = cand <$> winners ∧
    eliminated (election_state self') = [] ∧
    previous (election_state self') = Some (election_state self) ∧
    ∃ rem', str_lists h' !! remaining (election_state self') = Some rem' ∧
            rem ≡ₚ (cand <$> winners) ++ rem' ∧ sublist rem' rem.
Proof.
  intros Hrem Hbs Hmass Hfp Hq fp_votes winners.
  assert (run_step self pick h
          = (b' <~ elect_each self (remaining (election_state self)) fp_votes
                     (cand <$> winners) (profile (election_state self)) ;;
             next_record self (cand <$> winners) []
               (remaining (election_state self)) b') h) as Hrun.
  { unfold run_step.
    unfold bind at 1. rewrite (round_action_eq _ _ _ rem bs) by done.
    rewrite (round_branches_elect _ _ _ _ _ _ top rest) by done.
    unfold bind. fold fp_votes. fold winners.
    by destruct (elect_each _ _ _ _ _ h) as [[b' h']|e]. }
  split_and!.
  - intros c. apply at_quota_elem.
  - apply at_quota_Sorted, compute_votes_Sorted.
  - intros cv Hcv. split.
    + pose proof (compute_votes_values rem bs) as Hv.
      rewrite Forall_forall in Hv. by apply Hv.
    + apply votes_map_lookup; [apply compute_votes_NoDup|done].
  - exact Hrun.
  - intros self' h' Hok. rewrite Hrun in Hok.
    apply bind_Ok in Hok as (b' & h1 & Heach & Hnext).
    destruct (elect_each_strs _ _ _ _ _ _ _ _ rem Heach Hrem)
      as (rem' & Hrem' & Hperm & Hsub & Hlen).
    unfold next_record in Hnext.
    rewrite (bind_step _ _ _ _ _ (on_strs_get _ _ _ Hrem')) in Hnext.
    rewrite (bind_step _ _ _ _ _ (on_strs_new _ _)) in Hnext.
    apply bind_Ok in Hnext as (p' & h2 & Hprof & Hret).
    apply on_ballots_Ok in Hprof as (bl & _ & ->).
    injection Hret as <- <-. cbn.
    split_and!; try done. exists rem'. split_and!; try done.
    apply lookup_new.
Qed.

Lemma test_tally :
  compute_votes ["A"; "B"; "C"] test_ballots
  = [mkCandidateVotes "A" (first_place_weight "A" test_ballots);
     mkCandidateVotes "B" (first_place_weight "B" test_ballots);
     mkCandidateVotes "C" (first_place_weight "C" test_ballots)].
Proof. vm_compute. reflexivity. Qed.

Lemma threshold_elect_round_witness :
  StronglySorted (λ a b, (votes b ≤ votes a)%Qc)
    (at_quota 184 (compute_votes ["A"; "B"; "C"] test_ballots)) ∧
  run_step (test_engine 2 184) 0%nat test_heap_0
  = (b' <~ elect_each (test_engine 2 184) 0%nat
             (compute_votes ["A"; "B"; "C"] test_ballots)
             (cand <$> at_quota 184
                         (compute_votes ["A"; "B"; "C"] test_ballots))
             0%nat ;;
     next_record (test_engine 2 184)
       (cand <$> at_quota 184 (compute_votes ["A"; "B"; "C"] test_ballots))
       [] 0%nat b') test_heap_0.
Proof.
  destruct (threshold_elect_round (test_engine 2 184) 0%nat test_heap_0
              ["A"; "B"; "C"] test_ballots _ _ eq_refl eq_refl
              ltac:(cbn; lia) test_tally ltac:(by vm_compute))
    as (_ & Hsorted & _ & Hrun & _).
  split; [exact Hsorted | exact Hrun].
Defined.

(** ** Every candidate is ranked once *)

Lemma random_choice_elem pick seq x : random_choice pick seq = Ok x → x ∈ seq.
Proof.
  unfold random_choice. destruct (seq !! _) as [y|] eqn:Hy; [|done].
  intros [= <-]. by eapply list_elem_of_lookup_2.
Qed.

Lemma lift_Ok {S A} (r : result A) (s s' : S) a :
  lift r s = Ok (a, s') ↔ r = Ok a ∧ s' = s.
Proof.
  unfold lift. destruct r; split; try done.
  - by intros [= -> ->].
  - by intros [[= ->] ->].
  - by intros [? _].
Qed.

Lemma round_branches_strs self pick r b rem fp h el elim r1 b1 h1 :
  round_branches self pick r b rem fp h = Ok ((el, elim, r1, b1), h1) →
  str_lists h !! r = Some rem → cand <$> fp ≡ₚ rem →
  ∃ rem1, str_lists h1 !! r1 = Some rem1 ∧ rem ≡ₚ el ++ rem1 ++ elim.
Proof.
  intros H Hrem Hfp. unfold round_branches in H.
  destruct (decide (Z.of_nat (length rem) = _)) as [Hmass|Hmass].
  { cbn in H. injection H as <- <- <- <- <-. exists []. cbn.
    split; [apply lookup_new|]. by rewrite !app_nil_r. }
  destruct fp as [|top rest]; [done|].
  destruct (decide (Qc_of_Z (threshold self) ≤ votes top)%Qc) as [Hq|Hq].
  { apply bind_Ok in H as ([el' b'] & h2 & Hloop & Hret).
    injection Hret as <- <- <- <- <-.
    rewrite elect_loop_each in Hloop.
    apply bind_Ok in Hloop as (b2 & h3 & Heach & Hret).
    injection Hret as <- <- <-.
    destruct (elect_each_strs _ _ _ _ _ _ _ _ rem Heach Hrem)
      as (rem' & Hrem' & Hperm & _).
    exists rem'. cbn. by rewrite app_nil_r. }
  destruct (next_round self).
  - apply bind_Ok in H as (lp & h2 & [Hlp ->]%lift_Ok & H).
    apply bind_Ok in H as (b2 & h3 & Hrc & H).
    apply on_ballots_strs in Hrc as Hsl.
    apply bind_Ok in H as (u & h4 & Hrm & Hret).
    injection Hret as <- <- <- <- <-.
    apply on_strs_Ok in Hrm as (sl & Hrm & ->).
    apply py_remove_Ok in Hrm as (l & l' & Hl & Hrm & ->).
    rewrite Hsl, Hrem in Hl. injection Hl as <-.
    exists l'. cbn. split.
    + apply list_lookup_insert_eq. rewrite Hsl. by eapply lookup_lt_Some.
    + rewrite (list_remove_Some _ _ _ Hrm).
      by rewrite <- Permutation_cons_append.
  - injection H as <- <- <- <- <-. exists rem. cbn.
    by rewrite app_nil_r.
Qed.

Lemma complete_record_NoDup cands e h rem :
  NoDup cands →
  str_lists h !! remaining (election_state e) = Some rem →
  get_all_winners (election_state e) ++ rem
    ++ get_all_eliminated (election_state e) ≡ₚ cands →
  NoDup rem.
Proof.
  intros Hnd _ Hperm. rewrite <- Hperm in Hnd.
  apply NoDup_app in Hnd as (_ & _ & Hnd).
  by apply NoDup_app in Hnd as (Hnd & _).
Qed.

Lemma run_step_complete cands e pick h e' h' :
  NoDup cands →
  complete_record cands (e, h) →
  run_step e pick h = Ok (e', h') →
  complete_record cands (e', h').
Proof.
  intros Hnd (rem & Hrem & Hperm) Hrun. cbn in Hrem, Hperm.
  pose proof (complete_record_NoDup _ _ _ _ Hnd Hrem Hperm) as Hndrem.
  apply run_step_Ok in Hrun
    as (el & elim & r & b & h1 & rem1 & bs1 & Hact & Hrem1 & _ & -> & ->).
  apply round_action_Ok in Hact as (rem0 & bs & Hrem0 & Hbs & Hbr).
  rewrite Hrem in Hrem0. injection Hrem0 as <-.
  destruct (round_branches_strs _ _ _ _ _ _ _ _ _ _ _ _ Hbr Hrem)
    as (rem1' & Hrem1' & Hsplit).
  { by apply compute_votes_Permutation. }
  rewrite Hrem1 in Hrem1'. injection Hrem1' as <-.
  exists rem1. cbn. split; [apply lookup_new|].
  rewrite <- Hperm, Hsplit, reverse_Permutation.
  rewrite <- !app_assoc. done.
Qed.

Lemma rounds_complete cands x y :
  NoDup cands → complete_record cands x → rounds x y → complete_record cands y.
Proof.
  intros Hnd Hx Hr. induction Hr as [x|e h pick e1 h1 y Hstep Hrest IH];
    [done|].
  apply IH. by eapply run_step_complete.
Qed.

Lemma get_candidates_NoDup bs : NoDup (get_candidates bs).
Proof. unfold get_candidates. apply (NoDup_elements (C := gset string)). Qed.

Lemma STV_init_inv profile transfer seats h e h0 :
  STV_init profile transfer seats h = Ok (e, h0) →
  ∃ bs, ballot_lists h !! profile = Some bs ∧ seats + 1 ≠ 0 ∧
    e = mkSTV profile transfer seats
          (mkElectionState 0 [] [] (length (str_lists h)) profile None)
          (py_int (num_ballots bs / Qc_of_Z (seats + 1) + 1)%Qc) ∧
    h0 = mkHeap
           (str_lists h ++ [cand <$> compute_votes (get_candidates bs) bs])
           (ballot_lists h).
Proof.
  intros H.
  assert (∃ bs, ballot_lists h !! profile = Some bs) as [bs Hbs].
  { unfold STV_init, get_ballots in H.
    apply bind_Ok in H as (bs & h1 & Hbs & _).
    apply on_ballots_Ok in Hbs as (bl & [Hbs _]%store_get_Ok & _). eauto. }
  destruct (decide (seats + 1 = 0)) as [Hs|Hs].
  - exfalso. revert H. unfold STV_init, get_ballots.
    rewrite (bind_step _ _ _ _ _ (on_ballots_get _ _ _ Hbs)).
    rewrite (bind_step _ _ _ _ _ (on_strs_new _ _)).
    unfold get_threshold. cbn. rewrite bind_assoc.
    rewrite (bind_step _ _ _ _ _
               (on_ballots_get profile (mkHeap _ (ballot_lists h)) bs Hbs)).
    by rewrite decide_True.
  - rewrite (STV_init_Ok _ _ _ _ bs Hbs Hs) in H. injection H as <- <-.
    by exists bs.
Qed.

Lemma STV_init_complete profile transfer seats h bs e h0 :
  ballot_lists h !! profile = Some bs →
  STV_init profile transfer seats h = Ok (e, h0) →
  complete_record (get_candidates bs) (e, h0).
Proof.
  intros Hbs Hinit.
  apply STV_init_inv in Hinit as (bs' & Hbs' & _ & -> & ->).
  rewrite Hbs in Hbs'. injection Hbs' as <-.
  exists (cand <$> compute_votes (get_candidates bs) bs). cbn.
  split; [apply lookup_new|]. rewrite app_nil_r.
  apply compute_votes_Permutation, get_candidates_NoDup.
Qed.

(** C7. After any number of rounds of an engine built on a profile, the
    current record's [get_rankings()], which is [get_all_winners()]
    followed by [remaining] followed by [get_all_eliminated()], is a
    permutation of the candidates of the initial profile: it has no
    duplicates, it holds exactly the candidates ranked on the initial
    ballots, and the three lengths add up to the number of candidates. *)
Theorem rankings_always_permutation
    (profile : loc)
    (transfer : string → loc → gmap string Qc → Z → M BallotStore loc)
    (seats : Z) (h : Heap) (bs : list Ballot) (e : STV) (h0 : Heap)
    (e' : STV) (h' : Heap) :
  ballot_lists h !! profile = Some bs →
  STV_init profile transfer seats h = Ok (e, h0) →
  rounds (e, h0) (e', h') →
  ∃ rem ranks,
    str_lists h' !! remaining (election_state e') = Some rem ∧
    get_rankings (election_state e') (str_lists h')
    = Ok (ranks, str_lists h') ∧
    ranks = get_all_winners (election_state e') ++ rem
              ++ get_all_eliminated (election_state e') ∧
    ranks ≡ₚ get_candidates bs ∧
    NoDup ranks ∧
    (∀ c, c ∈ ranks ↔ c ∈ ⋃ (bs ≫= ranking)) ∧
    (length (get_all_winners (election_state e'))
     + length (get_all_eliminated (election_state e')) + length rem
     = length (get_candidates bs))%nat.
Proof.
  intros Hbs Hinit Hrounds.
  pose proof (STV_init_complete _ _ _ _ _ _ _ Hbs Hinit) as Hc.
  apply (rounds_complete _ _ _ (get_candidates_NoDup bs) Hc) in Hrounds
    as (rem & Hrem & Hperm).
  cbn in Hrem, Hperm. eexists rem, _. split_and!.
  - done.
  - unfold get_rankings.
    by rewrite (bind_step _ _ _ _ _ (store_get_step _ _ _ Hrem)).
  - done.
  - done.
  - rewrite Hperm. apply get_candidates_NoDup.
  - intros c. rewrite Hperm. unfold get_candidates.
    apply elem_of_elements.
  - rewrite <- Hperm, !length_app. lia.
Qed.

Lemma test_round_1 :
  run_step (test_engine 1 276) 0%nat test_heap_0
  = Ok (after_round 0 (test_engine 1 276, test_heap_0)).
Proof. vm_compute. reflexivity. Qed.

Lemma rankings_always_permutation_witness :
  ∃ rem ranks,
    str_lists (after_round 0 (test_engine 1 276, test_heap_0)).2
      !! remaining
           (election_state (after_round 0 (test_engine 1 276, test_heap_0)).1)
    = Some rem ∧
    ranks = get_all_winners
              (election_state
                 (after_round 0 (test_engine 1 276, test_heap_0)).1)
            ++ rem
            ++ get_all_eliminated
                 (election_state
                    (after_round 0 (test_engine 1 276, test_heap_0)).1) ∧
    ranks ≡ₚ get_candidates test_ballots ∧ NoDup ranks.
Proof.
  destruct (rankings_always_permutation 0%nat fractional_transfer 1
              test_heap test_ballots (test_engine 1 276) test_heap_0
              (after_round 0 (test_engine 1 276, test_heap_0)).1
              (after_round 0 (test_engine 1 276, test_heap_0)).2
              eq_refl (proj1 test_engine_init))
    as (rem & ranks & Hrem & _ & Hranks & Hperm & Hnd & _).
  - eapply rounds_step; [exact test_round_1|].
    rewrite <- surjective_pairing. apply rounds_refl.
  - exists rem, ranks.
    split_and!; [exact Hrem|exact Hranks|exact Hperm|exact Hnd].
Defined.

(** ** Earlier records are not left alone *)

(** C1 fails on the code.  On the profile of the tests with one seat, the
    first round eliminates [C] with [remaining.remove]: the list it changes
    is the [remaining] list of round 0, which read [A; B; C] before the call
    and reads [A; B] after it.  With two seats the first round elects [A]
    and [fractional_transfer] assigns the scaled weight on the ballots of
    round 0's profile: the first weight is 250 before the call and 66 after
    it.  The new record does point to the former one. *)
Theorem run_step_changes_former_record :
  (run_step (test_engine 1 276) 0%nat test_heap_0
   = Ok (after_round 0 (test_engine 1 276, test_heap_0)) ∧
   previous (election_state (after_round 0 (test_engine 1 276, test_heap_0)).1)
   = Some (election_state (test_engine 1 276)) ∧
   str_lists test_heap_0 !! remaining (election_state (test_engine 1 276))
   = Some ["A"; "B"; "C"] ∧
   str_lists (after_round 0 (test_engine 1 276, test_heap_0)).2
     !! remaining (election_state (test_engine 1 276))
   = Some ["A"; "B"]) ∧
  (run_step (test_engine 2 184) 0%nat test_heap_0
   = Ok (after_round 0 (test_engine 2 184, test_heap_0)) ∧
   previous (election_state (after_round 0 (test_engine 2 184, test_heap_0)).1)
   = Some (election_state (test_engine 2 184)) ∧
   fmap (M := list) (λ b, this (weight b))
     <$> ballot_lists test_heap_0 !! profile (election_state (test_engine 2 184))
   = Some [250 # 1; 200 # 1; 100 # 1]%Q ∧
   fmap (M := list) (λ b, this (weight b))
     <$> ballot_lists (after_round 0 (test_engine 2 184, test_heap_0)).2
           !! profile (election_state (test_engine 2 184))
   = Some [66 # 1; 200 # 1; 100 # 1]%Q).
Proof. split_and!; vm_compute; reflexivity. Qed.

(** ** Weights under fractional transfer *)

Lemma total_weight_cons b bs :
  total_weight (b :: bs) = (weight b + total_weight bs)%Qc.
Proof. done. Qed.

Lemma total_weight_without c bs :
  total_weight (without_cand c <$> bs) = total_weight bs.
Proof.
  unfold total_weight. rewrite <- list_fmap_compose. f_equal.
Qed.

Lemma total_weight_nonneg bs :
  Forall (λ b, (Q2Qc 0 ≤ weight b)%Qc) bs → (Q2Qc 0 ≤ total_weight bs)%Qc.
Proof. intros H. apply Qc_sum_nonneg. by apply Forall_fmap. Qed.

Lemma num_ballots_total bs : num_ballots bs = total_weight bs.
Proof. apply num_ballots_sum. Qed.

Lemma weight_scale_first_credit c tv b :
  weight (scale_first c tv b) = (weight b - credit c b * (1 - tv))%Qc.
Proof.
  rewrite weight_scale_first. unfold credit.
  destruct (decide (names_first c b)); ring.
Qed.

Lemma total_weight_scaled c tv bs :
  total_weight (scale_first c tv <$> bs)
  = (total_weight bs - first_place_weight c bs * (1 - tv))%Qc.
Proof.
  rewrite first_place_weight_sum.
  induction bs as [|b bs IH]; cbn [fmap list_fmap].
  - unfold total_weight, Qc_sum. cbn. ring.
  - rewrite !total_weight_cons, IH, weight_scale_first_credit.
    unfold Qc_sum. cbn. ring.
Qed.

Lemma transferred_total q bs cv :
  votes cv ≠ Q2Qc 0 →
  total_weight (transferred q bs cv)
  = (total_weight bs
     - first_place_weight (cand cv) bs * (Qc_of_Z q / votes cv))%Qc.
Proof.
  intros Hv. unfold transferred.
  rewrite total_weight_without, total_weight_scaled. f_equal. f_equal.
  by field.
Qed.

Lemma Qcle_sub_nonneg (x y : Qc) : (x ≤ y)%Qc → (Q2Qc 0 ≤ y - x)%Qc.
Proof. intros H. unfold Qcminus. by apply Qcle_minus_iff in H. Qed.

Lemma Qclt_neq_0 (x : Qc) : (Q2Qc 0 < x)%Qc → x ≠ Q2Qc 0.
Proof. intros H ->. by apply Qclt_not_eq in H. Qed.

Lemma transferred_loses_quota q bs cv :
  (Q2Qc 0 < Qc_of_Z q)%Qc → (Qc_of_Z q ≤ votes cv)%Qc →
  (votes cv ≤ first_place_weight (cand cv) bs)%Qc →
  (total_weight (transferred q bs cv) + Qc_of_Z q ≤ total_weight bs)%Qc.
Proof.
  intros Hq Hqv Hv.
  assert (Q2Qc 0 < votes cv)%Qc as Hpos by by eapply Qclt_le_trans.
  rewrite transferred_total by by apply Qclt_neq_0.
  assert (Qc_of_Z q
          ≤ first_place_weight (cand cv) bs * (Qc_of_Z q / votes cv))%Qc
    as Hloss.
  { replace (Qc_of_Z q) with (votes cv * (Qc_of_Z q / votes cv))%Qc at 1
      by (field; by apply Qclt_neq_0).
    apply Qcmult_le_compat_r; [done|].
    apply Qcdiv_nonneg; [by apply Qclt_le_weak | done]. }
  revert Hloss. generalize (first_place_weight (cand cv) bs
                            * (Qc_of_Z q / votes cv))%Qc.
  generalize (total_weight bs) (Qc_of_Z q). intros t x l Hl.
  replace t with ((t - l) + l)%Qc at 2 by ring.
  by apply Qcplus_le_compat.
Qed.

Lemma transferred_nonneg q bs cv :
  (Q2Qc 0 < Qc_of_Z q)%Qc → (Qc_of_Z q ≤ votes cv)%Qc →
  Forall (λ b, (Q2Qc 0 ≤ weight b)%Qc) bs →
  Forall (λ b, (Q2Qc 0 ≤ weight b)%Qc) (transferred q bs cv).
Proof.
  intros Hq Hqv Hbs. unfold transferred.
  assert (Q2Qc 0 < votes cv)%Qc as Hpos by by eapply Qclt_le_trans.
  apply Forall_fmap, Forall_fmap. eapply Forall_impl; [exact Hbs|].
  intros b Hb. cbn. rewrite weight_scale_first.
  destruct (decide _); [|done].
  apply Qcmult_nonneg_nonneg; [done|].
  apply Qcdiv_nonneg; [by apply Qcle_sub_nonneg | done].
Qed.

Lemma names_first_without c c' b :
  c' ≠ c → names_first c' b → names_first c' (without_cand c b).
Proof.
  intros Hne [rest Hr]. unfold names_first. cbn. rewrite Hr.
  rewrite filter_cons_True; [by eexists|].
  intros Heq. apply Hne. apply (inj (singleton (B := gset string))) in Heq.
  done.
Qed.

Lemma names_first_unique c c' b : names_first c b → names_first c' b → c = c'.
Proof.
  intros [r1 H1] [r2 H2].
  assert (({[ c ]} : gset string) = {[ c' ]}) as Heq by congruence.
  by apply (inj (singleton (B := gset string))) in Heq.
Qed.

Lemma credit_transferred_other q cv c' b :
  c' ≠ cand cv → (Q2Qc 0 ≤ weight b)%Qc →
  (Q2Qc 0 ≤ (votes cv - Qc_of_Z q) / votes cv)%Qc →
  (credit c' b
   ≤ credit c' (without_cand (cand cv)
                  (scale_first (cand cv)
                     ((votes cv - Qc_of_Z q) / votes cv) b)))%Qc.
Proof.
  intros Hne Hb Htv. unfold credit at 1.
  destruct (decide (names_first c' b)) as [Hn|Hn].
  - assert (¬ names_first (cand cv) b) as Hn'.
    { intros H. apply Hne. by eapply names_first_unique. }
    unfold scale_first. rewrite first_is_names_first.
    rewrite bool_decide_eq_false_2 by done.
    unfold credit. rewrite decide_True by by apply names_first_without.
    done.
  - unfold credit. destruct (decide _); [|done]. cbn.
    rewrite weight_scale_first. destruct (decide _); [|done].
    by apply Qcmult_nonneg_nonneg.
Qed.

Lemma Qc_sum_le (f g : Ballot → Qc) bs :
  Forall (λ b, (f b ≤ g b)%Qc) bs → (Qc_sum (f <$> bs) ≤ Qc_sum (g <$> bs))%Qc.
Proof.
  induction 1 as [|b bs Hb Hbs IH]; cbn; [done|].
  by apply Qcplus_le_compat.
Qed.

Lemma first_place_weight_transferred_other q bs cv c' :
  c' ≠ cand cv →
  (Q2Qc 0 < Qc_of_Z q)%Qc → (Qc_of_Z q ≤ votes cv)%Qc →
  Forall (λ b, (Q2Qc 0 ≤ weight b)%Qc) bs →
  (first_place_weight c' bs
   ≤ first_place_weight c' (transferred q bs cv))%Qc.
Proof.
  intros Hne Hq Hqv Hbs.
  assert (Q2Qc 0 < votes cv)%Qc as Hpos by by eapply Qclt_le_trans.
  rewrite !first_place_weight_sum. unfold transferred.
  rewrite <- !list_fmap_compose. apply Qc_sum_le.
  eapply Forall_impl; [exact Hbs|]. intros b Hb. cbn.
  apply credit_transferred_other; [done..|].
  apply Qcdiv_nonneg; [by apply Qcle_sub_nonneg | done].
Qed.

Lemma transferred_all q bs ws :
  (Q2Qc 0 < Qc_of_Z q)%Qc → NoDup (cand <$> ws) →
  Forall (λ cv, (Qc_of_Z q ≤ votes cv)%Qc ∧
                (votes cv ≤ first_place_weight (cand cv) bs)%Qc) ws →
  Forall (λ b, (Q2Qc 0 ≤ weight b)%Qc) bs →
  Forall (λ b, (Q2Qc 0 ≤ weight b)%Qc) (foldl (transferred q) bs ws) ∧
  (total_weight (foldl (transferred q) bs ws)
   + Qc_of_Z (Z.of_nat (length ws)) * Qc_of_Z q ≤ total_weight bs)%Qc.
Proof.
  intros Hq. revert bs.
  induction ws as [|cv ws IH]; intros bs Hnd Hws Hbs.
  - split; [done|]. cbn [foldl length]. change (Z.of_nat 0) with 0.
    rewrite Z2Qc_inj_0.
    replace (total_weight bs + Q2Qc 0 * Qc_of_Z q)%Qc with (total_weight bs)
      by ring. apply Qcle_refl.
  - cbn [fmap list_fmap] in Hnd. apply NoDup_cons in Hnd as [Hcv Hnd].
    apply Forall_cons in Hws as [[Hqv Hv] Hws].
    destruct (IH (transferred q bs cv)) as [Hnn Htot]; [done| |by apply
      transferred_nonneg|].
    { apply Forall_forall. intros cv' Hin.
      rewrite Forall_forall in Hws. destruct (Hws cv' Hin) as [Hq' Hv'].
      split; [done|]. eapply Qcle_trans; [exact Hv'|].
      apply first_place_weight_transferred_other; try done.
      intros Heq. apply Hcv. rewrite <- Heq.
      apply list_elem_of_fmap. eauto. }
    cbn [foldl]. split; [done|].
    pose proof (transferred_loses_quota q bs cv Hq Hqv Hv) as Hloss.
    rewrite length_cons, Nat2Z.inj_succ, <- Z.add_1_r, Z2Qc_inj_add, Z2Qc_inj_1.
    eapply Qcle_trans; [|exact Hloss].
    replace (total_weight (foldl (transferred q) (transferred q bs cv) ws)
             + (Qc_of_Z (Z.of_nat (length ws)) + 1) * Qc_of_Z q)%Qc
      with ((total_weight (foldl (transferred q) (transferred q bs cv) ws)
             + Qc_of_Z (Z.of_nat (length ws)) * Qc_of_Z q) + Qc_of_Z q)%Qc
      by ring.
    apply Qcplus_le_compat; [done|apply Qcle_refl].
Qed.

Lemma on_strs_step {A} (m : M (list (list string)) A) h a sl :
  m (str_lists h) = Ok (a, sl) →
  on_strs m h = Ok (a, mkHeap sl (ballot_lists h)).
Proof. unfold on_strs. by intros ->. Qed.

Lemma on_ballots_step {A} (m : M BallotStore A) h a bl :
  m (ballot_lists h) = Ok (a, bl) →
  on_ballots m h = Ok (a, mkHeap (str_lists h) bl).
Proof. unfold on_ballots. by intros ->. Qed.

Lemma elect_each_fractional self r fp ws b h rem bs :
  transfer self = fractional_transfer →
  str_lists h !! r = Some rem → ballot_lists h !! b = Some bs →
  NoDup (cand <$> ws) →
  Forall (λ cv, cand cv ∈ rem ∧
                votes_map fp !! cand cv = Some (votes cv) ∧
                votes cv ≠ Q2Qc 0) ws →
  ∃ b' h' rem',
    elect_each self r fp (cand <$> ws) b h = Ok (b', h') ∧
    str_lists h' !! r = Some rem' ∧ rem ≡ₚ (cand <$> ws) ++ rem' ∧
    ballot_lists h' !! b' = Some (foldl (transferred (threshold self)) bs ws).
Proof.
  intros Htr. revert b h rem bs.
  induction ws as [|cv ws IH]; intros b h rem bs Hrem Hbs Hnd Hws.
  - exists b, h, rem. done.
  - cbn [fmap list_fmap] in Hnd. apply NoDup_cons in Hnd as [Hcv Hnd].
    apply Forall_cons in Hws as [(Hin & Hv & Hv0) Hws].
    destruct (list_remove_elem _ _ Hin) as [l1 Hrm].
    pose proof (list_remove_Some _ _ _ Hrm) as Hperm.
    assert (r < length (str_lists h))%nat as Hr by by eapply lookup_lt_Some.
    assert (b < length (ballot_lists h))%nat as Hb by by eapply lookup_lt_Some.
    destruct (IH (length (ballot_lists h))
                (mkHeap (<[r := l1]> (str_lists h))
                   (<[b := scale_first (cand cv)
                             ((votes cv - Qc_of_Z (threshold self))
                              / votes cv)%Qc <$> bs]> (ballot_lists h)
                    ++ [transferred (threshold self) bs cv]))
                l1 (transferred (threshold self) bs cv))
      as (b' & h' & rem' & Hrun & Hrem' & Hperm' & Hbs'); [| |done| |].
    { cbn. by apply list_lookup_insert_eq. }
    { cbn. rewrite lookup_app_r by by rewrite length_insert.
      by rewrite length_insert, Nat.sub_diag. }
    { apply Forall_forall. intros cv' Hin'.
      rewrite Forall_forall in Hws.
      destruct (Hws cv' Hin') as (Hin1 & Hv1 & Hv01). split; [|done].
      rewrite Hperm in Hin1. apply elem_of_cons in Hin1 as [Heq|Hin1]; [|done].
      exfalso. apply Hcv. rewrite <- Heq. apply list_elem_of_fmap. eauto. }
    exists b', h', rem'. split_and!; [|done| |done].
    + cbn [fmap list_fmap elect_each].
      erewrite bind_step; last first.
      { apply on_strs_step. by eapply py_remove_step. }
      rewrite Htr.
      erewrite bind_step; last first.
      { apply on_ballots_step. cbn [ballot_lists].
        by apply (fractional_transfer_step _ _ _ _ _ bs (votes cv)). }
      exact Hrun.
    + cbn [fmap list_fmap]. rewrite Hperm, Hperm'. done.
Qed.

Lemma py_min_elem x l : py_min x l ∈ x :: l.
Proof.
  unfold py_min. revert x. induction l as [|y l IH]; intros x; cbn.
  - apply list_elem_of_here.
  - destruct (decide (y < x)%Qc).
    + apply list_elem_of_further, IH.
    + specialize (IH x). apply elem_of_cons in IH as [->|IH].
      * apply list_elem_of_here.
      * by do 2 apply list_elem_of_further.
Qed.

Lemma random_choice_Ok pick (seq : list string) :
  seq ≠ [] → ∃ x, random_choice pick seq = Ok x.
Proof.
  intros Hne. unfold random_choice.
  destruct (lookup_lt_is_Some_2 seq (pick `mod` length seq)%nat) as [x ->].
  - apply Nat.mod_upper_bound. by destruct seq.
  - by exists x.
Qed.

Lemma lowest_nonempty (top : CandidateVotes) rest :
  cand <$> filter (λ cv, votes cv
                         = py_min (votes top) (votes <$> top :: rest))
                  (top :: rest) ≠ [].
Proof.
  pose proof (py_min_elem (votes top) (votes <$> top :: rest)) as Hmin.
  assert (py_min (votes top) (votes <$> top :: rest)
          ∈ votes <$> top :: rest) as Hin.
  { apply elem_of_cons in Hmin as [->|Hmin]; [|done].
    cbn. apply list_elem_of_here. }
  apply list_elem_of_fmap in Hin as (cv & Hcv & Hin).
  intros Hnil. apply fmap_nil_inv in Hnil.
  assert (cv ∈ filter (λ cv, votes cv
                             = py_min (votes top) (votes <$> top :: rest))
                      (top :: rest)) as Hf.
  { apply list_elem_of_filter. done. }
  rewrite Hnil in Hf. by apply elem_of_nil in Hf.
Qed.

(** ** Rational arithmetic *)

Lemma Qc_le_Q (x y : Qc) : (x ≤ y)%Qc ↔ (this x <= this y)%Q.
Proof. done. Qed.

Lemma Qc_lt_Q (x y : Qc) : (x < y)%Qc ↔ (this x < this y)%Q.
Proof. done. Qed.

Lemma this_plus (x y : Qc) : (this (x + y)%Qc == this x + this y)%Q.
Proof. apply Qred_correct. Qed.

Lemma this_mult (x y : Qc) : (this (x * y)%Qc == this x * this y)%Q.
Proof. apply Qred_correct. Qed.

Lemma this_0 : (this (Q2Qc 0) == 0)%Q.
Proof. done. Qed.

(** Linear goals over [Qc], sent to [lra] over [Q]. *)
Ltac Qc_lra :=
  rewrite ?Qc_le_Q, ?Qc_lt_Q in *;
  repeat match goal with
  | H : context [this (_ + _)%Qc] |- _ => rewrite this_plus in H
  | H : context [this (_ * _)%Qc] |- _ => rewrite this_mult in H
  | H : context [this (Q2Qc 0)] |- _ => rewrite this_0 in H
  | |- context [this (_ + _)%Qc] => rewrite this_plus
  | |- context [this (_ * _)%Qc] => rewrite this_mult
  | |- context [this (Q2Qc 0)] => rewrite this_0
  end; lra.

Lemma quota_accumulates (T tot tot' : Qc) (w k q : Z) :
  (tot' + Qc_of_Z k * Qc_of_Z q ≤ tot)%Qc →
  (tot + Qc_of_Z w * Qc_of_Z q ≤ T)%Qc →
  (tot' + Qc_of_Z (w + k) * Qc_of_Z q ≤ T)%Qc.
Proof. intros H1 H2. rewrite Z2Qc_inj_add. Qc_lra. Qed.

Lemma quota_bounds_winners (T tot : Qc) (w s q : Z) :
  0 < q → (Q2Qc 0 ≤ tot)%Qc →
  (tot + Qc_of_Z w * Qc_of_Z q ≤ T)%Qc →
  (T < Qc_of_Z (s + 1) * Qc_of_Z q)%Qc → w ≤ s.
Proof.
  intros Hq Htot H1 H2.
  assert (Qc_of_Z (w * q) < Qc_of_Z ((s + 1) * q))%Qc as H.
  { rewrite !Z2Qc_inj_mul. Qc_lra. }
  apply Z2Qc_inj_lt in H. nia.
Qed.

Lemma Qc_of_Z_pos (z : Z) : 0 < z → (Q2Qc 0 < Qc_of_Z z)%Qc.
Proof. intros H. rewrite <- Z2Qc_inj_0. by apply (proj1 (Z2Qc_inj_lt _ _)). Qed.

Lemma droop_quota_exceeds (T : Qc) (s : Z) :
  (Q2Qc 0 ≤ T)%Qc → 0 ≤ s →
  0 < py_int (T / Qc_of_Z (s + 1) + 1)%Qc ∧
  (T < Qc_of_Z (s + 1)
       * Qc_of_Z (py_int (T / Qc_of_Z (s + 1) + 1)%Qc))%Qc.
Proof.
  intros HT Hs.
  assert (Q2Qc 0 < Qc_of_Z (s + 1))%Qc as Hs1 by (apply Qc_of_Z_pos; lia).
  assert (Q2Qc 0 ≤ T / Qc_of_Z (s + 1))%Qc as Hx by by apply Qcdiv_nonneg.
  rewrite py_int_succ_floor by done.
  set (x := (T / Qc_of_Z (s + 1))%Qc) in *.
  assert (0 ≤ Qfloor x) as Hfl.
  { change 0 with (Qfloor 0). by apply Qfloor_resp_le. }
  split; [lia|].
  assert (x < Qc_of_Z (Qfloor x + 1))%Qc as Hlt.
  { apply Qc_lt_Q. unfold Qc_of_Z. cbn [this Q2Qc].
    rewrite ?Qred_correct. apply Qlt_floor. }
  replace T with (Qc_of_Z (s + 1) * x)%Qc at 1.
  - rewrite (Qcmult_comm _ x), (Qcmult_comm _ (Qc_of_Z (Qfloor x + 1))).
    by apply Qcmult_lt_compat_r.
  - unfold x. field. by apply Qclt_neq_0.
Qed.

(** ** Progress of an election with fractional transfer *)

Lemma run_step_from_branches e pick h rem bs el elim r1 b1 h1 rem1 bs1 :
  str_lists h !! remaining (election_state e) = Some rem →
  ballot_lists h !! profile (election_state e) = Some bs →
  round_branches e pick (remaining (election_state e))
    (profile (election_state e)) rem (compute_votes rem bs) h
  = Ok ((el, elim, r1, b1), h1) →
  str_lists h1 !! r1 = Some rem1 → ballot_lists h1 !! b1 = Some bs1 →
  run_step e pick h
  = Ok (mkSTV (init_profile e) (transfer e) (seats e)
          (mkElectionState (curr_round (election_state e) + 1)
             el elim (length (str_lists h1)) (length (ballot_lists h1))
             (Some (election_state e)))
          (threshold e),
        mkHeap (str_lists h1 ++ [rem1]) (ballot_lists h1 ++ [bs1])).
Proof.
  intros Hrem Hbs Hbr Hrem1 Hbs1.
  eapply run_step_of_action; [|done..].
  by rewrite (round_action_eq _ _ _ rem bs).
Qed.

Lemma election_inv_next T n e h h1 el elim rem1 bs1 :
  election_inv T n (e, h) →
  curr_round (election_state e) + 1 ≤ Z.of_nat n →
  Z.of_nat (length (get_all_winners (election_state e)))
  + Z.of_nat (length el) ≤ seats e →
  (Z.of_nat (length (get_all_winners (election_state e)))
   + Z.of_nat (length el) < seats e →
   NoDup rem1 ∧
   Forall (λ b, (Q2Qc 0 ≤ weight b)%Qc) bs1 ∧
   (total_weight bs1
    + Qc_of_Z (Z.of_nat (length (get_all_winners (election_state e)))
               + Z.of_nat (length el)) * Qc_of_Z (threshold e) ≤ T)%Qc ∧
   seats e ≤ Z.of_nat (length (get_all_winners (election_state e)))
             + Z.of_nat (length el) + Z.of_nat (length rem1) ∧
   curr_round (election_state e) + 1 + Z.of_nat (length rem1) ≤ Z.of_nat n) →
  election_inv T n
    (mkSTV (init_profile e) (transfer e) (seats e)
       (mkElectionState (curr_round (election_state e) + 1)
          el elim (length (str_lists h1)) (length (ballot_lists h1))
          (Some (election_state e)))
       (threshold e),
     mkHeap (str_lists h1 ++ [rem1]) (ballot_lists h1 ++ [bs1])).
Proof.
  intros (Htr & Hq & HT & _) Hround Hw Hopen.
  unfold election_inv. cbn. rewrite length_app, Nat2Z.inj_add.
  split_and!; try done.
  intros Hlt. destruct (Hopen Hlt) as (Hnd & Hnn & Hwt & Hseats & Hrounds).
  exists rem1, bs1. cbn. rewrite length_app, Nat2Z.inj_add.
  split_and!; try done; apply lookup_new.
Qed.

Lemma at_quota_NoDup thr fp :
  NoDup (cand <$> fp) → NoDup (cand <$> at_quota thr fp).
Proof.
  unfold at_quota. induction fp as [|cv fp IH]; [done|].
  cbn [fmap list_fmap]. intros [Hcv Hnd]%NoDup_cons.
  rewrite filter_cons. destruct (decide _); [|by apply IH].
  cbn [fmap list_fmap]. apply NoDup_cons. split; [|by apply IH].
  intros Hin. apply Hcv.
  apply list_elem_of_fmap in Hin as (cv' & -> & Hin).
  apply list_elem_of_filter in Hin as [_ Hin].
  apply list_elem_of_fmap. eauto.
Qed.

Lemma run_step_progress T n e h pick :
  election_inv T n (e, h) → next_round e = true →
  ∃ e' h', run_step e pick h = Ok (e', h') ∧ election_inv T n (e', h').
Proof.
  intros Hinv Hnext.
  pose proof Hinv as (Htr & Hq & HT & Hround & Hw & Hopen). cbn in *.
  pose proof Hnext as Hne. apply bool_decide_eq_true in Hne.
  destruct Hopen
    as (rem & bs & Hrem & Hbs & Hnd & Hnn & Hwt & Hseats & Hrounds); [lia|].
  cbn in *.
  pose proof (compute_votes_Permutation rem bs Hnd) as Hperm.
  pose proof (compute_votes_NoDup rem bs) as Hfpnd.
  pose proof (compute_votes_values rem bs) as Hvals.
  rewrite Forall_forall in Hvals.
  pose proof (Permutation_length Hperm) as Hlen. rewrite length_fmap in Hlen.
  destruct (decide (Z.of_nat (length rem)
                    = seats e -
                      Z.of_nat (length (get_all_winners (election_state e)))))
    as [Hmass|Hmass].
  - (* everyone left is elected *)
    eexists _, _. split.
    + eapply (run_step_from_branches _ _ _ rem bs); [done|done| | |].
      * unfold round_branches. rewrite decide_True by done. reflexivity.
      * apply lookup_new.
      * apply lookup_new.
    + apply (election_inv_next T n e h); [done| | |];
        rewrite ?length_fmap; lia.
  - destruct (compute_votes rem bs) as [|top rest] eqn:Hfp.
    { cbn in Hlen. lia. }
    destruct (decide (Qc_of_Z (threshold e) ≤ votes top)%Qc) as [Hqt|Hqt].
    + (* the candidates at or above the threshold are elected *)
      set (ws := at_quota (threshold e) (top :: rest)).
      assert (∀ cv, cv ∈ ws →
                cv ∈ top :: rest ∧ (Qc_of_Z (threshold e) ≤ votes cv)%Qc)
        as Hws.
      { intros cv [? ?]%list_elem_of_filter. done. }
      assert (Q2Qc 0 < Qc_of_Z (threshold e))%Qc as Hqpos
        by by apply Qc_of_Z_pos.
      destruct (elect_each_fractional e (remaining (election_state e))
                  (top :: rest) ws (profile (election_state e)) h rem bs)
        as (b' & h1 & rem' & Hrun & Hrem' & Hperm' & Hbs'); [done..| | |].
      { by apply at_quota_NoDup. }
      { apply Forall_forall. intros cv Hcv.
        destruct (Hws cv Hcv) as [Hin Hqv]. split_and!.
        - rewrite <- Hperm. apply list_elem_of_fmap. eauto.
        - by apply votes_map_lookup.
        - apply Qclt_neq_0. by eapply Qclt_le_trans. }
      destruct (transferred_all (threshold e) bs ws) as [Hnn' Htot'];
        [done|by apply at_quota_NoDup| |done|].
      { apply Forall_forall. intros cv Hcv.
        destruct (Hws cv Hcv) as [Hin Hqv]. split; [done|].
        rewrite (Hvals cv Hin). apply Qcle_refl. }
      assert (length ws = S (length (at_quota (threshold e) rest))) as Hk.
      { unfold ws, at_quota. by rewrite filter_cons_True. }
      assert (length rem = (length ws + length rem')%nat) as Hsplit.
      { rewrite (Permutation_length Hperm'), length_app, length_fmap. done. }
      pose proof (quota_accumulates _ _ _ _ _ _ Htot' Hwt) as Hacc.
      rewrite <- Nat2Z.inj_add in Hacc.
      assert (Z.of_nat (length (get_all_winners (election_state e))
                        + length ws) ≤ seats e) as Hbound.
      { eapply quota_bounds_winners; [exact Hq| |exact Hacc|exact HT].
        by apply total_weight_nonneg. }
      eexists _, _. split.
      * eapply (run_step_from_branches _ _ _ rem bs); [done|done| | |].
        -- rewrite Hfp.
           rewrite (round_branches_elect _ _ _ _ _ _ top rest) by done.
           fold ws. rewrite (bind_step _ _ _ _ _ Hrun). reflexivity.
        -- exact Hrem'.
        -- exact Hbs'.
      * apply (election_inv_next T n e h); [done|..];
          rewrite ?length_fmap; [lia|lia|].
        intros Hlt. split_and!; [|done| |lia|lia].
        -- rewrite Hperm' in Hnd. by apply NoDup_app in Hnd as (_ & _ & ?).
        -- by rewrite <- Nat2Z.inj_add.
    + (* a candidate with the lowest tally is eliminated *)
      set (lpc := cand <$> filter
                    (λ cv, votes cv
                           = py_min (votes top) (votes <$> top :: rest))
                    (top :: rest)).
      destruct (random_choice_Ok pick lpc (lowest_nonempty top rest))
        as [lp Hrc].
      assert (lp ∈ rem) as Hlp.
      { apply random_choice_elem in Hrc. rewrite <- Hperm.
        apply list_elem_of_fmap in Hrc as (cv & -> & Hcv).
        apply list_elem_of_filter in Hcv as [_ Hcv].
        apply list_elem_of_fmap. eauto. }
      destruct (list_remove_elem _ _ Hlp) as [l1 Hrm].
      pose proof (list_remove_Some _ _ _ Hrm) as Hperm1.
      assert (length rem = S (length l1)) as Hlen1
        by by rewrite (Permutation_length Hperm1).
      assert (remaining (election_state e) < length (str_lists h))%nat
        as Hr by by eapply lookup_lt_Some.
      eexists _, _. split.
      * eapply (run_step_from_branches _ _ _ rem bs); [done|done| | |].
        -- rewrite Hfp. unfold round_branches.
           rewrite decide_False by done. rewrite decide_False by done.
           rewrite Hnext. cbv zeta. fold lpc. rewrite Hrc.
           rewrite (bind_step _ _ _ lp h) by done.
           rewrite (bind_step _ _ _ _ _
                      (on_ballots_step _ _ _ _
                         (remove_cand_step lp _ _ _ Hbs))).
           rewrite (bind_step _ _ _ _ _
                      (on_strs_step _ (mkHeap (str_lists h) _) _ _
                         (py_remove_step _ lp _ _ _ Hrem Hrm))).
           reflexivity.
        -- cbn. by apply list_lookup_insert_eq.
        -- cbn. apply lookup_new.
      * apply (election_inv_next T n e h); [done|..]; cbn [length];
          [lia|lia|].
        intros Hlt. split_and!; [| | |lia|lia].
        -- rewrite Hperm1 in Hnd. by apply NoDup_cons in Hnd as [_ ?].
        -- apply Forall_fmap. eapply Forall_impl; [exact Hnn|]. done.
        -- rewrite total_weight_without, Z.add_0_r. done.
Qed.

Lemma election_loop_returns T n fuel picks k e h :
  election_inv T n (e, h) →
  Z.of_nat n - curr_round (election_state e) ≤ Z.of_nat fuel →
  ∃ e' h',
    election_loop fuel picks k e h = Ok (Some e', h') ∧
    next_round e' = false ∧
    curr_round (election_state e') ≤ Z.of_nat n ∧
    rounds (e, h) (e', h').
Proof.
  revert k e h. induction fuel as [|fuel IH]; intros k e h Hinv Hfuel;
    cbn [election_loop]; destruct (next_round e) eqn:Hnext.
  - exfalso. pose proof Hnext as Hne. apply bool_decide_eq_true in Hne.
    destruct Hinv as (_ & _ & _ & _ & Hw & Hopen). cbn in *.
    destruct Hopen as (rem & bs & _ & _ & _ & _ & _ & Hseats & Hrounds);
      [lia|]. cbn in *. lia.
  - exists e, h. destruct Hinv as (_ & _ & _ & Hround & _).
    split_and!; [done..|apply rounds_refl].
  - destruct (run_step_progress T n e h (picks k) Hinv Hnext)
      as (e1 & h1 & Hstep & Hinv1).
    pose proof (run_step_fields _ _ _ _ _ Hstep) as (_ & _ & _ & _ & _ & Hcr).
    destruct (IH (S k) e1 h1 Hinv1) as (e' & h' & Hloop & Hdone & Hle & Hr);
      [lia|].
    exists e', h'. rewrite (bind_step _ _ _ _ _ Hstep).
    split_and!; [done..|]. by eapply rounds_step.
  - exists e, h. destruct Hinv as (_ & _ & _ & Hround & _).
    split_and!; [done..|apply rounds_refl].
Qed.

Lemma STV_init_election_inv profile nseats h bs :
  ballot_lists h !! profile = Some bs →
  Forall (λ b, (Q2Qc 0 ≤ weight b)%Qc) bs →
  0 < nseats ≤ Z.of_nat (length (get_candidates bs)) →
  ∃ e h0,
    STV_init profile fractional_transfer nseats h = Ok (e, h0) ∧
    seats e = nseats ∧
    get_all_winners (election_state e) = [] ∧
    curr_round (election_state e) = 0 ∧
    election_inv (total_weight bs) (length (get_candidates bs)) (e, h0).
Proof.
  intros Hbs Hnn [Hs Hsn].
  pose proof (compute_votes_Permutation (get_candidates bs) bs
                (get_candidates_NoDup bs)) as Hperm.
  destruct (droop_quota_exceeds (total_weight bs) nseats) as [Hq HT];
    [by apply total_weight_nonneg|lia|].
  eexists _, _. split; [apply (STV_init_Ok _ _ _ _ bs); [done|lia]|].
  split_and!; [done..|].
  unfold election_inv. cbn. rewrite num_ballots_total.
  split_and!; [done|done|done|lia|lia|]. intros _.
  exists (cand <$> compute_votes (get_candidates bs) bs), bs. cbn.
  split_and!.
  - apply lookup_new.
  - done.
  - apply compute_votes_NoDup.
  - done.
  - rewrite ?num_ballots_total. change (Z.of_nat 0) with 0.
    rewrite Z2Qc_inj_0.
    replace (total_weight bs + Q2Qc 0 * _)%Qc with (total_weight bs) by ring.
    apply Qcle_refl.
  - rewrite Hperm. lia.
  - rewrite Hperm. lia.
Qed.

(** C9. An election run with fractional transfer on a profile with
    non-negative weights, for a positive number of seats that is at most
    the number of candidates, terminates whatever the draws of the
    tie-breaks: [run_election] returns, after at most as many rounds as
    there are candidates, a record for which [next_round()] is false, the
    number of winners being the number of seats. *)
Theorem election_terminates (profile : loc) (nseats : Z) (h : Heap)
    (bs : list Ballot) (picks : nat → nat) :
  ballot_lists h !! profile = Some bs →
  Forall (λ b, (Q2Qc 0 ≤ weight b)%Qc) bs →
  0 < nseats ≤ Z.of_nat (length (get_candidates bs)) →
  ∃ e h0 e' h',
    STV_init profile fractional_transfer nseats h = Ok (e, h0) ∧
    run_election (length (get_candidates bs)) picks e h0
    = Ok (Some (election_state e'), h') ∧
    rounds (e, h0) (e', h') ∧
    next_round e' = false ∧
    Z.of_nat (length (get_all_winners (election_state e'))) = nseats ∧
    curr_round (election_state e') ≤ Z.of_nat (length (get_candidates bs)).
Proof.
  intros Hbs Hnn Hseats.
  destruct (STV_init_election_inv profile nseats h bs Hbs Hnn Hseats)
    as (e & h0 & Hinit & Hs & Hw & Hcr & Hinv).
  destruct (election_loop_returns _ _ (length (get_candidates bs)) picks
              0%nat e h0 Hinv) as (e' & h' & Hloop & Hdone & Hle & Hr).
  { rewrite Hcr. lia. }
  exists e, h0, e', h'. split_and!; try done.
  - unfold run_election.
    assert (next_round e = true) as ->.
    { unfold next_round. rewrite Hw, Hs. apply bool_decide_eq_true.
      cbn. lia. }
    by rewrite (bind_step _ _ _ _ _ Hloop).
  - apply rounds_fields in Hr as (_ & _ & Hs' & _).
    unfold next_round in Hdone. apply bool_decide_eq_false in Hdone.
    rewrite <- Hs, <- Hs'. by apply dec_stable.
Qed.

Lemma election_terminates_witness :
  ∃ e h0 e' h',
    STV_init 0%nat fractional_transfer 1 test_heap = Ok (e, h0) ∧
    run_election (length (get_candidates test_ballots)) (λ _, 0%nat) e h0
    = Ok (Some (election_state e'), h') ∧
    next_round e' = false.
Proof.
  destruct (election_terminates 0%nat 1 test_heap test_ballots (λ _, 0%nat)
              eq_refl test_ballots_nonneg)
    as (e & h0 & e' & h' & Hinit & Hrun & _ & Hdone & _).
  - vm_compute. split; [reflexivity | discriminate].
  - exists e, h0, e', h'. split_and!; [exact Hinit|exact Hrun|exact Hdone].
Defined.

(** * Further properties of the code *)

(** ** Histories *)

Lemma chain_cons_previous r el elim rem prof p :
  chain (mkElectionState r el elim rem prof (Some p))
  = mkElectionState r el elim rem prof (Some p) :: chain p.
Proof. done. Qed.

(** [get_all_winners()] lists the [elected] lists of the chain from the
    first round to the current one, each in its own order. *)
Theorem get_all_winners_chronological (s : ElectionState) :
  get_all_winners s = mjoin (elected <$> reverse (chain s)).
Proof.
  induction s as [r el elim rem prof | r el elim rem prof p IH]
    using ElectionState_chain_ind.
  - cbn. by rewrite app_nil_r.
  - rewrite chain_cons_previous, reverse_cons, fmap_app, join_app.
    cbn [get_all_winners]. rewrite IH. cbn. by rewrite app_nil_r.
Qed.

(** [get_all_eliminated()] is the reverse of the [eliminated] lists of the
    chain taken from the first round to the current one: the candidate
    eliminated last comes first. *)
Theorem get_all_eliminated_reverse_chronological (s : ElectionState) :
  get_all_eliminated s = reverse (mjoin (eliminated <$> reverse (chain s))).
Proof.
  induction s as [r el elim rem prof | r el elim rem prof p IH]
    using ElectionState_chain_ind.
  - cbn. by rewrite app_nil_r.
  - rewrite chain_cons_previous, reverse_cons, fmap_app, join_app.
    cbn [get_all_eliminated]. rewrite IH, reverse_app. cbn.
    by rewrite app_nil_r.
Qed.

(** ** [changed_rankings] *)

Lemma odict_set_keys {V} k (v : V) d :
  (odict_set k v d).*1 = if decide (k ∈ d.*1) then d.*1 else d.*1 ++ [k].
Proof.
  induction d as [|[k' v'] d IH]; cbn; [done|].
  destruct (decide (k = k')) as [->|Hne]; cbn.
  - rewrite decide_True by apply list_elem_of_here. done.
  - rewrite IH. destruct (decide (k ∈ d.*1)) as [Hin|Hin].
    + rewrite decide_True by by apply list_elem_of_further. done.
    + rewrite decide_False; [done|].
      intros [?|?]%elem_of_cons; done.
Qed.

Lemma odict_set_absent {V} k (v : V) d :
  k ∉ d.*1 → odict_set k v d = d ++ [(k, v)].
Proof.
  induction d as [|[k' v'] d IH]; cbn; [done|].
  intros [Hne Hin]%not_elem_of_cons.
  rewrite decide_False by done. by rewrite IH.
Qed.

Lemma odict_get_None {V} k (d : list (string * V)) :
  odict_get k d = None ↔ k ∉ d.*1.
Proof.
  induction d as [|[k' v'] d IH]; cbn.
  - split; [intros _; apply not_elem_of_nil|done].
  - rewrite not_elem_of_cons. destruct (decide (k = k')) as [->|Hne].
    + split; [done|]. by intros [? _].
    + rewrite IH. tauto.
Qed.

Lemma odict_get_Some {V} k (v : V) d :
  NoDup d.*1 → odict_get k d = Some v ↔ (k, v) ∈ d.
Proof.
  induction d as [|[k' v'] d IH]; cbn.
  - intros _. split; [done|]. by intros ?%elem_of_nil.
  - intros [Hk' Hnd]%NoDup_cons. rewrite elem_of_cons.
    destruct (decide (k = k')) as [->|Hne].
    + split.
      * intros [= ->]. by left.
      * intros [[= ->]|Hin]; [done|]. exfalso. apply Hk'.
        apply list_elem_of_fmap. by exists (k', v).
    + rewrite (IH Hnd). split; [tauto|]. intros [[= -> ->]|?]; done.
Qed.

Lemma list_to_map_odict_get k (d : list (string * nat)) :
  (list_to_map d : gmap string nat) !! k = odict_get k d.
Proof.
  induction d as [|[k' v'] d IH]; cbn; [done|].
  destruct (decide (k = k')) as [->|Hne].
  - by rewrite lookup_insert_eq.
  - rewrite lookup_insert_ne by done. exact IH.
Qed.

Lemma elem_of_enumerate start l i c :
  (i, c) ∈ enumerate start l ↔
  ∃ j, i = (start + j)%nat ∧ l !! j = Some c.
Proof.
  revert start. induction l as [|x l IH]; intros start; cbn.
  - rewrite elem_of_nil. split; [done|]. by intros (j & _ & ?).
  - rewrite elem_of_cons, IH. split.
    + intros [[= -> ->]|(j & -> & Hj)].
      * exists 0%nat. split; [lia|done].
      * exists (S j). split; [lia|done].
    + intros ([|j] & -> & Hj).
      * left. cbn in Hj. injection Hj as ->. f_equal. lia.
      * right. exists j. split; [lia|done].
Qed.

Lemma enumerate_snd start l : (enumerate start l).*2 = l.
Proof.
  revert start. induction l as [|x l IH]; intros start; cbn; [done|].
  by rewrite IH.
Qed.

Lemma ranking_dict_acc_keys (d : list (string * nat)) items c :
  c ∈ (foldl (λ d ic, odict_set ic.2 ic.1 d) d items).*1 ↔
  c ∈ d.*1 ∨ c ∈ items.*2.
Proof.
  revert d. induction items as [|[i x] items IH]; intros d; cbn.
  - rewrite elem_of_nil. tauto.
  - rewrite IH, odict_set_keys, elem_of_cons.
    destruct (decide (x ∈ d.*1)).
    + split; [tauto|]. intros [?|[->|?]]; tauto.
    + rewrite elem_of_app, list_elem_of_singleton. tauto.
Qed.

Lemma ranking_dict_keys l c : c ∈ (ranking_dict l).*1 ↔ c ∈ l.
Proof.
  unfold ranking_dict. rewrite ranking_dict_acc_keys, enumerate_snd.
  cbn. rewrite elem_of_nil. tauto.
Qed.

Lemma ranking_dict_acc_NoDup (d : list (string * nat)) items :
  NoDup d.*1 → NoDup (foldl (λ d ic, odict_set ic.2 ic.1 d) d items).*1.
Proof.
  revert d. induction items as [|[i x] items IH]; intros d Hnd; cbn; [done|].
  apply IH. rewrite odict_set_keys. destruct (decide (x ∈ d.*1)); [done|].
  apply NoDup_app. split_and!; [done| |apply NoDup_singleton].
  intros y Hy ->%list_elem_of_singleton. done.
Qed.

Lemma ranking_dict_NoDup l : NoDup (ranking_dict l).*1.
Proof. apply ranking_dict_acc_NoDup. constructor. Qed.

Lemma ranking_dict_acc_eq (d : list (string * nat)) start l :
  NoDup (d.*1 ++ l) →
  foldl (λ d ic, odict_set ic.2 ic.1 d) d (enumerate start l)
  = d ++ ((λ ic, (ic.2, ic.1)) <$> enumerate start l).
Proof.
  revert d start. induction l as [|x l IH]; intros d start Hnd; cbn.
  - by rewrite app_nil_r.
  - assert (x ∉ d.*1) as Hx.
    { apply NoDup_app in Hnd as (_ & Hdis & _). intros Hin.
      apply (Hdis x Hin). apply list_elem_of_here. }
    rewrite (odict_set_absent _ _ _ Hx), IH.
    + by rewrite <- app_assoc.
    + rewrite fmap_app. cbn. by rewrite <- app_assoc.
Qed.

Lemma elem_of_ranking_dict l c j :
  NoDup l → (c, j) ∈ ranking_dict l ↔ l !! j = Some c.
Proof.
  intros Hnd. unfold ranking_dict.
  rewrite ranking_dict_acc_eq by done. cbn.
  rewrite list_elem_of_fmap. split.
  - intros ([i x] & [= -> ->] & Hin).
    apply elem_of_enumerate in Hin as (j & -> & Hj). done.
  - intros Hj. exists (j, c). split; [done|].
    apply elem_of_enumerate. by exists j.
Qed.

Lemma odict_get_ranking_dict l c i :
  NoDup l → odict_get c (ranking_dict l) = Some i ↔ l !! i = Some c.
Proof.
  intros Hnd. rewrite (odict_get_Some _ _ _ (ranking_dict_NoDup l)).
  by apply elem_of_ranking_dict.
Qed.

Lemma changes_loop_KeyError prev items acc c j :
  (c, j) ∈ items → odict_get c prev = None →
  changes_loop prev items acc = Raise KeyError.
Proof.
  revert acc. induction items as [|[c' j'] items IH]; intros acc Hin Hc.
  - by apply elem_of_nil in Hin.
  - cbn. apply elem_of_cons in Hin as [[= <- <-]|Hin].
    + by rewrite Hc.
    + destruct (odict_get c' prev) as [i|]; [|done].
      destruct (decide (i ≠ j')); by apply IH.
Qed.

Lemma changes_loop_Ok prev items acc :
  (∀ c j, (c, j) ∈ items → is_Some (odict_get c prev)) →
  NoDup items.*1 → NoDup acc.*1 →
  (∀ c, c ∈ acc.*1 → c ∉ items.*1) →
  ∃ d, changes_loop prev items acc = Ok d ∧ NoDup d.*1 ∧
       ∀ c i j, (c, (i, j)) ∈ d ↔
                (c, (i, j)) ∈ acc ∨
                ((c, j) ∈ items ∧ odict_get c prev = Some i ∧ i ≠ j).
Proof.
  revert acc. induction items as [|[c' j'] items IH];
    intros acc Hall Hnd Hacc Hdis.
  - exists acc. split_and!; [done..|]. intros c i j.
    rewrite elem_of_nil. tauto.
  - cbn [fmap list_fmap] in Hnd. apply NoDup_cons in Hnd as [Hc' Hnd].
    destruct (Hall c' j') as [i' Hi']; [apply list_elem_of_here|].
    assert (c' ∉ acc.*1) as Hfresh.
    { intros Hin. apply (Hdis c' Hin). apply list_elem_of_here. }
    cbn [changes_loop]. rewrite Hi'.
    destruct (decide (i' ≠ j')) as [Hne|Heq].
    + destruct (IH (odict_set c' (i', j') acc)) as (d & Hd & Hdnd & Hchar).
      * intros c j Hin. apply (Hall c j). by apply list_elem_of_further.
      * done.
      * rewrite odict_set_keys, decide_False by done.
        apply NoDup_app. split_and!; [done| |apply NoDup_singleton].
        intros y Hy ->%list_elem_of_singleton. done.
      * intros c. rewrite odict_set_keys, decide_False by done.
        intros [Hin| ->%list_elem_of_singleton]%elem_of_app; [|done].
        intros Hc. apply (Hdis c Hin). by apply list_elem_of_further.
      * exists d. split_and!; [done..|]. intros c i j.
        rewrite Hchar, (odict_set_absent _ _ _ Hfresh), elem_of_app,
          list_elem_of_singleton, elem_of_cons.
        split.
        -- intros [[?|[= -> -> ->]]|(? & ? & ?)]; [tauto| |tauto].
           right. split_and!; [by left|done..].
        -- intros [?|([[= -> ->]|?] & Hget & ?)]; [tauto| |tauto].
           rewrite Hi' in Hget. injection Hget as ->. tauto.
    + apply dec_stable in Heq as ->.
      destruct (IH acc) as (d & Hd & Hdnd & Hchar); [|done..| |].
      * intros c j Hin. apply (Hall c j). by apply list_elem_of_further.
      * intros c Hin Hc. apply (Hdis c Hin). by apply list_elem_of_further.
      * exists d. split_and!; [done..|]. intros c i j.
        rewrite Hchar, elem_of_cons. split; [tauto|].
        intros [?|([[= -> ->]|?] & Hget & Hne)]; [tauto| |tauto].
        rewrite Hi' in Hget. by injection Hget as ->.
Qed.

Lemma changed_rankings_unfold self prev sl pr cr :
  previous self = Some prev →
  get_rankings prev sl = Ok (pr, sl) →
  get_rankings self sl = Ok (cr, sl) →
  changed_rankings self sl
  = if dict_eqb (ranking_dict cr) (ranking_dict pr) then Ok ([], sl)
    else lift (changes_loop (ranking_dict pr) (ranking_dict cr) []) sl.
Proof.
  intros Hprev Hpr Hcr. unfold changed_rankings. rewrite Hprev.
  rewrite (bind_step _ _ _ _ _ Hpr), (bind_step _ _ _ _ _ Hcr).
  by destruct (dict_eqb _ _).
Qed.

Lemma changed_rankings_missing self prev sl pr cr c :
  previous self = Some prev →
  get_rankings prev sl = Ok (pr, sl) →
  get_rankings self sl = Ok (cr, sl) →
  c ∈ cr → c ∉ pr →
  changed_rankings self sl = Raise KeyError.
Proof.
  intros Hprev Hpr Hcr Hin Hout.
  rewrite (changed_rankings_unfold _ _ _ pr cr) by done.
  assert (odict_get c (ranking_dict pr) = None) as Hnone.
  { apply odict_get_None. by rewrite ranking_dict_keys. }
  assert (∃ j, (c, j) ∈ ranking_dict cr) as [j Hj].
  { apply ranking_dict_keys in Hin.
    apply list_elem_of_fmap in Hin as ([c' j] & -> & Hin). by exists j. }
  unfold dict_eqb. rewrite bool_decide_eq_false_2.
  - unfold lift. by rewrite (changes_loop_KeyError _ _ _ c j).
  - intros Heq.
    assert (odict_get c (ranking_dict cr) = None) as Hnone'.
    { by rewrite <- list_to_map_odict_get, Heq, list_to_map_odict_get. }
    apply odict_get_None in Hnone'. apply Hnone'.
    apply list_elem_of_fmap. by exists (c, j).
Qed.

Lemma get_rankings_step self (sl : list (list string)) rem :
  sl !! remaining self = Some rem →
  get_rankings self sl
  = Ok (get_all_winners self ++ rem ++ get_all_eliminated self, sl).
Proof.
  intros Hrem. unfold get_rankings.
  by rewrite (bind_step _ _ _ _ _ (store_get_step _ _ _ Hrem)).
Qed.

(** When the two rankings have no duplicates and every candidate of the
    current one is in the previous one, [changed_rankings()] returns a dict
    with one entry for each candidate whose position differs, giving its
    previous and its current position, and no other entry. *)
Theorem changed_rankings_lists_moves
    (self prev : ElectionState) (sl : list (list string))
    (pr cr : list string) :
  previous self = Some prev →
  get_rankings prev sl = Ok (pr, sl) →
  get_rankings self sl = Ok (cr, sl) →
  NoDup pr → NoDup cr → (∀ c, c ∈ cr → c ∈ pr) →
  ∃ d, changed_rankings self sl = Ok (d, sl) ∧ NoDup d.*1 ∧
       ∀ c i j, (c, (i, j)) ∈ d ↔
                pr !! i = Some c ∧ cr !! j = Some c ∧ i ≠ j.
Proof.
  intros Hprev Hpr Hcr Hndp Hndc Hsub.
  rewrite (changed_rankings_unfold _ _ _ pr cr) by done.
  destruct (dict_eqb _ _) eqn:Heq.
  - exists []. split_and!; [done|constructor|]. intros c i j.
    rewrite elem_of_nil. split; [done|]. intros (Hi & Hj & Hne).
    apply bool_decide_eq_true in Heq. apply Hne.
    apply (odict_get_ranking_dict _ _ _ Hndp) in Hi.
    apply (odict_get_ranking_dict _ _ _ Hndc) in Hj.
    rewrite <- list_to_map_odict_get, Heq, list_to_map_odict_get, Hi in Hj.
    by injection Hj.
  - destruct (changes_loop_Ok (ranking_dict pr) (ranking_dict cr) [])
      as (d & Hd & Hdnd & Hchar).
    + intros c j Hin. apply (elem_of_ranking_dict _ _ _ Hndc) in Hin.
      apply list_elem_of_lookup_2, Hsub, list_elem_of_lookup_1 in Hin
        as [i Hi].
      exists i. by apply odict_get_ranking_dict.
    + apply ranking_dict_NoDup.
    + constructor.
    + intros c Hc. by apply elem_of_nil in Hc.
    + exists d. unfold lift. rewrite Hd. split_and!; [done..|].
      intros c i j. rewrite Hchar, elem_of_nil.
      rewrite (elem_of_ranking_dict _ _ _ Hndc),
        (odict_get_ranking_dict _ _ _ Hndp). tauto.
Qed.

Lemma changed_rankings_lists_moves_witness :
  ∃ d, changed_rankings record_1 record_strs = Ok (d, record_strs) ∧
       ∀ c i j, (c, (i, j)) ∈ d ↔
                ["A"; "B"; "C"] !! i = Some c ∧
                ["B"; "A"; "C"] !! j = Some c ∧ i ≠ j.
Proof.
  destruct (changed_rankings_lists_moves record_1 record_0 record_strs
              ["A"; "B"; "C"] ["B"; "A"; "C"] eq_refl eq_refl eq_refl)
    as (d & Hrun & _ & Hchar).
  - by apply (bool_decide_unpack _).
  - by apply (bool_decide_unpack _).
  - intros c Hc. apply (list_elem_of_In _ c) in Hc.
    apply (list_elem_of_In _ c). cbn in *. tauto.
  - exists d. split; [exact Hrun | exact Hchar].
Defined.

(** [changed_rankings()] raises [KeyError] when a candidate of the current
    ranking is not in the previous ranking. *)
Theorem changed_rankings_raises_on_new_candidate
    (self prev : ElectionState) (sl : list (list string))
    (pr cr : list string) (c : string) :
  previous self = Some prev →
  get_rankings prev sl = Ok (pr, sl) →
  get_rankings self sl = Ok (cr, sl) →
  c ∈ cr → c ∉ pr →
  changed_rankings self sl = Raise KeyError.
Proof. apply changed_rankings_missing. Qed.

Lemma changed_rankings_raises_on_new_candidate_witness :
  changed_rankings record_1 [["A"; "B"]; ["B"; "A"]] = Raise KeyError.
Proof.
  apply (changed_rankings_raises_on_new_candidate record_1 record_0
           [["A"; "B"]; ["B"; "A"]] ["A"; "B"] ["B"; "A"; "C"] "C"
           eq_refl eq_refl eq_refl).
  - apply list_elem_of_In. cbn. tauto.
  - intros H. apply list_elem_of_In in H. cbn in H.
    destruct H as [H|[H|[]]]; discriminate H.
Defined.

(** ** Rounds and the records before them *)

Lemma round_branches_alias self pick r b rem fp h el elim r1 b1 h1 :
  round_branches self pick r b rem fp h = Ok ((el, elim, r1, b1), h1) →
  (Z.of_nat (length rem)
   = seats self - Z.of_nat (length (get_all_winners (election_state self)))
   ∧ elim = []) ∨
  (Z.of_nat (length rem)
   ≠ seats self - Z.of_nat (length (get_all_winners (election_state self)))
   ∧ r1 = r).
Proof.
  intros H. unfold round_branches in H.
  destruct (decide (Z.of_nat (length rem) = _)) as [Hmass|Hmass].
  { left. cbn in H. by injection H as <- <- <- <- <-. }
  right. split; [done|].
  destruct fp as [|top rest]; [done|].
  destruct (decide (Qc_of_Z (threshold self) ≤ votes top)%Qc) as [Hq|Hq].
  { apply bind_Ok in H as ([el' b'] & h2 & _ & Hret).
    by injection Hret as <- <- <- <- <-. }
  destruct (next_round self).
  - apply bind_Ok in H as (lp & h2 & _ & H).
    apply bind_Ok in H as (b2 & h3 & _ & H).
    apply bind_Ok in H as (u & h4 & _ & Hret).
    by injection Hret as <- <- <- <- <-.
  - by injection H as <- <- <- <- <-.
Qed.

Lemma changed_rankings_after_move cands e h pick e' h' rem :
  NoDup cands → complete_record cands (e, h) →
  str_lists h !! remaining (election_state e) = Some rem →
  run_step e pick h = Ok (e', h') →
  Z.of_nat (length rem)
  ≠ seats e - Z.of_nat (length (get_all_winners (election_state e))) →
  elected (election_state e') ++ eliminated (election_state e') ≠ [] →
  changed_rankings (election_state e') (str_lists h') = Raise KeyError.
Proof.
  intros Hnd (rem0 & Hrem0 & Hperm) Hrem Hrun Hmass Hmoved.
  cbn in Hrem0, Hperm. rewrite Hrem in Hrem0. injection Hrem0 as <-.
  pose proof (complete_record_NoDup _ _ _ _ Hnd Hrem Hperm) as Hndrem.
  apply run_step_Ok in Hrun
    as (el & elim & r & b & h1 & rem1 & bs1 & Hact & Hrem1 & _ & -> & ->).
  apply round_action_Ok in Hact as (rem' & bs & Hrem' & Hbs & Hbr).
  rewrite Hrem in Hrem'. injection Hrem' as <-.
  destruct (round_branches_strs _ _ _ _ _ _ _ _ _ _ _ _ Hbr Hrem)
    as (rem1' & Hrem1' & Hsplit).
  { by apply compute_votes_Permutation. }
  rewrite Hrem1 in Hrem1'. injection Hrem1' as <-.
  destruct (round_branches_alias _ _ _ _ _ _ _ _ _ _ _ _ Hbr)
    as [[? _]|[_ ->]]; [done|].
  cbn in Hmoved. cbn [election_state str_lists].
  assert (∃ x, x ∈ el ++ elim) as [x Hx].
  { destruct (el ++ elim) as [|x l]; [done|].
    exists x. apply list_elem_of_here. }
  rewrite <- Hperm, Hsplit in Hnd.
  apply (changed_rankings_missing _ (election_state e) _
           (get_all_winners (election_state e) ++ rem1
            ++ get_all_eliminated (election_state e))
           ((get_all_winners (election_state e) ++ el) ++ rem1
            ++ reverse elim ++ get_all_eliminated (election_state e)) x).
  - done.
  - apply get_rankings_step. by apply lookup_old.
  - unfold get_rankings. cbn [remaining].
    by rewrite (bind_step _ _ _ _ _
                  (store_get_step _ _ _ (lookup_new (str_lists h1) rem1))).
  - rewrite !elem_of_app, elem_of_reverse.
    apply elem_of_app in Hx. tauto.
  - apply NoDup_app in Hnd as (_ & Hdis1 & Hnd).
    apply NoDup_app in Hnd as (Hnd & Hdis2 & _).
    apply NoDup_app in Hnd as (_ & Hdis3 & Hnd).
    apply NoDup_app in Hnd as (_ & Hdis4 & _).
    rewrite !elem_of_app. intros [Hw|[Hr|He]].
    + apply (Hdis1 x Hw). rewrite !elem_of_app.
      apply elem_of_app in Hx. tauto.
    + apply elem_of_app in Hx as [Hx|Hx].
      * apply (Hdis3 x Hx). rewrite elem_of_app. tauto.
      * by apply (Hdis4 x Hr).
    + apply (Hdis2 x); [|done]. rewrite !elem_of_app.
      apply elem_of_app in Hx. tauto.
Qed.

(** After a round of an engine that eliminated a candidate,
    [changed_rankings()] of the new record raises [KeyError]: the round
    removed the candidate from the list that the previous record holds, so
    the candidate has no position in the previous ranking. *)
Theorem changed_rankings_raises_after_elimination
    (profile : loc)
    (transfer : string → loc → gmap string Qc → Z → M BallotStore loc)
    (nseats : Z) (h0 : Heap) (bs : list Ballot) (e0 : STV) (h1 : Heap)
    (e : STV) (h : Heap) (pick : nat) (e' : STV) (h' : Heap) :
  ballot_lists h0 !! profile = Some bs →
  STV_init profile transfer nseats h0 = Ok (e0, h1) →
  rounds (e0, h1) (e, h) →
  run_step e pick h = Ok (e', h') →
  eliminated (election_state e') ≠ [] →
  changed_rankings (election_state e') (str_lists h') = Raise KeyError.
Proof.
  intros Hbs Hinit Hrounds Hrun Helim.
  pose proof (STV_init_complete _ _ _ _ _ _ _ Hbs Hinit) as Hc.
  apply (rounds_complete _ _ _ (get_candidates_NoDup bs) Hc) in Hrounds.
  pose proof Hrounds as (rem & Hrem & _). cbn in Hrem.
  apply (changed_rankings_after_move (get_candidates bs) e h pick e' h' rem
           (get_candidates_NoDup bs) Hrounds Hrem Hrun).
  - pose proof Hrun as Hrun'.
    apply run_step_Ok in Hrun'
      as (el & elim & r & b & h2 & rem1 & bs1 & Hact & _ & _ & _ & ->).
    apply round_action_Ok in Hact as (rem' & bs' & Hrem' & _ & Hbr).
    rewrite Hrem in Hrem'. injection Hrem' as <-.
    destruct (round_branches_alias _ _ _ _ _ _ _ _ _ _ _ _ Hbr)
      as [[_ ->]|[? _]]; done.
  - intros Hnil. apply app_eq_nil in Hnil as [_ ?]. done.
Qed.

Lemma changed_rankings_raises_after_elimination_witness :
  changed_rankings
    (election_state (after_round 0 (test_engine 1 276, test_heap_0)).1)
    (str_lists (after_round 0 (test_engine 1 276, test_heap_0)).2)
  = Raise KeyError.
Proof.
  apply (changed_rankings_raises_after_elimination 0%nat fractional_transfer
           1 test_heap test_ballots (test_engine 1 276) test_heap_0
           (test_engine 1 276) test_heap_0 0%nat
           (after_round 0 (test_engine 1 276, test_heap_0)).1
           (after_round 0 (test_engine 1 276, test_heap_0)).2
           eq_refl (proj1 test_engine_init) (rounds_refl _)).
  - rewrite <- surjective_pairing. exact test_round_1.
  - vm_compute. discriminate.
Defined.

(** ** Round numbers *)

Lemma get_round_outcome_numbered s n :
  well_numbered s →
  0 ≤ curr_round s ∧
  (0 ≤ n ≤ curr_round s → ∃ o, get_round_outcome s n = Ok o) ∧
  (¬ (0 ≤ n ≤ curr_round s) → get_round_outcome s n = Raise ValueError).
Proof.
  induction s as [r el elim rem prof | r el elim rem prof p IH]
    using ElectionState_chain_ind; cbn [well_numbered get_round_outcome];
    cbn [curr_round].
  - intros ->. split_and!; [done| |].
    + intros Hn. rewrite decide_True by lia. by eexists.
    + intros Hn. rewrite decide_False; [done|]. lia.
  - intros [-> Hp]. destruct (IH Hp) as (Hge & HOk & HRaise).
    split_and!; [lia| |].
    + intros Hn. destruct (decide (curr_round p + 1 = n)); [by eexists|].
      apply HOk. lia.
    + intros Hn. rewrite decide_False by lia. apply HRaise. lia.
Qed.

Lemma run_step_well_numbered e pick h e' h' :
  run_step e pick h = Ok (e', h') →
  well_numbered (election_state e) → well_numbered (election_state e').
Proof.
  intros Hrun Hwn.
  apply run_step_Ok in Hrun as (? & ? & ? & ? & ? & ? & ? & H).
  destruct H as (_ & _ & _ & _ & ->). done.
Qed.

Lemma rounds_well_numbered x y :
  rounds x y → well_numbered (election_state x.1) →
  well_numbered (election_state y.1).
Proof.
  induction 1 as [x|e h pick e1 h1 y Hstep Hrest IH]; [done|].
  intros Hwn. apply IH. cbn in *. by eapply run_step_well_numbered.
Qed.

(** For a record produced by the engine, [get_round_outcome(n)] returns
    for the round numbers from 0 to the record's own and raises
    [ValueError] for every other number; for its own round number it
    returns the record's [elected] and [eliminated]. *)
Theorem get_round_outcome_of_engine_rounds
    (profile : loc)
    (transfer : string → loc → gmap string Qc → Z → M BallotStore loc)
    (nseats : Z) (h0 : Heap) (e0 : STV) (h1 : Heap) (e : STV) (h : Heap)
    (n : Z) :
  STV_init profile transfer nseats h0 = Ok (e0, h1) →
  rounds (e0, h1) (e, h) →
  0 ≤ curr_round (election_state e) ∧
  (0 ≤ n ≤ curr_round (election_state e) →
   ∃ o, get_round_outcome (election_state e) n = Ok o) ∧
  (¬ (0 ≤ n ≤ curr_round (election_state e)) →
   get_round_outcome (election_state e) n = Raise ValueError) ∧
  get_round_outcome (election_state e) (curr_round (election_state e))
  = Ok (mkRoundOutcome (elected (election_state e))
                       (eliminated (election_state e))).
Proof.
  intros Hinit Hrounds.
  assert (well_numbered (election_state e)) as Hwn.
  { apply (rounds_well_numbered _ _ Hrounds). cbn.
    apply STV_init_inv in Hinit as (bs & _ & _ & -> & _). done. }
  destruct (get_round_outcome_numbered _ n Hwn) as (Hge & HOk & HRaise).
  split_and!; [done..|].
  destruct (election_state e) as [r el elim rem prof prev].
  cbn. by rewrite decide_True.
Qed.

Lemma get_round_outcome_of_engine_rounds_witness :
  get_round_outcome
    (election_state (after_round 0 (test_engine 1 276, test_heap_0)).1) 4
  = Raise ValueError.
Proof.
  destruct (get_round_outcome_of_engine_rounds 0%nat fractional_transfer 1
              test_heap (test_engine 1 276) test_heap_0
              (after_round 0 (test_engine 1 276, test_heap_0)).1
              (after_round 0 (test_engine 1 276, test_heap_0)).2 4
              (proj1 test_engine_init))
    as (_ & _ & Hraise & _).
  - eapply rounds_step; [exact test_round_1|].
    rewrite <- surjective_pairing. apply rounds_refl.
  - apply Hraise. vm_compute. intros [_ H]. by apply H.
Defined.

(** ** Construction *)

(** The constructor does not check the seat count: on a profile in the
    store it raises [ZeroDivisionError] for [seats = -1] and builds an
    engine for every other count, zero and negative ones included.  The
    engine starts at round 0 with nobody elected or eliminated, keeps the
    profile it was given and allocates no ballots; it is already decided
    exactly when [seats = 0]. *)
Theorem STV_init_outcome
    (profile : loc)
    (transfer : string → loc → gmap string Qc → Z → M BallotStore loc)
    (nseats : Z) (h : Heap) (bs : list Ballot) :
  ballot_lists h !! profile = Some bs →
  (nseats = -1 →
   STV_init profile transfer nseats h = Raise ZeroDivisionError) ∧
  (nseats ≠ -1 →
   ∃ e h0, STV_init profile transfer nseats h = Ok (e, h0) ∧
     seats e = nseats ∧ get_init_profile e = profile ∧
     election_state e
     = mkElectionState 0 [] [] (length (str_lists h)) profile None ∧
     ballot_lists h0 = ballot_lists h ∧
     next_round e = bool_decide (nseats ≠ 0)).
Proof.
  intros Hbs. split.
  - intros ->. unfold STV_init, get_ballots.
    rewrite (bind_step _ _ _ _ _ (on_ballots_get _ _ _ Hbs)).
    rewrite (bind_step _ _ _ _ _ (on_strs_new _ _)).
    unfold get_threshold. cbn. rewrite bind_assoc.
    by rewrite (bind_step _ _ _ _ _
                  (on_ballots_get profile (mkHeap _ (ballot_lists h)) bs Hbs)).
  - intros Hs. eexists _, _. split.
    { apply (STV_init_Ok _ _ _ _ bs); [done|lia]. }
    split_and!; try done.
    unfold next_round. cbn. apply bool_decide_ext. lia.
Qed.

Lemma STV_init_outcome_witness :
  STV_init 0%nat fractional_transfer (-1) test_heap
  = Raise ZeroDivisionError.
Proof.
  destruct (STV_init_outcome 0%nat fractional_transfer (-1) test_heap
              test_ballots eq_refl) as [Hraise _].
  apply Hraise. reflexivity.
Defined.

(** The constructor lists every candidate of the profile once in the
    [remaining] list of round 0, in descending order of first-place
    weight. *)
Theorem STV_init_remaining_by_tally
    (profile : loc)
    (transfer : string → loc → gmap string Qc → Z → M BallotStore loc)
    (nseats : Z) (h : Heap) (bs : list Ballot) (e : STV) (h0 : Heap) :
  ballot_lists h !! profile = Some bs →
  STV_init profile transfer nseats h = Ok (e, h0) →
  ∃ rem, str_lists h0 !! remaining (election_state e) = Some rem ∧
    rem ≡ₚ get_candidates bs ∧
    StronglySorted
      (λ a b, (first_place_weight b bs ≤ first_place_weight a bs)%Qc) rem.
Proof.
  intros Hbs Hinit.
  apply STV_init_inv in Hinit as (bs' & Hbs' & _ & -> & ->).
  rewrite Hbs in Hbs'. injection Hbs' as <-.
  exists (cand <$> compute_votes (get_candidates bs) bs). cbn.
  split_and!; [apply lookup_new| |].
  - apply compute_votes_Permutation, get_candidates_NoDup.
  - pose proof (compute_votes_Sorted (get_candidates bs) bs) as Hs.
    pose proof (compute_votes_values (get_candidates bs) bs) as Hv.
    induction Hs as [|cv l Hl IH Hcv]; cbn; constructor.
    + apply IH. by apply Forall_cons in Hv as [_ ?].
    + apply Forall_cons in Hv as [Hcv' Hv]. apply Forall_fmap.
      rewrite Forall_forall in Hcv, Hv. apply Forall_forall.
      intros x Hx. cbn. rewrite <- Hcv', <- (Hv x Hx). by apply Hcv.
Qed.

Lemma STV_init_remaining_by_tally_witness :
  ∃ rem, str_lists test_heap_0 !! 0%nat = Some rem ∧
    rem ≡ₚ get_candidates test_ballots.
Proof.
  destruct (STV_init_remaining_by_tally 0%nat fractional_transfer 1
              test_heap test_ballots (test_engine 1 276) test_heap_0
              eq_refl (proj1 test_engine_init)) as (rem & Hrem & Hperm & _).
  exists rem. split; [exact Hrem | exact Hperm].
Defined.

(** ** The order of a tally *)

(** [compute_votes] returns its entries in descending order of votes, so
    the first entry, which [run_step] reads as the leader, has the highest
    tally of all. *)
Theorem compute_votes_leader_first
    (candidates : list string) (ballots : list Ballot) :
  StronglySorted (λ a b, (votes b ≤ votes a)%Qc)
                 (compute_votes candidates ballots) ∧
  ∀ top rest cv,
    compute_votes candidates ballots = top :: rest →
    cv ∈ compute_votes candidates ballots → (votes cv ≤ votes top)%Qc.
Proof.
  pose proof (compute_votes_Sorted candidates ballots) as Hs.
  split; [done|]. intros top rest cv Heq Hin. rewrite Heq in Hs, Hin.
  apply StronglySorted_inv in Hs as [_ Hall].
  apply elem_of_cons in Hin as [->|Hin]; [apply Qcle_refl|].
  rewrite Forall_forall in Hall. by apply Hall.
Qed.

Lemma compute_votes_leader_first_witness :
  (votes (mkCandidateVotes "C" (first_place_weight "C" test_ballots))
   ≤ votes (mkCandidateVotes "A" (first_place_weight "A" test_ballots)))%Qc.
Proof.
  apply (proj2 (compute_votes_leader_first ["A"; "B"; "C"] test_ballots)
           _ _ _ test_tally).
  rewrite test_tally. do 2 apply list_elem_of_further.
  apply list_elem_of_here.
Defined.

Lemma insert_desc_head x l :
  Forall (λ y, (y.2 ≤ x.2)%Qc) l → insert_desc x l = x :: l.
Proof.
  destruct 1 as [|y l Hy _]; cbn; [done|].
  rewrite decide_False; [done|]. by apply Qcle_not_lt.
Qed.

Lemma sorted_desc_sorted_id l :
  StronglySorted (λ a b, (b.2 ≤ a.2)%Qc) l → sorted_desc l = l.
Proof.
  induction 1 as [|x l Hl IH Hx]; [done|].
  change (sorted_desc (x :: l)) with (insert_desc x (sorted_desc l)).
  rewrite IH. by apply insert_desc_head.
Qed.

Lemma votes_dict_NoDup_eq cands bs :
  NoDup cands →
  votes_dict cands bs = (λ c, (c, first_place_weight c bs)) <$> cands.
Proof.
  intros Hnd.
  pose proof (votes_dict_keys_NoDup bs cands [] Hnd) as Hk.
  pose proof (votes_dict_values bs cands [] (Forall_nil_2 _)) as Hv.
  fold (votes_dict cands bs) in Hk, Hv. cbn in Hk.
  revert Hk Hv. generalize (votes_dict cands bs). clear Hnd.
  induction cands as [|c cs IH]; intros d Hk Hv.
  - by apply fmap_nil_inv in Hk.
  - destruct d as [|[k v] d]; [done|]. cbn in Hk. injection Hk as -> Hk.
    apply Forall_cons in Hv as [Hkv Hv]. cbn in Hkv. subst v.
    cbn. f_equal. by apply IH.
Qed.

(** Tallying again the candidates in the order of a tally gives the same
    tally: the sort is stable, so candidates with equal votes keep their
    places.  (The first round of an engine thus sees the tally of its
    constructor.) *)
Theorem compute_votes_stable_on_tallied
    (candidates : list string) (ballots : list Ballot) :
  compute_votes (cand <$> compute_votes candidates ballots) ballots
  = compute_votes candidates ballots.
Proof.
  pose proof (compute_votes_NoDup candidates ballots) as Hnd.
  pose proof (compute_votes_values candidates ballots) as Hv.
  unfold compute_votes at 1.
  rewrite (votes_dict_NoDup_eq _ _ Hnd), <- list_fmap_compose.
  assert ((λ c, (c, first_place_weight c ballots)) ∘ cand
          <$> compute_votes candidates ballots
          = sorted_desc (votes_dict candidates ballots)) as ->.
  { unfold compute_votes in Hv |- *. rewrite <- list_fmap_compose.
    apply Forall_fmap in Hv.
    induction (sorted_desc (votes_dict candidates ballots))
      as [|[k v] l IH]; [done|].
    apply Forall_cons in Hv as [Hkv Hv]. cbn in Hkv |- *.
    rewrite <- Hkv. f_equal. by apply IH. }
  by rewrite sorted_desc_sorted_id by apply sorted_desc_Sorted.
Qed.

(** ** [run_election] *)

Lemma election_loop_done fuel picks k e h e' h' :
  election_loop fuel picks k e h = Ok (Some e', h') →
  next_round e' = false ∧ rounds (e, h) (e', h').
Proof.
  revert k e h. induction fuel as [|fuel IH]; intros k e h;
    cbn [election_loop]; destruct (next_round e) eqn:Hnext.
  - done.
  - intros [= <- <-]. split; [done|apply rounds_refl].
  - intros H. apply bind_Ok in H as (e1 & h1 & Hstep & Hloop).
    destruct (IH _ _ _ Hloop) as [Hdone Hr].
    split; [done|]. by eapply rounds_step.
  - intros [= <- <-]. split; [done|apply rounds_refl].
Qed.

(** Whatever the transfer strategy, [run_election] returns a record only
    when the number of winners is exactly the number of seats, and a second
    [run_election] on the engine it leaves raises [ValueError]. *)
Theorem run_election_returns_decided
    (fuel : nat) (picks : nat → nat) (e : STV) (h : Heap)
    (es' : ElectionState) (h' : Heap) :
  run_election fuel picks e h = Ok (Some es', h') →
  ∃ e', es' = election_state e' ∧ rounds (e, h) (e', h') ∧
    Z.of_nat (length (get_all_winners es')) = seats e ∧
    ∀ fuel' picks', run_election fuel' picks' e' h' = Raise ValueError.
Proof.
  unfold run_election. destruct (next_round e); [|done]. intros H.
  apply bind_Ok in H as ([e'|] & h1 & Hloop & Hret); [|done].
  injection Hret as <- <-.
  destruct (election_loop_done _ _ _ _ _ _ _ Hloop) as [Hdone Hr].
  exists e'. split_and!; [done..| |].
  - apply rounds_fields in Hr as (_ & _ & <- & _).
    unfold next_round in Hdone. apply bool_decide_eq_false in Hdone.
    by apply dec_stable.
  - intros fuel' picks'. by rewrite Hdone.
Qed.

Lemma test_election :
  ∃ e' h', election_loop 3 (λ _, 0%nat) 0 (test_engine 1 276) test_heap_0
           = Ok (Some e', h').
Proof. eexists _, _. vm_compute. reflexivity. Qed.

Lemma run_election_returns_decided_witness :
  ∃ es' h',
    run_election 3 (λ _, 0%nat) (test_engine 1 276) test_heap_0
    = Ok (Some es', h') ∧
    Z.of_nat (length (get_all_winners es')) = 1.
Proof.
  destruct test_election as (e' & h' & Hloop).
  assert (run_election 3 (λ _, 0%nat) (test_engine 1 276) test_heap_0
          = Ok (Some (election_state e'), h')) as Hrun.
  { unfold run_election.
    change (next_round (test_engine 1 276)) with true. cbv iota.
    by rewrite (bind_step _ _ _ _ _ Hloop). }
  destruct (run_election_returns_decided _ _ _ _ _ _ Hrun)
    as (e1 & _ & _ & Hseats & _).
  exists (election_state e'), h'. split; [exact Hrun | exact Hseats].
Defined.

Lemma bind_raise {S A B} (m : M S A) (k : A → M S B) s e :
  m s = Raise e → bind m k s = Raise e.
Proof. unfold bind. by intros ->. Qed.

Lemma run_step_empty_remaining e pick h bs :
  str_lists h !! remaining (election_state e) = Some [] →
  ballot_lists h !! profile (election_state e) = Some bs →
  Z.of_nat (length (get_all_winners (election_state e))) ≠ seats e →
  run_step e pick h = Raise IndexError.
Proof.
  intros Hrem Hbs Hne. unfold run_step. apply bind_raise.
  rewrite (round_action_eq _ _ _ [] bs) by done.
  unfold round_branches. rewrite decide_False; [done|]. cbn. lia.
Qed.

(** An election on a profile whose ballots rank no candidate is built for
    any seat count other than -1, and for a count other than 0
    [run_election] raises [IndexError], reading the leader of an empty
    tally. *)
Theorem run_election_without_candidates
    (profile : loc)
    (transfer : string → loc → gmap string Qc → Z → M BallotStore loc)
    (nseats : Z) (h : Heap) (bs : list Ballot) (fuel : nat)
    (picks : nat → nat) :
  ballot_lists h !! profile = Some bs →
  get_candidates bs = [] →
  nseats ≠ -1 → nseats ≠ 0 →
  ∃ e h0, STV_init profile transfer nseats h = Ok (e, h0) ∧
    run_election (S fuel) picks e h0 = Raise IndexError.
Proof.
  intros Hbs Hnone Hs1 Hs0. eexists _, _. split.
  { apply (STV_init_Ok _ _ _ _ bs); [done|lia]. }
  rewrite Hnone.
  set (e := mkSTV _ _ _ _ _). set (h0 := mkHeap _ _).
  assert (next_round e = true) as Hnext.
  { apply bool_decide_eq_true. cbn. lia. }
  unfold run_election. rewrite Hnext. apply bind_raise.
  cbn [election_loop]. rewrite Hnext. apply bind_raise.
  apply (run_step_empty_remaining _ _ _ bs).
  - apply lookup_new.
  - done.
  - cbn. lia.
Qed.

Lemma run_election_without_candidates_witness :
  ∃ e h0,
    STV_init 0%nat fractional_transfer 1
      (mkHeap [] [[mkBallot [] (Qc_of_Z 5)]]) = Ok (e, h0) ∧
    run_election 1 (λ _, 0%nat) e h0 = Raise IndexError.
Proof.
  apply (run_election_without_candidates 0%nat fractional_transfer 1
           (mkHeap [] [[mkBallot [] (Qc_of_Z 5)]])
           [mkBallot [] (Qc_of_Z 5)] 0 (λ _, 0%nat) eq_refl).
  - reflexivity.
  - lia.
  - lia.
Defined.

(** ** What a transfer and a removal do to the tallies *)

Lemma names_first_without_self c b : ¬ names_first c (without_cand c b).
Proof.
  intros [rest Hr]. apply (without_cand_no_singleton c b).
  rewrite Hr. apply list_elem_of_here.
Qed.

Lemma first_place_weight_without_self c bs :
  first_place_weight c (without_cand c <$> bs) = Q2Qc 0.
Proof.
  rewrite first_place_weight_sum, <- list_fmap_compose.
  induction bs as [|b bs IH]; [done|]. cbn [fmap list_fmap compose].
  unfold Qc_sum in *. cbn [foldr]. rewrite IH. unfold credit at 1.
  rewrite decide_False by apply names_first_without_self. ring.
Qed.

Lemma credit_without_other c c' b :
  c' ≠ c → (Q2Qc 0 ≤ weight b)%Qc →
  (credit c' b ≤ credit c' (without_cand c b))%Qc.
Proof.
  intros Hne Hb. unfold credit at 1.
  destruct (decide (names_first c' b)) as [Hn|Hn].
  - unfold credit. rewrite decide_True by by apply names_first_without.
    apply Qcle_refl.
  - unfold credit. by destruct (decide _).
Qed.

(** When [votes[winner]] is the winner's tally and is not zero, the ballots
    returned by [fractional_transfer] weigh in total exactly [threshold]
    less than the ballots it was given, and none of them names the winner
    first any more. *)
Theorem fractional_transfer_takes_threshold
    (winner : string) (p : loc) (votes : gmap string Qc) (threshold : Z)
    (st : BallotStore) (bs : list Ballot) (v : Qc) :
  st !! p = Some bs →
  votes !! winner = Some v →
  v = first_place_weight winner bs →
  v ≠ Q2Qc 0 →
  ∃ st' bs',
    fractional_transfer winner p votes threshold st = Ok (length st, st') ∧
    st' !! length st = Some bs' ∧
    total_weight bs' = (total_weight bs - Qc_of_Z threshold)%Qc ∧
    first_place_weight winner bs' = Q2Qc 0.
Proof.
  intros Hbs Hv Htally Hv0.
  assert (p < length st)%nat as Hp by by eapply lookup_lt_Some.
  eexists _, _. split_and!.
  - by apply (fractional_transfer_step _ _ _ _ _ bs v).
  - rewrite lookup_app_r by by rewrite length_insert.
    by rewrite length_insert, Nat.sub_diag.
  - pose proof (transferred_total threshold bs (mkCandidateVotes winner v))
      as Htot. cbn in Htot. unfold transferred in Htot. cbn in Htot.
    rewrite Htot by done. rewrite <- Htally. f_equal. by field.
  - apply first_place_weight_without_self.
Qed.

Lemma fractional_transfer_takes_threshold_witness :
  ∃ st' bs',
    fractional_transfer "A" 0%nat
      {[ "A" := first_place_weight "A" test_ballots ]} 184 [test_ballots]
    = Ok (1%nat, st') ∧
    st' !! 1%nat = Some bs' ∧
    total_weight bs' = (total_weight test_ballots - Qc_of_Z 184)%Qc.
Proof.
  destruct (fractional_transfer_takes_threshold "A" 0%nat
              {[ "A" := first_place_weight "A" test_ballots ]} 184
              [test_ballots] test_ballots
              (first_place_weight "A" test_ballots) eq_refl)
    as (st' & bs' & Hrun & Hbs' & Htot & _).
  - apply lookup_singleton_eq.
  - reflexivity.
  - intros H. apply (f_equal this) in H. vm_compute in H. discriminate H.
  - exists st', bs'. split_and!; [exact Hrun|exact Hbs'|exact Htot].
Defined.

(** For a positive threshold that [votes[winner]] reaches,
    [fractional_transfer] on ballots with non-negative weights returns
    ballots with non-negative weights, and no other candidate has a lower
    tally on them than before. *)
Theorem fractional_transfer_keeps_tallies
    (winner : string) (p : loc) (votes : gmap string Qc) (threshold : Z)
    (st : BallotStore) (bs : list Ballot) (v : Qc) :
  st !! p = Some bs →
  votes !! winner = Some v →
  0 < threshold → (Qc_of_Z threshold ≤ v)%Qc →
  Forall (λ b, (Q2Qc 0 ≤ weight b)%Qc) bs →
  ∃ st' bs',
    fractional_transfer winner p votes threshold st = Ok (length st, st') ∧
    st' !! length st = Some bs' ∧
    Forall (λ b, (Q2Qc 0 ≤ weight b)%Qc) bs' ∧
    ∀ c, c ≠ winner →
         (first_place_weight c bs ≤ first_place_weight c bs')%Qc.
Proof.
  intros Hbs Hv Hthr Hle Hnn.
  assert (p < length st)%nat as Hp by by eapply lookup_lt_Some.
  assert (Q2Qc 0 < Qc_of_Z threshold)%Qc as Hq by by apply Qc_of_Z_pos.
  assert (v ≠ Q2Qc 0) as Hv0.
  { apply Qclt_neq_0. by eapply Qclt_le_trans. }
  eexists _, _. split_and!.
  - by apply (fractional_transfer_step _ _ _ _ _ bs v).
  - rewrite lookup_app_r by by rewrite length_insert.
    by rewrite length_insert, Nat.sub_diag.
  - by apply (transferred_nonneg threshold bs (mkCandidateVotes winner v)).
  - intros c Hc.
    by apply (first_place_weight_transferred_other threshold bs
                (mkCandidateVotes winner v)).
Qed.

Lemma fractional_transfer_keeps_tallies_witness :
  ∃ st' bs',
    fractional_transfer "A" 0%nat {[ "A" := Qc_of_Z 250 ]} 184 [test_ballots]
    = Ok (1%nat, st') ∧
    st' !! 1%nat = Some bs' ∧
    Forall (λ b, (Q2Qc 0 ≤ weight b)%Qc) bs'.
Proof.
  destruct (fractional_transfer_keeps_tallies "A" 0%nat
              {[ "A" := Qc_of_Z 250 ]} 184 [test_ballots] test_ballots
              (Qc_of_Z 250) eq_refl)
    as (st' & bs' & Hrun & Hbs' & Hnn & _).
  - apply lookup_singleton_eq.
  - lia.
  - by vm_compute.
  - exact test_ballots_nonneg.
  - exists st', bs'. split_and!; [exact Hrun|exact Hbs'|exact Hnn].
Defined.

(** On the ballots returned by [remove_cand(c)] the tally of [c] is zero,
    the total weight is what it was, and, for non-negative weights, no
    other candidate has a lower tally than before. *)
Theorem remove_cand_tallies
    (c : string) (p : loc) (st : BallotStore) (bs : list Ballot) :
  st !! p = Some bs →
  Forall (λ b, (Q2Qc 0 ≤ weight b)%Qc) bs →
  ∃ bs',
    remove_cand c p st = Ok (length st, st ++ [bs']) ∧
    first_place_weight c bs' = Q2Qc 0 ∧
    total_weight bs' = total_weight bs ∧
    ∀ c', c' ≠ c →
          (first_place_weight c' bs ≤ first_place_weight c' bs')%Qc.
Proof.
  intros Hbs Hnn. exists (without_cand c <$> bs). split_and!.
  - by apply remove_cand_step.
  - apply first_place_weight_without_self.
  - apply total_weight_without.
  - intros c' Hc'. rewrite !first_place_weight_sum, <- list_fmap_compose.
    apply Qc_sum_le. eapply Forall_impl; [exact Hnn|].
    intros b Hb. cbn. by apply credit_without_other.
Qed.

Lemma remove_cand_tallies_witness :
  ∃ bs',
    remove_cand "C" 0%nat [test_ballots] = Ok (1%nat, [test_ballots] ++ [bs']) ∧
    first_place_weight "C" bs' = Q2Qc 0.
Proof.
  destruct (remove_cand_tallies "C" 0%nat [test_ballots] test_ballots
              eq_refl test_ballots_nonneg) as (bs' & Hrun & Hzero & _).
  exists bs'. split; [exact Hrun | exact Hzero].
Defined.

Lemma without_cand_comm c1 c2 b :
  without_cand c1 (without_cand c2 b) = without_cand c2 (without_cand c1 b).
Proof.
  unfold without_cand. cbn. f_equal.
  rewrite !list_filter_filter. apply list_filter_iff. tauto.
Qed.

Lemma without_cand_idemp c b :
  without_cand c (without_cand c b) = without_cand c b.
Proof.
  unfold without_cand. cbn. f_equal.
  rewrite list_filter_filter. apply list_filter_iff. tauto.
Qed.

Lemma remove_cand_then_get c p (st : BallotStore) bs :
  st !! p = Some bs →
  (p1 <~ remove_cand c p ;; store_get p1) st
  = Ok (without_cand c <$> bs, st ++ [without_cand c <$> bs]).
Proof.
  intros Hbs. rewrite (bind_step _ _ _ _ _ (remove_cand_step c _ _ _ Hbs)).
  apply store_get_step, lookup_new.
Qed.

Lemma remove_cand_twice_then_get c1 c2 p (st : BallotStore) bs :
  st !! p = Some bs →
  (p1 <~ remove_cand c1 p ;; p2 <~ remove_cand c2 p1 ;; store_get p2) st
  = Ok (without_cand c2 <$> (without_cand c1 <$> bs),
        (st ++ [without_cand c1 <$> bs])
        ++ [without_cand c2 <$> (without_cand c1 <$> bs)]).
Proof.
  intros Hbs. rewrite (bind_step _ _ _ _ _ (remove_cand_step c1 _ _ _ Hbs)).
  apply remove_cand_then_get, lookup_new.
Qed.

(** Removing two candidates one after the other returns the same ballots
    in either order, and removing a candidate a second time returns the
    ballots of the first removal. *)
Theorem remove_cand_order_irrelevant
    (c1 c2 : string) (p : loc) (st : BallotStore) (bs : list Ballot) :
  st !! p = Some bs →
  ∃ bs' st12 st21 st11,
    (p1 <~ remove_cand c1 p ;; p2 <~ remove_cand c2 p1 ;; store_get p2) st
    = Ok (bs', st12) ∧
    (p1 <~ remove_cand c2 p ;; p2 <~ remove_cand c1 p1 ;; store_get p2) st
    = Ok (bs', st21) ∧
    (p1 <~ remove_cand c1 p ;; p2 <~ remove_cand c1 p1 ;; store_get p2) st
    = Ok (without_cand c1 <$> bs, st11) ∧
    (p1 <~ remove_cand c1 p ;; store_get p1) st
    = Ok (without_cand c1 <$> bs, st ++ [without_cand c1 <$> bs]).
Proof.
  intros Hbs. eexists _, _, _, _. split_and!.
  - by apply remove_cand_twice_then_get.
  - rewrite (remove_cand_twice_then_get _ _ _ _ bs) by done.
    do 2 f_equal. rewrite <- !list_fmap_compose. apply list_fmap_ext.
    intros i b _. cbn. apply without_cand_comm.
  - rewrite (remove_cand_twice_then_get _ _ _ _ bs) by done.
    f_equal. f_equal. rewrite <- list_fmap_compose. apply list_fmap_ext.
    intros i b _. cbn. apply without_cand_idemp.
  - by apply remove_cand_then_get.
Qed.

Lemma remove_cand_order_irrelevant_witness :
  ∃ bs' st12 st21,
    (p1 <~ remove_cand "A" 0%nat ;; p2 <~ remove_cand "C" p1 ;; store_get p2)
      [test_ballots] = Ok (bs', st12) ∧
    (p1 <~ remove_cand "C" 0%nat ;; p2 <~ remove_cand "A" p1 ;; store_get p2)
      [test_ballots] = Ok (bs', st21).
Proof.
  destruct (remove_cand_order_irrelevant "A" "C" 0%nat [test_ballots]
              test_ballots eq_refl)
    as (bs' & st12 & st21 & st11 & H12 & H21 & _).
  exists bs', st12, st21. split; [exact H12 | exact H21].
Defined.

(** ** Winners and seats *)

Lemma contest_rounds_inv T n x y :
  election_inv T n x → contest_rounds x y → election_inv T n y.
Proof.
  intros Hinv Hr. induction Hr as [x|e h pick e1 h1 y Hnext Hstep Hrest IH];
    [done|].
  apply IH.
  destruct (run_step_progress T n e h pick Hinv Hnext)
    as (e' & h' & Hstep' & Hinv').
  rewrite Hstep in Hstep'. by injection Hstep' as <- <-.
Qed.

Lemma contest_rounds_rounds x y : contest_rounds x y → rounds x y.
Proof.
  induction 1 as [x|e h pick e1 h1 y Hnext Hstep Hrest IH];
    [apply rounds_refl|]. by eapply rounds_step.
Qed.

(** In an election run with fractional transfer on a profile with
    non-negative weights, for a positive number of seats that is at most
    the number of candidates, the rounds that [run_election] runs never
    elect more candidates than there are seats and never number more than
    the candidates. *)
Theorem winners_never_exceed_seats
    (profile : loc) (nseats : Z) (h : Heap) (bs : list Ballot) :
  ballot_lists h !! profile = Some bs →
  Forall (λ b, (Q2Qc 0 ≤ weight b)%Qc) bs →
  0 < nseats ≤ Z.of_nat (length (get_candidates bs)) →
  ∃ e h0,
    STV_init profile fractional_transfer nseats h = Ok (e, h0) ∧
    ∀ e' h', contest_rounds (e, h0) (e', h') →
      Z.of_nat (length (get_all_winners (election_state e'))) ≤ nseats ∧
      curr_round (election_state e')
      ≤ Z.of_nat (length (get_candidates bs)).
Proof.
  intros Hbs Hnn Hseats.
  destruct (STV_init_election_inv profile nseats h bs Hbs Hnn Hseats)
    as (e & h0 & Hinit & Hs & _ & _ & Hinv).
  exists e, h0. split; [done|]. intros e' h' Hr.
  assert (seats e' = nseats) as Hs'.
  { apply contest_rounds_rounds, rounds_fields in Hr as (_ & _ & -> & _).
    done. }
  apply (contest_rounds_inv _ _ _ _ Hinv) in Hr
    as (_ & _ & _ & Hround & Hw & _).
  cbn in *. rewrite <- Hs'. done.
Qed.

Lemma winners_never_exceed_seats_witness :
  ∃ e h0,
    STV_init 0%nat fractional_transfer 2 test_heap = Ok (e, h0) ∧
    ∀ e' h', contest_rounds (e, h0) (e', h') →
      Z.of_nat (length (get_all_winners (election_state e'))) ≤ 2.
Proof.
  destruct (winners_never_exceed_seats 0%nat 2 test_heap test_ballots
              eq_refl test_ballots_nonneg) as (e & h0 & Hinit & Hall).
  - vm_compute. split; [reflexivity | discriminate].
  - exists e, h0. split; [exact Hinit|].
    intros e' h' Hr. exact (proj1 (Hall e' h' Hr)).
Defined.

(** ** What a round leaves alone *)

Lemma elect_each_frame self r fp ws b h b' h' r' :
  elect_each self r fp ws b h = Ok (b', h') → r' ≠ r →
  str_lists h' !! r' = str_lists h !! r'.
Proof.
  revert b h. induction ws as [|w ws IH]; intros b h H Hne.
  - by injection H as <- <-.
  - cbn [elect_each] in H.
    apply bind_Ok in H as (u & h1 & Hrm & H).
    apply on_strs_Ok in Hrm as (sl & Hrm & ->).
    apply py_remove_Ok in Hrm as (l & l1 & _ & _ & ->).
    apply bind_Ok in H as (b1 & h2 & Htr & H).
    apply on_ballots_strs in Htr as Hsl. cbn in Hsl.
    rewrite (IH _ _ H Hne), Hsl. by apply list_lookup_insert_ne.
Qed.

Lemma round_branches_frame self pick r b rem fp h el elim r1 b1 h1 :
  round_branches self pick r b rem fp h = Ok ((el, elim, r1, b1), h1) →
  str_lists h !! r = Some rem →
  (length (str_lists h) ≤ length (str_lists h1))%nat ∧
  (∃ rem', str_lists h1 !! r = Some rem' ∧ sublist rem' rem) ∧
  (∀ r', (r' < length (str_lists h))%nat → r' ≠ r →
         str_lists h1 !! r' = str_lists h !! r').
Proof.
  intros H Hrem. unfold round_branches in H.
  assert (r < length (str_lists h))%nat as Hr by by eapply lookup_lt_Some.
  destruct (decide (Z.of_nat (length rem) = _)) as [Hmass|Hmass].
  { cbn in H. injection H as <- <- <- <- <-. cbn. split_and!.
    - rewrite length_app. lia.
    - exists rem. split; [by apply lookup_old|done].
    - intros r' Hr' _. by apply lookup_app_l. }
  destruct fp as [|top rest]; [done|].
  destruct (decide (Qc_of_Z (threshold self) ≤ votes top)%Qc) as [Hq|Hq].
  { apply bind_Ok in H as ([el' b'] & h2 & Hloop & Hret).
    injection Hret as <- <- <- <- <-.
    rewrite elect_loop_each in Hloop.
    apply bind_Ok in Hloop as (b2 & h3 & Heach & Hret).
    injection Hret as <- <- <-.
    destruct (elect_each_strs _ _ _ _ _ _ _ _ rem Heach Hrem)
      as (rem' & Hrem' & _ & Hsub & Hlen).
    split_and!; [lia|by exists rem'|].
    intros r' _ Hne. by eapply elect_each_frame. }
  destruct (next_round self).
  - apply bind_Ok in H as (lp & h2 & [Hlp ->]%lift_Ok & H).
    apply bind_Ok in H as (b2 & h3 & Hrc & H).
    apply on_ballots_strs in Hrc as Hsl.
    apply bind_Ok in H as (u & h4 & Hrm & Hret).
    injection Hret as <- <- <- <- <-.
    apply on_strs_Ok in Hrm as (sl & Hrm & ->).
    apply py_remove_Ok in Hrm as (l & l' & Hl & Hrm & ->).
    rewrite Hsl, Hrem in Hl. injection Hl as <-. cbn. rewrite Hsl.
    split_and!.
    + by rewrite length_insert.
    + exists l'. split; [by apply list_lookup_insert_eq|].
      by eapply list_remove_sublist.
    + intros r' _ Hne. by apply list_lookup_insert_ne.
  - injection H as <- <- <- <- <-. split_and!; [done| |done].
    by exists rem.
Qed.

(** A round changes no list of remaining candidates but the current
    record's, and that one only by removing candidates from it; the new
    record holds a list of its own, allocated by the round. *)
Theorem run_step_touches_only_current_remaining
    (e : STV) (pick : nat) (h : Heap) (e' : STV) (h' : Heap)
    (rem : list string) :
  run_step e pick h = Ok (e', h') →
  str_lists h !! remaining (election_state e) = Some rem →
  (length (str_lists h) ≤ remaining (election_state e')
   < length (str_lists h'))%nat ∧
  (∃ rem', str_lists h' !! remaining (election_state e) = Some rem' ∧
           sublist rem' rem) ∧
  (∀ r', (r' < length (str_lists h))%nat →
         r' ≠ remaining (election_state e) →
         str_lists h' !! r' = str_lists h !! r').
Proof.
  intros Hrun Hrem.
  apply run_step_Ok in Hrun
    as (el & elim & r & b & h1 & rem1 & bs1 & Hact & Hrem1 & _ & -> & ->).
  apply round_action_Ok in Hact as (rem0 & bs & Hrem0 & Hbs & Hbr).
  rewrite Hrem in Hrem0. injection Hrem0 as <-.
  destruct (round_branches_frame _ _ _ _ _ _ _ _ _ _ _ _ Hbr Hrem)
    as (Hlen & (rem' & Hrem' & Hsub) & Hframe).
  cbn. split_and!.
  - done.
  - rewrite length_app. cbn. lia.
  - exists rem'. split; [by apply lookup_old|done].
  - intros r' Hr' Hne. rewrite <- (Hframe r' Hr' Hne).
    apply lookup_app_l. lia.
Qed.

Lemma run_step_touches_only_current_remaining_witness :
  (length (str_lists test_heap_0)
   ≤ remaining
       (election_state (after_round 0 (test_engine 1 276, test_heap_0)).1)
   < length (str_lists (after_round 0 (test_engine 1 276, test_heap_0)).2))%nat.
Proof.
  destruct (run_step_touches_only_current_remaining (test_engine 1 276)
              0%nat test_heap_0
              (after_round 0 (test_engine 1 276, test_heap_0)).1
              (after_round 0 (test_engine 1 276, test_heap_0)).2
              ["A"; "B"; "C"]) as (Hfresh & _).
  - rewrite <- surjective_pairing. exact test_round_1.
  - reflexivity.
  - exact Hfresh.
Defined.

(** ** The threshold outside the Droop case *)

Lemma py_int_neg (x : Qc) : (x ≤ Q2Qc 0)%Qc → py_int x = Qceiling x.
Proof.
  intros Hx. unfold py_int, Qceiling. destruct x as [[n d] Hc]. cbn.
  unfold Qcle, Qle in Hx. change (n * 1 <= 0 * Z.pos d) in Hx.
  rewrite <- (Z.opp_involutive n) at 1.
  rewrite Z.quot_opp_l by done. f_equal.
  apply Z.quot_div_nonneg; lia.
Qed.

(** The threshold set by the constructor is
    [total / (seats + 1) + 1] rounded towards zero: its floor when it is
    not negative and its ceiling when it is negative, which happens only
    for negative seat counts or negative weights. *)
Theorem threshold_rounds_towards_zero
    (profile : loc)
    (transfer : string → loc → gmap string Qc → Z → M BallotStore loc)
    (nseats : Z) (h : Heap) (bs : list Ballot) (e : STV) (h0 : Heap) :
  ballot_lists h !! profile = Some bs →
  STV_init profile transfer nseats h = Ok (e, h0) →
  ((Q2Qc 0 ≤ num_ballots bs / Qc_of_Z (nseats + 1) + 1)%Qc →
   threshold e = Qfloor (num_ballots bs / Qc_of_Z (nseats + 1) + 1)%Qc) ∧
  ((num_ballots bs / Qc_of_Z (nseats + 1) + 1 ≤ Q2Qc 0)%Qc →
   threshold e = Qceiling (num_ballots bs / Qc_of_Z (nseats + 1) + 1)%Qc).
Proof.
  intros Hbs Hinit.
  apply STV_init_inv in Hinit as (bs' & Hbs' & _ & -> & _).
  rewrite Hbs in Hbs'. injection Hbs' as <-. cbn. split.
  - apply py_int_nonneg.
  - apply py_int_neg.
Qed.

Lemma threshold_rounds_towards_zero_witness :
  ∃ e h0,
    STV_init 0%nat fractional_transfer (-3) test_heap = Ok (e, h0) ∧
    threshold e
    = Qceiling (num_ballots test_ballots / Qc_of_Z (-3 + 1) + 1)%Qc.
Proof.
  pose proof (STV_init_Ok 0%nat fractional_transfer (-3) test_heap
                test_ballots eq_refl ltac:(lia)) as Hinit.
  eexists _, _. split; [exact Hinit|].
  destruct (threshold_rounds_towards_zero 0%nat fractional_transfer (-3)
              test_heap test_ballots _ _ eq_refl Hinit) as [_ Hneg].
  apply Hneg. by vm_compute.
Defined.

(** ** More seats than candidates *)

Lemma oversubscribed_next_round e h rem :
  oversubscribed (e, h) rem → next_round e = true.
Proof.
  intros (_ & _ & _ & _ & _ & Hlt). cbn in Hlt.
  apply bool_decide_eq_true. lia.
Qed.

Lemma run_step_oversubscribed e h pick rem c rem0 :
  oversubscribed (e, h) rem → rem = c :: rem0 →
  ∃ e' h' rem',
    run_step e pick h = Ok (e', h') ∧ oversubscribed (e', h') rem' ∧
    (length rem' < length rem)%nat.
Proof.
  intros Hov Hne. pose proof (oversubscribed_next_round _ _ _ Hov) as Hnext.
  destruct Hov as (Htr & Hq & Hrem & Hnd & (bs & Hbs & Hnn) & Hlt).
  cbn in *.
  pose proof (compute_votes_Permutation rem bs Hnd) as Hperm.
  pose proof (compute_votes_NoDup rem bs) as Hfpnd.
  pose proof (compute_votes_values rem bs) as Hvals.
  rewrite Forall_forall in Hvals.
  pose proof (Permutation_length Hperm) as Hlen. rewrite length_fmap in Hlen.
  assert (Z.of_nat (length rem)
          ≠ seats e - Z.of_nat (length (get_all_winners (election_state e))))
    as Hmass by lia.
  destruct (compute_votes rem bs) as [|top rest] eqn:Hfp.
  { rewrite Hne in Hlen. done. }
  destruct (decide (Qc_of_Z (threshold e) ≤ votes top)%Qc) as [Hqt|Hqt].
  - set (ws := at_quota (threshold e) (top :: rest)).
    assert (∀ cv, cv ∈ ws →
              cv ∈ top :: rest ∧ (Qc_of_Z (threshold e) ≤ votes cv)%Qc)
      as Hws.
    { intros cv [? ?]%list_elem_of_filter. done. }
    assert (Q2Qc 0 < Qc_of_Z (threshold e))%Qc as Hqpos
      by by apply Qc_of_Z_pos.
    destruct (elect_each_fractional e (remaining (election_state e))
                (top :: rest) ws (profile (election_state e)) h rem bs)
      as (b' & h1 & rem' & Hrun & Hrem' & Hperm' & Hbs'); [done..| | |].
    { by apply at_quota_NoDup. }
    { apply Forall_forall. intros cv Hcv.
      destruct (Hws cv Hcv) as [Hin Hqv]. split_and!.
      - rewrite <- Hperm. apply list_elem_of_fmap. eauto.
      - by apply votes_map_lookup.
      - apply Qclt_neq_0. by eapply Qclt_le_trans. }
    destruct (transferred_all (threshold e) bs ws) as [Hnn' _];
      [done|by apply at_quota_NoDup| |done|].
    { apply Forall_forall. intros cv Hcv.
      destruct (Hws cv Hcv) as [Hin Hqv]. split; [done|].
      rewrite (Hvals cv Hin). apply Qcle_refl. }
    assert (length ws = S (length (at_quota (threshold e) rest))) as Hk.
    { unfold ws, at_quota. by rewrite filter_cons_True. }
    assert (length rem = (length ws + length rem')%nat) as Hsplit.
    { rewrite (Permutation_length Hperm'), length_app, length_fmap. done. }
    eexists _, _, rem'. split_and!.
    + eapply (run_step_from_branches _ _ _ rem bs); [done|done| | |].
      * rewrite Hfp.
        rewrite (round_branches_elect _ _ _ _ _ _ top rest) by done.
        fold ws. rewrite (bind_step _ _ _ _ _ Hrun). reflexivity.
      * exact Hrem'.
      * exact Hbs'.
    + clearbody ws. unfold oversubscribed. cbn.
      rewrite length_app, length_fmap, Nat2Z.inj_add.
      split_and!; [done|done|apply lookup_new| | |lia].
      * rewrite Hperm' in Hnd. by apply NoDup_app in Hnd as (_ & _ & ?).
      * eexists. split; [apply lookup_new|done].
    + lia.
  - set (lpc := cand <$> filter
                  (λ cv, votes cv
                         = py_min (votes top) (votes <$> top :: rest))
                  (top :: rest)).
    destruct (random_choice_Ok pick lpc (lowest_nonempty top rest))
      as [lp Hrc].
    assert (lp ∈ rem) as Hlp.
    { apply random_choice_elem in Hrc. rewrite <- Hperm.
      apply list_elem_of_fmap in Hrc as (cv & -> & Hcv).
      apply list_elem_of_filter in Hcv as [_ Hcv].
      apply list_elem_of_fmap. eauto. }
    destruct (list_remove_elem _ _ Hlp) as [l1 Hrm].
    pose proof (list_remove_Some _ _ _ Hrm) as Hperm1.
    assert (length rem = S (length l1)) as Hlen1
      by by rewrite (Permutation_length Hperm1).
    assert (remaining (election_state e) < length (str_lists h))%nat
      as Hr by by eapply lookup_lt_Some.
    eexists _, _, l1. split_and!.
    + eapply (run_step_from_branches _ _ _ rem bs); [done|done| | |].
      * rewrite Hfp. unfold round_branches.
        rewrite decide_False by done. rewrite decide_False by done.
        rewrite Hnext. cbv zeta. fold lpc. rewrite Hrc.
        rewrite (bind_step _ _ _ lp h) by done.
        rewrite (bind_step _ _ _ _ _
                   (on_ballots_step _ _ _ _
                      (remove_cand_step lp _ _ _ Hbs))).
        rewrite (bind_step _ _ _ _ _
                   (on_strs_step _ (mkHeap (str_lists h) _) _ _
                      (py_remove_step _ lp _ _ _ Hrem Hrm))).
        reflexivity.
      * cbn. by apply list_lookup_insert_eq.
      * cbn. apply lookup_new.
    + unfold oversubscribed. cbn. rewrite app_nil_r.
      split_and!; [done|done|apply lookup_new| | |lia].
      * rewrite Hperm1 in Hnd. by apply NoDup_cons in Hnd as [_ ?].
      * eexists. split; [apply lookup_new|].
        apply Forall_fmap. eapply Forall_impl; [exact Hnn|]. done.
    + lia.
Qed.

Lemma election_loop_oversubscribed fuel picks k e h rem :
  oversubscribed (e, h) rem → (length rem < fuel)%nat →
  election_loop fuel picks k e h = Raise IndexError.
Proof.
  revert k e h rem. induction fuel as [|fuel IH]; intros k e h rem Hov Hfuel;
    [lia|].
  cbn [election_loop]. rewrite (oversubscribed_next_round _ _ _ Hov).
  destruct rem as [|c rem0].
  - apply bind_raise.
    destruct Hov as (_ & _ & Hrem & _ & (bs & Hbs & _) & Hlt). cbn in *.
    apply (run_step_empty_remaining _ _ _ bs); [done..|lia].
  - destruct (run_step_oversubscribed e h (picks k) _ c rem0 Hov eq_refl)
      as (e' & h' & rem' & Hrun & Hov' & Hlen).
    rewrite (bind_step _ _ _ _ _ Hrun).
    apply (IH _ _ _ rem' Hov'). cbn [length] in Hfuel, Hlen. lia.
Qed.

(** An election with more seats than candidates, run with fractional
    transfer on a profile with non-negative weights, is built without
    complaint and [run_election] then raises [IndexError]: the rounds elect
    or eliminate the candidates until none remains, and the next round
    reads the leader of an empty tally. *)
Theorem run_election_with_too_many_seats
    (profile : loc) (nseats : Z) (h : Heap) (bs : list Ballot)
    (picks : nat → nat) (fuel : nat) :
  ballot_lists h !! profile = Some bs →
  Forall (λ b, (Q2Qc 0 ≤ weight b)%Qc) bs →
  Z.of_nat (length (get_candidates bs)) < nseats →
  (length (get_candidates bs) < fuel)%nat →
  ∃ e h0,
    STV_init profile fractional_transfer nseats h = Ok (e, h0) ∧
    run_election fuel picks e h0 = Raise IndexError.
Proof.
  intros Hbs Hnn Hseats Hfuel.
  pose proof (compute_votes_Permutation (get_candidates bs) bs
                (get_candidates_NoDup bs)) as Hperm.
  destruct (droop_quota_exceeds (total_weight bs) nseats) as [Hq _];
    [by apply total_weight_nonneg|lia|].
  eexists _, _. split; [apply (STV_init_Ok _ _ _ _ bs); [done|lia]|].
  set (e := mkSTV _ _ _ _ _). set (h0 := mkHeap _ _).
  assert (oversubscribed (e, h0)
            (cand <$> compute_votes (get_candidates bs) bs)) as Hov.
  { unfold oversubscribed. cbn. rewrite num_ballots_total.
    split_and!; [done|done|apply lookup_new|apply compute_votes_NoDup| |].
    - by exists bs.
    - rewrite Hperm. lia. }
  unfold run_election. rewrite (oversubscribed_next_round _ _ _ Hov).
  apply bind_raise. apply (election_loop_oversubscribed _ _ _ _ _ _ Hov).
  by rewrite Hperm.
Qed.

Lemma run_election_with_too_many_seats_witness :
  ∃ e h0,
    STV_init 0%nat fractional_transfer 4 test_heap = Ok (e, h0) ∧
    run_election 4 (λ _, 0%nat) e h0 = Raise IndexError.
Proof.
  apply (run_election_with_too_many_seats 0%nat 4 test_heap test_ballots
           (λ _, 0%nat) 4 eq_refl test_ballots_nonneg).
  - by vm_compute.
  - vm_compute. lia.
Defined.

(** ** What a round does to the ballots *)

Lemma on_strs_ballots {A} (m : M (list (list string)) A) h a h' :
  on_strs m h = Ok (a, h') → ballot_lists h' = ballot_lists h.
Proof. intros (sl & _ & ->)%on_strs_Ok. done. Qed.

Lemma remove_cand_Ok c b (st st' : BallotStore) b' :
  remove_cand c b st = Ok (b', st') →
  ∃ bs, st !! b = Some bs ∧ b' = length st ∧
        st' = st ++ [without_cand c <$> bs].
Proof.
  unfold remove_cand. intros H.
  apply bind_Ok in H as (bs & st1 & [Hbs ->]%store_get_Ok & H).
  injection H as <- <-. by exists bs.
Qed.

Lemma fractional_transfer_Ok winner b votes q (st st' : BallotStore) b' :
  fractional_transfer winner b votes q st = Ok (b', st') →
  ∃ bs tv, st !! b = Some bs ∧ b' = length st ∧
    st' = <[b := scale_first winner tv <$> bs]> st
          ++ [without_cand winner <$> (scale_first winner tv <$> bs)].
Proof.
  unfold fractional_transfer. intros H.
  apply bind_Ok in H as (v & st1 & Hv & H).
  destruct (votes !! winner) as [v'|]; [|done]. injection Hv as <- <-.
  apply bind_Ok in H as (tv & st1 & Htv & H).
  destruct (decide (v' = Q2Qc 0)); [done|]. injection Htv as <- <-.
  apply bind_Ok in H as (bs & st1 & [Hbs ->]%store_get_Ok & H).
  apply bind_Ok in H as (u & st1 & Hset & H).
  unfold store_set in Hset. rewrite Hbs in Hset. injection Hset as Hset.
  subst st1. apply remove_cand_Ok in H as (bs1 & Hbs1 & -> & ->).
  rewrite list_lookup_insert_eq in Hbs1 by by eapply lookup_lt_Some.
  injection Hbs1 as <-. rewrite length_insert. by eexists bs, _.
Qed.

Lemma scale_first_ranking w tv b : ranking (scale_first w tv b) = ranking b.
Proof. unfold scale_first. by destruct (first_is w b). Qed.

Lemma scale_first_only_first w tv bs :
  Forall2 (λ b' b, ranking b' = ranking b ∧
                   (weight b' = weight b ∨ first_is w b = true))
    (scale_first w tv <$> bs) bs.
Proof.
  apply Forall2_fmap_l, Forall_Forall2_diag, Forall_forall.
  intros b _. cbn. split; [apply scale_first_ranking|].
  unfold scale_first. destruct (first_is w b); auto.
Qed.

Lemma elect_each_ballots_frame self r fp ws b h b' h' :
  transfer self = fractional_transfer →
  elect_each self r fp ws b h = Ok (b', h') →
  (length (ballot_lists h) ≤ length (ballot_lists h'))%nat ∧
  (∀ b0, (b0 < length (ballot_lists h))%nat → b0 ≠ b →
         ballot_lists h' !! b0 = ballot_lists h !! b0).
Proof.
  intros Htr. revert b h. induction ws as [|w ws IH]; intros b h H.
  - by injection H as <- <-.
  - cbn [elect_each] in H.
    apply bind_Ok in H as (u & h1 & Hrm & H).
    apply on_strs_ballots in Hrm as Hbl.
    apply bind_Ok in H as (b1 & h2 & Hft & H).
    apply on_ballots_Ok in Hft as (bl & Hft & ->). rewrite Htr in Hft.
    apply fractional_transfer_Ok in Hft as (bs & tv & Hbs & -> & ->).
    destruct (IH _ _ H) as [Hlen Hframe]. cbn in Hlen, Hframe.
    rewrite length_app, length_insert in Hlen, Hframe. cbn in Hlen, Hframe.
    rewrite Hbl in *. split; [lia|].
    intros b0 Hb0 Hne. rewrite Hframe by lia.
    rewrite lookup_app_l by by rewrite length_insert.
    by apply list_lookup_insert_ne.
Qed.

Lemma elect_each_ballots_current self r fp ws b h b' h' bs :
  transfer self = fractional_transfer →
  elect_each self r fp ws b h = Ok (b', h') →
  ballot_lists h !! b = Some bs →
  ∃ bs', ballot_lists h' !! b = Some bs' ∧
    Forall2 (λ b' b, ranking b' = ranking b ∧
                     (weight b' = weight b ∨
                      ∃ w, head ws = Some w ∧ first_is w b = true)) bs' bs.
Proof.
  intros Htr H Hbs. destruct ws as [|w ws].
  - injection H as <- <-. exists bs. split; [done|].
    apply Forall_Forall2_diag, Forall_forall. auto.
  - cbn [elect_each] in H.
    apply bind_Ok in H as (u & h1 & Hrm & H).
    apply on_strs_ballots in Hrm as Hbl.
    apply bind_Ok in H as (b1 & h2 & Hft & H).
    apply on_ballots_Ok in Hft as (bl & Hft & ->). rewrite Htr in Hft.
    apply fractional_transfer_Ok in Hft as (bs0 & tv & Hbs0 & -> & ->).
    rewrite Hbl, Hbs in Hbs0. injection Hbs0 as <-.
    assert (b < length (ballot_lists h))%nat as Hb by by eapply lookup_lt_Some.
    destruct (elect_each_ballots_frame _ _ _ _ _ _ _ _ Htr H)
      as [_ Hframe]. cbn in Hframe.
    rewrite length_app, length_insert, Hbl in Hframe.
    exists (scale_first w tv <$> bs). split.
    + rewrite Hframe by (cbn; lia).
      rewrite lookup_app_l by by rewrite length_insert.
      by apply list_lookup_insert_eq.
    + eapply Forall2_impl; [apply scale_first_only_first|].
      intros x y [? [?|?]]; eauto.
Qed.

Lemma round_branches_ballots self pick r b rem fp h el elim r1 b1 h1 bs :
  transfer self = fractional_transfer →
  round_branches self pick r b rem fp h = Ok ((el, elim, r1, b1), h1) →
  ballot_lists h !! b = Some bs →
  (length (ballot_lists h) ≤ length (ballot_lists h1))%nat ∧
  (∃ bs', ballot_lists h1 !! b = Some bs' ∧
     Forall2 (λ b' b, ranking b' = ranking b ∧
                      (weight b' = weight b ∨
                       ∃ w, head el = Some w ∧ first_is w b = true))
       bs' bs) ∧
  (∀ b0, (b0 < length (ballot_lists h))%nat → b0 ≠ b →
         ballot_lists h1 !! b0 = ballot_lists h !! b0).
Proof.
  intros Htr H Hbs. unfold round_branches in H.
  assert (Forall2 (λ b' b : Ballot, ranking b' = ranking b ∧
                     (weight b' = weight b ∨
                      ∃ w, head el = Some w ∧ first_is w b = true)) bs bs)
    as Hsame.
  { apply Forall_Forall2_diag, Forall_forall. auto. }
  destruct (decide (Z.of_nat (length rem) = _)) as [Hmass|Hmass].
  { cbn in H. injection H as <- <- <- <- <-. cbn. split_and!.
    - rewrite length_app. lia.
    - exists bs. split; [by apply lookup_old|done].
    - intros b0 Hb0 _. by apply lookup_app_l. }
  destruct fp as [|top rest]; [done|].
  destruct (decide (Qc_of_Z (threshold self) ≤ votes top)%Qc) as [Hq|Hq].
  { apply bind_Ok in H as ([el' b'] & h2 & Hloop & Hret).
    injection Hret as <- <- <- <- <-.
    rewrite elect_loop_each in Hloop.
    apply bind_Ok in Hloop as (b2 & h3 & Hloop & Hret).
    injection Hret as <- <- <-.
    destruct (elect_each_ballots_frame _ _ _ _ _ _ _ _ Htr Hloop)
      as [Hlen Hframe].
    destruct (elect_each_ballots_current _ _ _ _ _ _ _ _ _ Htr Hloop Hbs)
      as (bs' & Hbs' & Hall).
    split_and!; [done| |done]. by exists bs'. }
  destruct (next_round self).
  - cbv zeta in H.
    apply bind_Ok in H as (lp & h2 & Hrc & H).
    unfold lift in Hrc. destruct (random_choice _ _); [|done].
    injection Hrc as <- <-.
    apply bind_Ok in H as (b2 & h3 & Hrmc & H).
    apply on_ballots_Ok in Hrmc as (bl & Hrmc & ->).
    apply remove_cand_Ok in Hrmc as (bs0 & _ & -> & ->).
    apply bind_Ok in H as (u & h4 & Hrm & H).
    apply on_strs_ballots in Hrm as Hbl. cbn in Hbl.
    injection H as <- <- <- <- <-. rewrite Hbl. split_and!.
    + rewrite length_app. lia.
    + exists bs. split; [by apply lookup_old|done].
    + intros b0 Hb0 _. by apply lookup_app_l.
  - injection H as <- <- <- <- <-. split_and!; [done| |done].
    by exists bs.
Qed.

(** Under fractional transfer a round leaves the ballots of every earlier
    profile as they are and gives the new record a profile of its own.  In
    the profile the round started from the ballots keep their place and
    their ranking, and a weight differs only on ballots whose first place
    is the first candidate the round elected. *)
Theorem run_step_touches_only_first_winner_ballots
    (e : STV) (pick : nat) (h : Heap) (e' : STV) (h' : Heap)
    (bs : list Ballot) :
  transfer e = fractional_transfer →
  run_step e pick h = Ok (e', h') →
  ballot_lists h !! profile (election_state e) = Some bs →
  (length (ballot_lists h) ≤ profile (election_state e')
   < length (ballot_lists h'))%nat ∧
  (∃ bs', ballot_lists h' !! profile (election_state e) = Some bs' ∧
     Forall2 (λ b' b, ranking b' = ranking b ∧
                      (weight b' = weight b ∨
                       ∃ w, head (elected (election_state e')) = Some w ∧
                            first_is w b = true))
       bs' bs) ∧
  (∀ b0, (b0 < length (ballot_lists h))%nat →
         b0 ≠ profile (election_state e) →
         ballot_lists h' !! b0 = ballot_lists h !! b0).
Proof.
  intros Htr Hrun Hbs.
  apply run_step_Ok in Hrun
    as (el & elim & r & b & h1 & rem1 & bs1 & Hact & _ & _ & -> & ->).
  apply round_action_Ok in Hact as (rem0 & bs0 & _ & Hbs0 & Hbr).
  rewrite Hbs in Hbs0. injection Hbs0 as <-.
  destruct (round_branches_ballots _ _ _ _ _ _ _ _ _ _ _ _ _ Htr Hbr Hbs)
    as (Hlen & (bs' & Hbs' & Hall) & Hframe).
  cbn. split_and!.
  - done.
  - rewrite length_app. cbn. lia.
  - exists bs'. split; [by apply lookup_old|done].
  - intros b0 Hb0 Hne. rewrite <- (Hframe b0 Hb0 Hne).
    apply lookup_app_l. lia.
Qed.

Lemma run_step_touches_only_first_winner_ballots_witness :
  ∃ bs', ballot_lists (after_round 0 (test_engine 2 184, test_heap_0)).2
           !! profile (election_state (test_engine 2 184)) = Some bs' ∧
         ranking <$> bs' = ranking <$> test_ballots.
Proof.
  destruct (run_step_touches_only_first_winner_ballots (test_engine 2 184)
              0%nat test_heap_0
              (after_round 0 (test_engine 2 184, test_heap_0)).1
              (after_round 0 (test_engine 2 184, test_heap_0)).2
              test_ballots eq_refl)
    as (_ & (bs' & Hbs' & Hall) & _).
  - vm_compute. reflexivity.
  - reflexivity.
  - exists bs'. split; [exact Hbs'|].
    clear Hbs'. induction Hall as [|x y l k [Hr _] _ IH]; [reflexivity|].
    cbn. rewrite Hr, IH. reflexivity.
Defined.

Lemma run_step_keeps_other_ballots e pick h e' h' b0 bs0 :
  transfer e = fractional_transfer →
  run_step e pick h = Ok (e', h') →
  ballot_lists h !! b0 = Some bs0 → b0 ≠ profile (election_state e) →
  ballot_lists h' !! b0 = Some bs0 ∧ b0 ≠ profile (election_state e').
Proof.
  intros Htr Hrun Hb0 Hne.
  assert (b0 < length (ballot_lists h))%nat as Hlt by by eapply lookup_lt_Some.
  apply run_step_Ok in Hrun
    as (el & elim & r & b & h1 & rem1 & bs1 & Hact & _ & _ & -> & ->).
  apply round_action_Ok in Hact as (rem0 & bs & _ & Hbs & Hbr).
  destruct (round_branches_ballots _ _ _ _ _ _ _ _ _ _ _ _ _ Htr Hbr Hbs)
    as (Hlen & _ & Hframe).
  cbn. split; [|lia].
  apply lookup_old. by rewrite (Hframe b0 Hlt Hne).
Qed.

Lemma rounds_keep_other_ballots x y b0 bs0 :
  rounds x y →
  transfer x.1 = fractional_transfer →
  ballot_lists x.2 !! b0 = Some bs0 → b0 ≠ profile (election_state x.1) →
  ballot_lists y.2 !! b0 = Some bs0.
Proof.
  induction 1 as [x|e h pick e1 h1 x Hstep Hrest IH]; intros Htr Hb0 Hne;
    [done|]. cbn in *.
  destruct (run_step_keeps_other_ballots _ _ _ _ _ _ _ Htr Hstep Hb0 Hne)
    as [Hb1 Hne1].
  apply IH; [|done..].
  apply run_step_fields in Hstep as (_ & -> & _). done.
Qed.

(** Under fractional transfer the profile returned by [get_init_profile]
    is touched by the first round only: the ballots it holds after that
    round have the rankings of the ballots the election was built on, in
    the same order, and they are what it holds after any number of further
    rounds. *)
Theorem get_init_profile_settles_after_first_round
    (profile : loc) (nseats : Z) (h : Heap) (bs : list Ballot)
    (e : STV) (h0 : Heap) (pick : nat) (e1 : STV) (h1 : Heap)
    (e2 : STV) (h2 : Heap) :
  ballot_lists h !! profile = Some bs →
  STV_init profile fractional_transfer nseats h = Ok (e, h0) →
  run_step e pick h0 = Ok (e1, h1) →
  rounds (e1, h1) (e2, h2) →
  ∃ bs1,
    ballot_lists h1 !! get_init_profile e1 = Some bs1 ∧
    ballot_lists h2 !! get_init_profile e2 = Some bs1 ∧
    ranking <$> bs1 = ranking <$> bs.
Proof.
  intros Hbs Hinit Hstep Hrounds.
  apply STV_init_inv in Hinit as (bs0 & Hbs0 & _ & -> & ->).
  rewrite Hbs in Hbs0. injection Hbs0 as <-.
  pose proof (run_step_fields _ _ _ _ _ Hstep) as (Hip & Htr & _).
  pose proof (rounds_fields _ _ _ _ Hrounds) as (Hip2 & _).
  unfold get_init_profile. rewrite Hip2, Hip. cbn in Htr |- *.
  apply run_step_Ok in Hstep
    as (el & elim & r & b & h3 & rem1 & bs3 & Hact & _ & _ & -> & ->).
  apply round_action_Ok in Hact as (rem0 & bs0 & _ & Hbs0 & Hbr).
  cbn in Hbs0, Hbr. rewrite Hbs in Hbs0. injection Hbs0 as <-.
  eapply (round_branches_ballots _ _ _ _ _ _ _ _ _ _ _ _ bs) in Hbr
    as (Hlen & (bs1 & Hbs1 & Hall) & _); [|done..].
  cbn in Hlen. exists bs1.
  assert ((ballot_lists h3 ++ [bs3]) !! profile = Some bs1) as Hbs1'
    by by apply lookup_old.
  split_and!.
  - done.
  - apply (rounds_keep_other_ballots _ _ _ _ Hrounds); [done|done|].
    cbn. apply lookup_lt_Some in Hbs. lia.
  - clear -Hall. induction Hall as [|x y l k [Hr _] _ IH]; [done|].
    cbn. by rewrite Hr, IH.
Qed.

Lemma get_init_profile_settles_after_first_round_witness :
  ∃ bs1,
    ballot_lists (after_round 0 (test_engine 2 184, test_heap_0)).2
      !! get_init_profile (after_round 0 (test_engine 2 184, test_heap_0)).1
    = Some bs1 ∧
    ballot_lists
      (after_round 0 (after_round 0 (test_engine 2 184, test_heap_0))).2
      !! get_init_profile
           (after_round 0 (after_round 0 (test_engine 2 184, test_heap_0))).1
    = Some bs1 ∧
    ranking <$> bs1 = ranking <$> test_ballots.
Proof.
  apply (get_init_profile_settles_after_first_round 0%nat 2 test_heap
           test_ballots (test_engine 2 184) test_heap_0 0%nat
           (after_round 0 (test_engine 2 184, test_heap_0)).1
           (after_round 0 (test_engine 2 184, test_heap_0)).2).
  - reflexivity.
  - vm_compute. reflexivity.
  - vm_compute. reflexivity.
  - eapply (rounds_step _ _ 0%nat
              (after_round 0 (after_round 0 (test_engine 2 184, test_heap_0))).1
              (after_round 0 (after_round 0 (test_engine 2 184, test_heap_0))).2).
    + vm_compute. reflexivity.
    + rewrite <- surjective_pairing. apply rounds_refl.
Defined.
